(** * SimpleMindMap: outline parser, classifier, tree/graph mapper,
      structural editor and codec layer

    A shallow embedding of the functions of [app.js], [import-export.js]
    and the keyboard controller, with the properties of the natural-language
    specification stated over them.

    JavaScript strings are sequences of code units; they are modelled as
    [list ascii] (code units below 256).  Objects that the sources use as
    dictionaries are [gmap]s keyed by node id. *)

From Stdlib Require Import Ascii String List ZArith Lia Permutation Sorted.
From stdpp Require Import base option list strings gmap pretty.

Local Open Scope nat_scope.

(** ** JavaScript strings *)

Module Js.

Abbreviation jsstring := (list ascii).

(** A string literal of the sources. *)
Definition str (s : string) : jsstring := list_ascii_of_string s.

Definition SP : ascii := " "%char.
Definition TAB : ascii := "009"%char.
Definition LF : ascii := "010"%char.
Definition CR : ascii := "013"%char.

(** The white space of [\s] and of [String.prototype.trim] among the code
    units below 256: TAB, LF, VT, FF, CR, SPACE and NBSP. *)
Definition is_ws (c : ascii) : bool :=
  existsb (Ascii.eqb c)
    ["009"%char; "010"%char; "011"%char; "012"%char; "013"%char; " "%char; "160"%char].

Fixpoint take_ws (s : jsstring) : jsstring :=
  match s with
  | c :: s' => if is_ws c then c :: take_ws s' else []
  | [] => []
  end.

Fixpoint drop_ws (s : jsstring) : jsstring :=
  match s with
  | c :: s' => if is_ws c then drop_ws s' else s
  | [] => []
  end.

(** [s.trim()] *)
Definition trim (s : jsstring) : jsstring :=
  rev (drop_ws (rev (drop_ws s))).

(** [s.split(c)] for a one-character separator: never empty. *)
Fixpoint split_on (sep : ascii) (s : jsstring) : list jsstring :=
  match s with
  | [] => [[]]
  | c :: s' =>
      if Ascii.eqb c sep then [] :: split_on sep s'
      else match split_on sep s' with
           | w :: ws => (c :: w) :: ws
           | [] => [[c]]
           end
  end.

(** [parts.join(sep)] *)
Fixpoint join (sep : jsstring) (parts : list jsstring) : jsstring :=
  match parts with
  | [] => []
  | [p] => p
  | p :: ps => p ++ sep ++ join sep ps
  end.

(** [s.split(/\r?\n/)]: a separator is LF or CR LF. *)
Fixpoint split_lines (s : jsstring) : list jsstring :=
  match s with
  | [] => [[]]
  | c :: s' =>
      let cons_c :=
        match split_lines s' with
        | w :: ws => (c :: w) :: ws
        | [] => [[c]]
        end in
      if Ascii.eqb c LF then [] :: split_lines s'
      else match s' with
           | d :: s'' =>
               if Ascii.eqb c CR && Ascii.eqb d LF then [] :: split_lines s''
               else cons_c
           | [] => cons_c
           end
  end.

(** [sep.repeat(n)] *)
Fixpoint repeat_str (s : jsstring) (n : nat) : jsstring :=
  match n with
  | 0 => []
  | S n' => s ++ repeat_str s n'
  end.

(** [s.substring(a, b)] for [a <= b]. *)
Definition substring (a b : nat) (s : jsstring) : jsstring :=
  take (b - a) (drop a s).

(** [s.startsWith(p)] *)
Fixpoint startsWith (p s : jsstring) : bool :=
  match p, s with
  | [], _ => true
  | a :: p', b :: s' => Ascii.eqb a b && startsWith p' s'
  | _ :: _, [] => false
  end.

(** [s.includes(p)] *)
Fixpoint includes (p s : jsstring) : bool :=
  startsWith p s ||
  match s with
  | [] => false
  | _ :: s' => includes p s'
  end.

(** [c] lowered as [toLowerCase] lowers a code unit below 256: the letters
    A to Z, and the capital letters of Latin-1 (192 to 222, the
    multiplication sign 215 left aside). *)
Definition lower_char (c : ascii) : ascii :=
  let n := nat_of_ascii c in
  if ((65 <=? n) && (n <=? 90))
     || ((192 <=? n) && (n <=? 222) && negb (n =? 215))
  then ascii_of_nat (n + 32) else c.

(** [s.toLowerCase()] *)
Definition toLowerCase (s : jsstring) : jsstring := map lower_char s.

(** Truthiness of a string: the empty string is falsy. *)
Definition truthy (s : jsstring) : bool :=
  match s with [] => false | _ => true end.

End Js.
Import Js.

(** ** Outline parser ([app.js]) *)

(** The leading white space of a line with each tab replaced by [tabw]
    spaces. *)
Definition expand_tabs (tabw : nat) (ws : jsstring) : jsstring :=
  flat_map (fun c => if Ascii.eqb c TAB then repeat SP tabw else [c]) ws.

(** [getIndentLevel]: two columns of leading white space make one level,
    a tab counting for four columns. *)
Definition getIndentLevel (line : jsstring) : nat :=
  let spaces := expand_tabs 4 (take_ws line) in
  length spaces / 2.

(** The number of tabs and of other characters of a run of white space. *)
Definition count_tabs (ws : jsstring) : nat :=
  length (List.filter (fun c => Ascii.eqb c TAB) ws).
Definition count_other (ws : jsstring) : nat :=
  length (List.filter (fun c => negb (Ascii.eqb c TAB)) ws).

(** A line splits into its leading white space [ws] and a rest that does
    not start with white space. *)
Definition leading_ws_of (line ws rest : jsstring) : Prop :=
  line = ws ++ rest /\ forallb is_ws ws = true /\
  match rest with c :: _ => is_ws c = false | [] => True end.


(** [parseHierarchicalTasks].  A task of the outline. *)
#[local] Unset Elimination Schemes.
Inductive task : Type :=
  Task (text : jsstring) (level : nat) (children : list task).
#[local] Set Elimination Schemes.

Definition task_text (t : task) : jsstring := let 'Task x _ _ := t in x.
Definition task_level (t : task) : nat := let 'Task _ l _ := t in l.
Definition task_children (t : task) : list task := let 'Task _ _ c := t in c.

Fixpoint update_last {A} (g : A -> A) (l : list A) : list A :=
  match l with
  | [] => []
  | [x] => [g x]
  | x :: l' => x :: update_last g l'
  end.

(** The stack of the parser holds references into the hierarchy under
    construction: above the sentinel (whose [children] is the hierarchy
    itself), entry [k] is the task pushed as the last child of entry [k-1],
    and no child is appended to an entry while another lies above it.  So
    entry [k] is the task reached from the hierarchy by following the last
    child [k] times, and [stack[stack.length - 1].children.push(task)] with
    [d] entries above the sentinel is [push_at d task hierarchy]. *)
Fixpoint push_at (d : nat) (t : task) (hierarchy : list task) : list task :=
  match d with
  | 0 => hierarchy ++ [t]
  | S d' =>
      update_last
        (fun p => Task (task_text p) (task_level p) (push_at d' t (task_children p)))
        hierarchy
  end.

(** [while (stack.length > 1 && stack[stack.length - 1].level >= level)
    stack.pop()], on the levels of the entries above the sentinel, top
    first. *)
Fixpoint pop_while (level : nat) (stack : list nat) : list nat :=
  match stack with
  | top :: rest => if level <=? top then pop_while level rest else stack
  | [] => []
  end.

Record parser_state := ParserState {
  ps_hierarchy : list task;
  ps_stack : list nat
}.

Definition parse_line (st : parser_state) (rawLine : jsstring) : parser_state :=
  let level := getIndentLevel rawLine in
  let text := trim rawLine in
  if negb (truthy text) then st
  else
    let stack := pop_while level (ps_stack st) in
    {| ps_hierarchy := push_at (length stack) (Task text level []) (ps_hierarchy st);
       ps_stack := level :: stack |}.

(** [parseHierarchicalTasks(input, autoGroup)]: the lines of the input that
    are not empty, one [parse_line] each.  The body of the source never
    reads its second parameter [autoGroup], which is left out here. *)
Definition parseHierarchicalTasks (input : jsstring) : list task :=
  let lines := List.filter truthy (split_lines input) in
  ps_hierarchy (fold_left parse_line lines (ParserState [] [])).

(** ** Classifier ([app.js]) *)

Definition KEYWORD_GROUPS : list (jsstring * list jsstring) :=
  [ (str "Design",
      map str ["design"; "ui"; "ux"; "mockup"; "prototype"; "wireframe"; "sketch"]%string);
    (str "Development",
      map str ["code"; "develop"; "build"; "implement"; "program"; "create"; "api"]%string);
    (str "Testing",
      map str ["test"; "qa"; "verify"; "validate"; "debug"; "check"]%string);
    (str "Documentation",
      map str ["document"; "write"; "readme"; "guide"; "manual"; "tutorial"]%string);
    (str "Deployment",
      map str ["deploy"; "release"; "publish"; "launch"; "production"]%string) ].

Definition GROUP_COLORS : list (jsstring * jsstring) :=
  [ (str "Design", str "#8ecae6");
    (str "Development", str "#219ebc");
    (str "Testing", str "#b5179e");
    (str "Documentation", str "#f4a261");
    (str "Deployment", str "#4CAF50");
    (str "Other", str "#adb5bd") ].

(** The loop of [detectKeyword] over [Object.entries(KEYWORD_GROUPS)]. *)
Fixpoint detect_in (groups : list (jsstring * list jsstring)) (lower : jsstring)
  : jsstring :=
  match groups with
  | [] => str "Other"
  | (group, keywords) :: rest =>
      if existsb (fun kw => includes kw lower) keywords then group
      else detect_in rest lower
  end.

Definition detectKeyword (text : jsstring) : jsstring :=
  detect_in KEYWORD_GROUPS (toLowerCase text).

(** ** Tree to graph: [buildNetworkData] ([app.js]) *)

Definition maxCharsPerLine : nat := 20.

(** The loop over the words of a leaf's text; it is left as soon as two
    lines are complete. *)
Fixpoint wrap_words (words : list jsstring) (lines : list jsstring)
  (currentLine : jsstring) : list jsstring * jsstring :=
  match words with
  | [] => (lines, currentLine)
  | word :: rest =>
      let cand := trim (currentLine ++ [SP] ++ word) in
      let '(lines', currentLine') :=
        if length cand <=? maxCharsPerLine then (lines, cand)
        else ((if truthy currentLine then lines ++ [currentLine] else lines), word) in
      if 2 <=? length lines' then (lines', currentLine')
      else wrap_words rest lines' currentLine'
  end.

(** The lines of a leaf before the ellipsis is applied. *)
Definition leaf_lines (text : jsstring) : list jsstring :=
  let '(lines, currentLine) := wrap_words (split_on SP text) [] [] in
  if truthy currentLine && (length lines <? 3) then lines ++ [currentLine]
  else lines.

(** [words.length > lines.join(' ').split(' ').length] *)
Definition was_truncated (text : jsstring) (lines : list jsstring) : bool :=
  length (split_on SP (join [SP] lines)) <? length (split_on SP text).

(** The label of a leaf.  [None] is the [TypeError] of
    [lines[lines.length - 1].substring] when there is no line. *)
Definition leafLabel (text : jsstring) : option jsstring :=
  let lines := leaf_lines text in
  if was_truncated text lines then
    match last lines with
    | None => None
    | Some lastLine =>
        let cut := substring 0 (length lastLine - 3) lastLine ++ str "..." in
        Some (join [LF] (removelast lines ++ [cut]))
    end
  else Some (join [LF] (take 3 lines)).

(** ** Documents: nodes and edges *)

Inductive shape : Type := Dot | Box.

Inductive multi : Type := MultiOff | MultiHtml.

Record font : Type := Font {
  font_size : option nat;
  font_face : option jsstring;
  font_bold : option bool;
  font_multi : option multi
}.

(** A node of the graph.  A field that a node may lack is an [option],
    [None] standing for [undefined]. *)
Record node : Type := Node {
  n_id : jsstring;
  n_label : jsstring;
  n_title : option jsstring;
  n_originalText : option jsstring;
  n_level : nat;
  n_color : option jsstring;
  n_font : option font;
  n_shape : shape;
  n_size : option nat;
  n_margin : option nat;
  n_borderWidth : option nat;
  n_widthConstraint : option nat
}.

Record edge : Type := Edge {
  e_from : jsstring;
  e_to : jsstring;
  e_width : nat;
  e_color : option jsstring
}.

Definition ROOT : jsstring := str "root".

Definition eqs (a b : jsstring) : bool := bool_decide (a = b).

(** [`task_${n}`] *)
Definition task_id (n : N) : jsstring := str "task_" ++ str (pretty n).

(** [a || b] on strings that may be undefined. *)
Definition or_else (a : option jsstring) (b : jsstring) : jsstring :=
  match a with
  | Some x => if truthy x then x else b
  | None => b
  end.

(** ** The data sets of vis.js

    [vis.DataSet] is a library outside the repository.  The operations the
    sources call are modelled on a list of items in insertion order, as the
    library documents them: [get(id)] returns the item or null, [get()]
    all items, [get({filter})] the items that pass; [add] throws when the
    id is taken; [update] merges fields into the item with that id;
    [remove(ids)] deletes the items with these ids and nothing else.  A
    data set of nodes and a data set of edges are independent: removing a
    node leaves the edges where they are. *)
Module DataSet.
Section Items.
Context {A : Type} (key : A -> jsstring).

Definition get (ds : list A) (k : jsstring) : option A :=
  List.find (fun x => eqs (key x) k) ds.

Definition get_filter (f : A -> bool) (ds : list A) : list A :=
  List.filter f ds.

(** [None]: the exception of [add] on an id that is taken. *)
Definition add (x : A) (ds : list A) : option (list A) :=
  match get ds (key x) with
  | Some _ => None
  | None => Some (ds ++ [x])
  end.

Definition update (k : jsstring) (f : A -> A) (ds : list A) : list A :=
  map (fun x => if eqs (key x) k then f x else x) ds.

Definition remove (ks : list jsstring) (ds : list A) : list A :=
  List.filter (fun x => negb (existsb (eqs (key x)) ks)) ds.
End Items.
End DataSet.

(** ** Tree to graph, continued: [buildNetworkData] *)

(** The font controls of the page, read by [getFontSettings]. *)
Record fontSettings : Type := FontSettings {
  fs_family : jsstring;
  fs_size : nat;
  fs_bold : bool;
  fs_italic : bool
}.

Record bstate : Type := BState {
  b_nodeId : N;
  b_nodes : list node;
  b_edges : list edge
}.

(** [GROUP_COLORS[group]] *)
Definition group_color (group : jsstring) : option jsstring :=
  snd <$> List.find (fun gc => eqs (fst gc) group) GROUP_COLORS.

(** The label of a node before the italic markup. *)
Definition displayLabel (text : jsstring) (hasChildren : bool) : option jsstring :=
  if hasChildren then
    Some (if 40 <? length text then substring 0 37 text ++ str "..." else text)
  else leafLabel text.

Definition rootNode (family : jsstring) : node :=
  {| n_id := ROOT;
     n_label := str "Mind Map";
     n_title := Some (str "Mind Map");
     n_originalText := Some (str "Mind Map");
     n_level := 0;
     n_color := Some (str "#F59E0B");
     n_font := Some {| font_size := Some 28; font_face := Some family;
                       font_bold := Some true; font_multi := None |};
     n_shape := Dot;
     n_size := Some 40;
     n_margin := None;
     n_borderWidth := None;
     n_widthConstraint := None |}.

Definition nodeConfig (fs : fontSettings) (taskId text lbl : jsstring) (lvl : nat)
  (group : jsstring) (hasChildren : bool) : node :=
  {| n_id := taskId;
     n_label := if fs_italic fs && negb hasChildren
                then str "<i>" ++ lbl ++ str "</i>" else lbl;
     n_title := Some text;
     n_originalText := Some text;
     n_level := lvl;
     n_color := Some (or_else (group_color group)
                        (default [] (group_color (str "Other"))));
     n_font := Some {| font_size := Some (if hasChildren then fs_size fs + 4 else fs_size fs);
                       font_face := Some (fs_family fs);
                       font_bold := Some (hasChildren || fs_bold fs);
                       font_multi := Some (if hasChildren then MultiOff else MultiHtml) |};
     n_shape := if hasChildren then Dot else Box;
     n_size := if hasChildren then Some 28 else None;
     n_margin := if hasChildren then None else Some 10;
     n_borderWidth := Some 2;
     n_widthConstraint := if hasChildren then None else Some 200 |}.

(** [processTask]: one node and one edge for the task, then its children
    in order.  [None] is the exception of [leafLabel]. *)
Fixpoint processTask (autoGroup : bool) (fs : fontSettings) (t : task)
  (parentId : jsstring) (lvl : nat) (parentGroup : option jsstring)
  (st : bstate) : option bstate :=
  let 'Task text _ children := t in
  let taskId := task_id (b_nodeId st) in
  let group := if autoGroup then detectKeyword text
               else or_else parentGroup (str "Other") in
  let hasChildren := match children with [] => false | _ => true end in
  lbl ← displayLabel text hasChildren;
  let st1 :=
    {| b_nodeId := (b_nodeId st + 1)%N;
       b_nodes := b_nodes st ++ [nodeConfig fs taskId text lbl lvl group hasChildren];
       b_edges := b_edges st ++
         [ {| e_from := parentId; e_to := taskId;
              e_width := if lvl =? 1 then 3 else 2;
              e_color := Some (str (if hasChildren then "#666" else "#999")) |} ] |} in
  (fix each (cs : list task) (st : bstate) : option bstate :=
     match cs with
     | [] => Some st
     | c :: cs' =>
         st' ← processTask autoGroup fs c taskId (lvl + 1) (Some group) st;
         each cs' st'
     end) children st1.

Fixpoint processTasks (autoGroup : bool) (fs : fontSettings) (ts : list task)
  (parentId : jsstring) (lvl : nat) (parentGroup : option jsstring)
  (st : bstate) : option bstate :=
  match ts with
  | [] => Some st
  | t :: ts' =>
      st' ← processTask autoGroup fs t parentId lvl parentGroup st;
      processTasks autoGroup fs ts' parentId lvl parentGroup st'
  end.

Definition buildNetworkData (autoGroup : bool) (fs : fontSettings)
  (hierarchy : list task) : option (list node * list edge) :=
  st ← processTasks autoGroup fs hierarchy ROOT 1 None
         {| b_nodeId := 0; b_nodes := [rootNode (fs_family fs)]; b_edges := [] |};
  Some (b_nodes st, b_edges st).

(** ** Node maps

    [buildHierarchyFromNetwork] and the exporters index the nodes by id in
    an object or a [Map] and give every entry a [children] array, to which
    the loop over the edges pushes the entry of the child.  The entries are
    shared objects; an entry is identified by its key, so a [children]
    array is modelled as the list of the keys of its elements.  The map is
    a [gmap]: it holds the ids of the nodes and nothing else.  The object
    of [buildHierarchyFromNetwork] also answers the names that it inherits
    ([toString], [constructor], ...), so an edge to or from an id of such a
    name, which no function of the sources mints, is outside this model. *)
Section NodeMap.
Context {A : Type}.

Definition index_nodes (mk : node -> A) (ns : list node)
  : gmap jsstring (A * list jsstring) :=
  fold_left (fun m n => <[n_id n := (mk n, [])]> m) ns ∅.

(** [if (parent && child && guard) parent.children.push(child)] *)
Definition push_child (guard : jsstring -> bool)
  (m : gmap jsstring (A * list jsstring)) (e : edge)
  : gmap jsstring (A * list jsstring) :=
  match m !! e_from e, m !! e_to e with
  | Some (a, ch), Some _ =>
      if guard (e_to e) then <[e_from e := (a, ch ++ [e_to e])]> m else m
  | _, _ => m
  end.

Definition link_children (guard : jsstring -> bool)
  (m : gmap jsstring (A * list jsstring)) (es : list edge)
  : gmap jsstring (A * list jsstring) :=
  fold_left (push_child guard) es m.
End NodeMap.

(** ** Graph to tree: [buildHierarchyFromNetwork] and [hierarchyToText] *)

(** [label.replace(/\n/g, ' ')] *)
Definition flatten_label (lbl : jsstring) : jsstring :=
  map (fun c => if Ascii.eqb c LF then SP else c) lbl.

(** [node.originalText || node.title || node.label.replace(/\n/g, ' ')] *)
Definition node_text (n : node) : jsstring :=
  or_else (n_originalText n) (or_else (n_title n) (flatten_label (n_label n))).

(** The entry of a node: its text and its level. *)
Definition hentry (n : node) : jsstring * nat := (node_text n, n_level n).

(** [a.localeCompare(b)] as the order of the code units, first difference
    first and a proper prefix before the longer string; on the ids that the
    sources mint ("root", and "task_" with decimal digits) this is how the
    collation of the platform orders them.  On other ids (letters of both
    cases, punctuation) the collation has another order, which is outside
    this model. *)
Fixpoint localeCompare (a b : jsstring) : Z :=
  match a, b with
  | [], [] => 0
  | [], _ :: _ => -1
  | _ :: _, [] => 1
  | x :: a', y :: b' =>
      match Nat.compare (nat_of_ascii x) (nat_of_ascii y) with
      | Lt => -1
      | Gt => 1
      | Eq => localeCompare a' b'
      end
  end.

(** [Array.prototype.sort(cmp)], which is stable: an element goes before
    the elements that follow it unless [cmp] is positive. *)
Fixpoint sort_insert {X} (cmp : X -> X -> Z) (x : X) (l : list X) : list X :=
  match l with
  | [] => [x]
  | y :: l' => if (cmp x y <=? 0)%Z then x :: l else y :: sort_insert cmp x l'
  end.

Definition sort_by {X} (cmp : X -> X -> Z) (l : list X) : list X :=
  foldr (sort_insert cmp) [] l.

(** The comparison of two children: by level, then by id. *)
Definition child_compare (m : gmap jsstring ((jsstring * nat) * list jsstring))
  (a b : jsstring) : Z :=
  let level_of k := match m !! k with Some ((_, l), _) => l | None => 0 end in
  if level_of a =? level_of b then localeCompare a b
  else (Z.of_nat (level_of a) - Z.of_nat (level_of b))%Z.

Definition buildHierarchyFromNetwork (ns : list node) (es : list edge)
  : gmap jsstring ((jsstring * nat) * list jsstring) * list jsstring :=
  let nodeMap := index_nodes hentry ns in
  let linked := link_children (fun c => negb (eqs c ROOT)) nodeMap es in
  let sorted :=
    (fun entry : (jsstring * nat) * list jsstring =>
       match snd entry with
       | [] => entry
       | _ :: _ => (fst entry, sort_by (child_compare linked) (snd entry))
       end) <$> linked in
  (sorted, match sorted !! ROOT with Some (_, ch) => ch | None => [] end).

(** [hierarchyToText]; [fuel] bounds the depth of the recursion, which does
    not end on a cycle of edges. *)
Fixpoint hierarchyToText (fuel : nat)
  (m : gmap jsstring ((jsstring * nat) * list jsstring))
  (hierarchy : list jsstring) (indent : nat) : option jsstring :=
  match fuel with
  | 0 => None
  | S fuel' =>
      foldr (fun k acc =>
               entry ← m !! k;
               below ← match snd entry with
                       | [] => Some []
                       | _ :: _ => hierarchyToText fuel' m (snd entry) (S indent)
                       end;
               rest ← acc;
               Some (repeat_str (str "  ") indent ++ fst (fst entry) ++ [LF]
                     ++ below ++ rest))
            (Some []) hierarchy
  end.

(** The text of the outline rebuilt from a graph.  The nesting of a graph
    without a cycle is less deep than it has nodes. *)
Definition reconstruct (ns : list node) (es : list edge) : option jsstring :=
  let '(m, hierarchy) := buildHierarchyFromNetwork ns es in
  hierarchyToText (S (length ns)) m hierarchy 0.

(** ** Structural editor (keyboard controller) *)

(** The part of the controller that the operations read and write: the
    two data sets of [networkData] and the selection.  A result [None] is
    an exception that leaves the operation. *)
Record kstate : Type := KState {
  nodes : list node;
  edges : list edge;
  selectedNodeId : option jsstring
}.

(** [!this.selectedNodeId || this.selectedNodeId === 'root'] *)
Definition no_target (sel : option jsstring) : bool :=
  match sel with
  | None => true
  | Some s => negb (truthy s) || eqs s ROOT
  end.

Definition new_task (newNodeId : jsstring) (lvl : nat) (selectedNode : node) : node :=
  {| n_id := newNodeId;
     n_label := str "New Task";
     n_title := None;
     n_originalText := None;
     n_level := lvl;
     n_color := Some (or_else (n_color selectedNode) (str "#adb5bd"));
     n_font := None;
     n_shape := Box;
     n_size := None;
     n_margin := Some 10;
     n_borderWidth := Some 2;
     n_widthConstraint := None |}.

(** [{ ...f, bold: b, size: s }] *)
Definition font_with (f : option font) (b : bool) (s : nat) : font :=
  {| font_size := Some s;
     font_face := f ≫= font_face;
     font_bold := Some b;
     font_multi := f ≫= font_multi |}.

(** The update that turns a box into a dot. *)
Definition to_container (selectedNode n : node) : node :=
  {| n_id := n_id n; n_label := n_label n; n_title := n_title n;
     n_originalText := n_originalText n; n_level := n_level n;
     n_color := n_color n;
     n_font := Some (font_with (n_font selectedNode) true 20);
     n_shape := Dot;
     n_size := Some 28;
     n_margin := None;
     n_borderWidth := n_borderWidth n;
     n_widthConstraint := n_widthConstraint n |}.

(** The update that turns a dot back into a box. *)
Definition to_leaf (parentNode n : node) : node :=
  {| n_id := n_id n; n_label := n_label n; n_title := n_title n;
     n_originalText := n_originalText n; n_level := n_level n;
     n_color := n_color n;
     n_font := Some (font_with (n_font parentNode) false 16);
     n_shape := Box;
     n_size := None;
     n_margin := Some 10;
     n_borderWidth := n_borderWidth n;
     n_widthConstraint := n_widthConstraint n |}.

(** [addChildNode]; [now] is the value of [Date.now()]. *)
Definition addChildNode (now : N) (st : kstate) : option kstate :=
  if no_target (selectedNodeId st) then Some st
  else
    let sel := default [] (selectedNodeId st) in
    let newNodeId := task_id now in
    match DataSet.get n_id (nodes st) sel with
    | None => Some st
    | Some selectedNode =>
        let newNode := new_task newNodeId (n_level selectedNode + 1) selectedNode in
        nodes1 ← DataSet.add n_id newNode (nodes st);
        let edges1 :=
          edges st ++ [ {| e_from := sel; e_to := newNodeId; e_width := 2; e_color := None |} ] in
        let nodes2 :=
          match n_shape selectedNode with
          | Box => DataSet.update n_id sel (to_container selectedNode) nodes1
          | Dot => nodes1
          end in
        Some {| nodes := nodes2; edges := edges1; selectedNodeId := Some newNodeId |}
    end.

(** [addSiblingNode] *)
Definition addSiblingNode (now : N) (st : kstate) : option kstate :=
  if no_target (selectedNodeId st) then Some st
  else
    let sel := default [] (selectedNodeId st) in
    match DataSet.get_filter (fun e => eqs (e_to e) sel) (edges st) with
    | [] => Some st
    | parentEdge :: _ =>
        let parentId := e_from parentEdge in
        selectedNode ← DataSet.get n_id (nodes st) sel;
        let newNodeId := task_id now in
        let newNode := new_task newNodeId (n_level selectedNode) selectedNode in
        nodes1 ← DataSet.add n_id newNode (nodes st);
        let edges1 :=
          edges st ++
          [ {| e_from := parentId; e_to := newNodeId;
               e_width := if n_level selectedNode =? 1 then 3 else 2;
               e_color := None |} ] in
        Some {| nodes := nodes1; edges := edges1; selectedNodeId := Some newNodeId |}
    end.

(** [getAllDescendants].  The recursion of the source has no bound and does
    not return on a cycle of edges; [fuel] bounds its depth and [None] is a
    recursion that did not end within it. *)
Fixpoint getAllDescendants (fuel : nat) (es : list edge) (nodeId : jsstring)
  : option (list jsstring) :=
  match fuel with
  | 0 => None
  | S fuel' =>
      let children := DataSet.get_filter (fun e => eqs (e_from e) nodeId) es in
      foldr (fun e acc =>
               below ← getAllDescendants fuel' es (e_to e);
               rest ← acc;
               Some (e_to e :: below ++ rest))
            (Some []) children
  end.

(** [deleteNode].  A path without a repeated edge has at most
    [length (edges st)] edges, so the depth given to [getAllDescendants] is
    enough whenever the recursion ends at all. *)
Definition deleteNode (st : kstate) : option kstate :=
  if no_target (selectedNodeId st) then Some st
  else
    let sel := default [] (selectedNodeId st) in
    below ← getAllDescendants (S (length (edges st))) (edges st) sel;
    let nodesToDelete := below ++ [sel] in
    let parentEdge := head (DataSet.get_filter (fun e => eqs (e_to e) sel) (edges st)) in
    let nodes1 := DataSet.remove n_id nodesToDelete (nodes st) in
    nodes2 ←
      match parentEdge with
      | Some pe =>
          let parentId := e_from pe in
          let parentChildren :=
            DataSet.get_filter (fun e => eqs (e_from e) parentId) (edges st) in
          if (length parentChildren =? 0) && negb (eqs parentId ROOT) then
            parentNode ← DataSet.get n_id nodes1 parentId;
            Some (DataSet.update n_id parentId (to_leaf parentNode) nodes1)
          else Some nodes1
      | None => Some nodes1
      end;
    Some {| nodes := nodes2; edges := edges st; selectedNodeId := None |}.

(** ** Codec layer ([import-export.js]) *)

(** JSON data: the values that [JSON.stringify] writes and [JSON.parse]
    reads.  An object is the list of its properties in order; a property
    whose value is [undefined] is not written and is modelled as absent.
    A number is an integer.  [js_value] below says which of these data are
    values of JavaScript: no key twice in an object, the keys in the order
    of own property keys, the numbers held exactly by a Number. *)
#[local] Unset Elimination Schemes.
Inductive json : Type :=
| JNull
| JBool (b : bool)
| JNum (n : Z)
| JStr (s : jsstring)
| JArr (items : list json)
| JObj (fields : list (jsstring * json)).
#[local] Set Elimination Schemes.

(** What an import returns: node and edge collections and a metadata
    bag. *)
Record document : Type := Document {
  d_nodes : list node;
  d_edges : list edge;
  d_metadata : list (jsstring * json)
}.

(** *** Plain text *)

(** [buildOutline]; [fuel] bounds the depth of the recursion. *)
Fixpoint buildOutline (fuel : nat) (m : gmap jsstring (node * list jsstring))
  (k : jsstring) (lvl : nat) : option jsstring :=
  match fuel with
  | 0 => None
  | S fuel' =>
      entry ← m !! k;
      let each l :=
        foldr (fun c acc =>
                 out ← buildOutline fuel' m c l;
                 rest ← acc;
                 Some (out ++ rest))
              (Some []) (snd entry) in
      if eqs (n_id (fst entry)) ROOT then each 0
      else
        below ← each (S lvl);
        Some (repeat_str (str "  ") lvl ++ n_label (fst entry) ++ [LF] ++ below)
  end.

Definition export_header : jsstring := str "# Mind Map Export" ++ [LF; LF].

(** [exportToPlainText].  [None] is a recursion that does not end, on a
    cycle of edges; without a cycle the nesting is less deep than the
    number of edges plus two. *)
Definition exportToPlainText (ns : list node) (es : list edge) : option jsstring :=
  let nodeMap := link_children (fun _ => true) (index_nodes (fun n => n) ns) es in
  match nodeMap !! ROOT with
  | None => Some (export_header ++ str "(No data)")
  | Some _ =>
      out ← buildOutline (S (S (length es))) nodeMap ROOT 0;
      Some (export_header ++ out)
  end.

(** The lines that [importFromText] keeps. *)
Definition import_line (line : jsstring) : bool :=
  let trimmed := trim line in
  truthy trimmed && negb (startsWith (str "#") trimmed).

Record istate : Type := IState {
  i_nodeId : N;
  i_nodes : list node;
  i_edges : list edge;
  i_stack : list (jsstring * nat)
}.

(** The stack above its sentinel [{ id: 'root', level: -1 }], top first. *)
Fixpoint pop_entries (lvl : nat) (stack : list (jsstring * nat))
  : list (jsstring * nat) :=
  match stack with
  | top :: rest => if lvl <=? snd top then pop_entries lvl rest else stack
  | [] => []
  end.

Definition imported_node (i lbl : jsstring) (lvl : nat) : node :=
  {| n_id := i; n_label := lbl; n_title := None; n_originalText := None;
     n_level := lvl; n_color := None; n_font := None; n_shape := Box;
     n_size := None; n_margin := Some 10; n_borderWidth := Some 2;
     n_widthConstraint := None |}.

Definition imported_root (lbl : jsstring) : node :=
  {| n_id := ROOT; n_label := lbl; n_title := None; n_originalText := None;
     n_level := 0; n_color := Some (str "#F59E0B");
     n_font := Some {| font_size := Some 28; font_face := Some (str "Inter");
                       font_bold := Some true; font_multi := None |};
     n_shape := Dot; n_size := Some 40; n_margin := None;
     n_borderWidth := None; n_widthConstraint := None |}.

Definition import_text_line (st : istate) (line : jsstring) : istate :=
  let lvl := length (expand_tabs 2 (take_ws line)) / 2 in
  let text := trim line in
  if negb (truthy text) then st
  else
    let i := task_id (i_nodeId st) in
    let stack := pop_entries lvl (i_stack st) in
    let parent := match stack with (p, _) :: _ => p | [] => ROOT end in
    {| i_nodeId := (i_nodeId st + 1)%N;
       i_nodes := i_nodes st ++ [imported_node i text (lvl + 1)];
       i_edges := i_edges st ++
         [ {| e_from := parent; e_to := i;
              e_width := if lvl =? 0 then 3 else 2; e_color := None |} ];
       i_stack := (i, lvl) :: stack |}.

(** [importFromText]; [None] is [null]. *)
Definition importFromText (text : jsstring) : option document :=
  let lines := List.filter import_line (split_lines text) in
  match lines with
  | [] => None
  | _ :: _ =>
      let st := fold_left import_text_line lines
                  {| i_nodeId := 0; i_nodes := [imported_root (str "Mind Map")];
                     i_edges := []; i_stack := [] |} in
      Some {| d_nodes := i_nodes st; d_edges := i_edges st; d_metadata := [] |}
  end.

(** *** FreeMind XML *)

(** The elements of a parsed XML document. *)
#[local] Unset Elimination Schemes.
Inductive xml : Type :=
  Elem (tag : jsstring) (attrs : list (jsstring * jsstring)) (kids : list xml).
#[local] Set Elimination Schemes.

Definition xml_tag (x : xml) : jsstring := let 'Elem t _ _ := x in t.
Definition xml_attrs (x : xml) : list (jsstring * jsstring) := let 'Elem _ a _ := x in a.
Definition xml_kids (x : xml) : list xml := let 'Elem _ _ k := x in k.

(** [querySelector(name)]: is there an element with this name? *)
Fixpoint has_element (name : jsstring) (x : xml) : bool :=
  let 'Elem t _ kids := x in
  eqs t name || existsb (has_element name) kids.

(** [querySelector('map > node')]: the first element, in document order,
    named [node] whose parent is named [map]. *)
Fixpoint select_map_node (parent_is_map : bool) (x : xml) : option xml :=
  let 'Elem t _ kids := x in
  if parent_is_map && eqs t (str "node") then Some x
  else
    (fix first (ks : list xml) : option xml :=
       match ks with
       | [] => None
       | k :: ks' =>
           match select_map_node (eqs t (str "map")) k with
           | Some r => Some r
           | None => first ks'
           end
       end) kids.

(** [getAttribute(name)] *)
Definition getAttribute (name : jsstring) (x : xml) : option jsstring :=
  snd <$> List.find (fun a => eqs (fst a) name) (xml_attrs x).

(** [parseNode] of [importFromFreeMind]. *)
Fixpoint parseNode (x : xml) (parentId : jsstring) (lvl : nat) (st : bstate)
  : bstate :=
  let 'Elem _ _ kids := x in
  let text := or_else (getAttribute (str "TEXT") x) (str "Node") in
  let i := if lvl =? 0 then ROOT else task_id (b_nodeId st) in
  let st1 :=
    if lvl =? 0 then
      {| b_nodeId := b_nodeId st;
         b_nodes := b_nodes st ++ [imported_root text];
         b_edges := b_edges st |}
    else
      {| b_nodeId := (b_nodeId st + 1)%N;
         b_nodes := b_nodes st ++ [imported_node i text lvl];
         b_edges := b_edges st ++
           [ {| e_from := parentId; e_to := i;
                e_width := if lvl =? 1 then 3 else 2; e_color := None |} ] |} in
  fold_left (fun acc child =>
               if eqs (xml_tag child) (str "node")
               then parseNode child i (lvl + 1) acc else acc)
            kids st1.

(** How a call ends: with a value, or with an exception that leaves it. *)
Inductive outcome (A : Type) : Type :=
| Returned (a : A)
| Thrown.
Arguments Returned {A} a.
Arguments Thrown {A}.

(** The body of the [try] block of [importFromFreeMind], on the document
    that the XML parser built. *)
Definition importFromFreeMind_body (xmlDoc : xml) : outcome document :=
  if has_element (str "parsererror") xmlDoc then Thrown
  else
    let st0 := {| b_nodeId := 0; b_nodes := []; b_edges := [] |} in
    let st :=
      match select_map_node false xmlDoc with
      | Some rootNode => parseNode rootNode [] 0 st0
      | None => st0
      end in
    Returned {| d_nodes := b_nodes st; d_edges := b_edges st; d_metadata := [] |}.

(** [importFromFreeMind]: [parseFromString] is the XML parser of the
    browser, which answers a text that is not well-formed with a document
    holding a [parsererror] element.  The [catch] turns an exception of the
    body into [null]. *)
Definition importFromFreeMind (parseFromString : jsstring -> xml)
  (xmlString : jsstring) : outcome (option document) :=
  match importFromFreeMind_body (parseFromString xmlString) with
  | Returned d => Returned (Some d)
  | Thrown => Returned None
  end.

(** *** JSON *)

(** [data.nodes.get ? data.nodes.get() : data.nodes]: a collection is a
    data set or a plain array; either way its items are read. *)
Inductive collection : Type :=
| OfDataSet (items : list json)
| OfArray (items : list json).

Definition items_of (c : collection) : list json :=
  match c with OfDataSet l => l | OfArray l => l end.

Record export_input : Type := ExportInput {
  x_nodes : collection;
  x_edges : collection;
  x_metadata : option json
}.

(** Truthiness of JSON data. *)
Definition json_truthy (v : json) : bool :=
  match v with
  | JNull => false
  | JBool b => b
  | JNum n => negb (n =? 0)%Z
  | JStr s => truthy s
  | JArr _ | JObj _ => true
  end.

(** [data.metadata || {}] *)
Definition metadata_or_empty (v : option json) : json :=
  match v with
  | Some m => if json_truthy m then m else JObj []
  | None => JObj []
  end.

(** The object that [exportToJSON] serializes; [created] is the time
    stamp. *)
Definition exportData (created : jsstring) (data : export_input) : json :=
  JObj [ (str "version", JStr (str "1.0"));
         (str "format", JStr (str "mindmap-json"));
         (str "created", JStr created);
         (str "nodes", JArr (items_of (x_nodes data)));
         (str "edges", JArr (items_of (x_edges data)));
         (str "metadata", metadata_or_empty (x_metadata data)) ].

(** [v[name]] on parsed data; reading a property of [null] throws. *)
Definition get_property (name : jsstring) (v : json) : outcome (option json) :=
  match v with
  | JNull => Thrown
  | JObj fields => Returned (snd <$> List.find (fun f => eqs (fst f) name) fields)
  | _ => Returned None
  end.

Record imported : Type := Imported {
  m_nodes : json;
  m_edges : json;
  m_metadata : json
}.

Section Json.
(** [JSON.stringify(v, null, 2)] and [JSON.parse], functions of the
    platform; [None] is the [SyntaxError] of [JSON.parse]. *)
Variable JSON_stringify : json -> jsstring.
Variable JSON_parse : jsstring -> option json.

Definition exportToJSON (created : jsstring) (data : export_input) : jsstring :=
  JSON_stringify (exportData created data).

(** The body of the [try] block of [importFromJSON]. *)
Definition importFromJSON_body (jsonString : jsstring) : outcome imported :=
  match JSON_parse jsonString with
  | None => Thrown
  | Some data =>
      match get_property (str "nodes") data, get_property (str "edges") data with
      | Returned ns, Returned es =>
          if negb (from_option json_truthy false ns)
             || negb (from_option json_truthy false es)
          then Thrown
          else
            match get_property (str "metadata") data with
            | Returned md =>
                Returned {| m_nodes := default JNull ns;
                            m_edges := default JNull es;
                            m_metadata := metadata_or_empty md |}
            | Thrown => Thrown
            end
      | _, _ => Thrown
      end
  end.

(** [importFromJSON]; [None] is [null]. *)
Definition importFromJSON (jsonString : jsstring) : option imported :=
  match importFromJSON_body jsonString with
  | Returned r => Some r
  | Thrown => None
  end.
End Json.

(** *** [JSON.stringify] and [JSON.parse]

    The two functions of the platform, as ECMA-262 defines them, on the
    data of [json]: strings of code units below 256 and numbers that are
    integers. *)
Module JSON.

Definition QUOTE : ascii := "034"%char.
Definition BSLASH : ascii := "\"%char.
Definition BS : ascii := "008"%char.
Definition FF : ascii := "012"%char.

(** The white space of the JSON grammar: TAB, LF, CR and SPACE. *)
Definition is_json_ws (c : ascii) : bool :=
  Ascii.eqb c TAB || Ascii.eqb c LF || Ascii.eqb c CR || Ascii.eqb c SP.

Fixpoint skip_ws (s : jsstring) : jsstring :=
  match s with
  | c :: s' => if is_json_ws c then skip_ws s' else s
  | [] => []
  end.

(** **** Own property keys *)

Definition digit_of (c : ascii) : option N :=
  let n := N_of_ascii c in
  if (48 <=? n)%N && (n <=? 57)%N then Some (n - 48)%N else None.

(** The digits that a text starts with, and the text after them. *)
Fixpoint read_digits (s : jsstring) : list N * jsstring :=
  match s with
  | c :: s' =>
      match digit_of c with
      | Some d => let '(ds, rest) := read_digits s' in (d :: ds, rest)
      | None => ([], s)
      end
  | [] => ([], [])
  end.

(** The number that decimal digits denote. *)
Definition digits_value (ds : list N) : N :=
  fold_left (fun acc d => 10 * acc + d)%N ds 0%N.

(** No zero before another digit. *)
Definition canonical_digits (ds : list N) : bool :=
  match ds with
  | [] => false
  | [_] => true
  | d :: _ => negb (d =? 0)%N
  end.

(** A key that is an array index: the canonical decimal text of an
    integer from 0 to 2^32 - 2. *)
Definition array_index (k : jsstring) : option N :=
  match read_digits k with
  | (ds, []) =>
      if canonical_digits ds && (digits_value ds <=? 4294967294)%N
      then Some (digits_value ds) else None
  | _ => None
  end.

(** The order of the own property keys of an object: array indices in
    ascending order first, then the other keys in the order in which they
    were created.  [key_before k k'] says that a new key [k] is listed
    before a key [k'] that the object has. *)
Definition key_before (k k' : jsstring) : bool :=
  match array_index k, array_index k' with
  | Some i, Some j => (i <? j)%N
  | Some _, None => true
  | None, _ => false
  end.

(** [CreateDataProperty(object, k, v)] on the list of the properties of an
    object: the value of a key that the object has is replaced, a new key
    is put in its place in the order of the keys. *)
Fixpoint define_property (k : jsstring) (v : json) (fields : list (jsstring * json))
  : list (jsstring * json) :=
  match fields with
  | [] => [(k, v)]
  | (k', v') :: rest =>
      if eqs k' k then (k', v) :: rest
      else if key_before k k' then (k, v) :: fields
      else (k', v') :: define_property k v rest
  end.

(** **** [JSON.stringify(value, null, 2)] *)

Definition hex_digit (n : nat) : ascii := nth n (str "0123456789abcdef") "0"%char.

(** [UnicodeEscape]: a backslash, [u] and four hexadecimal digits in
    lower case. *)
Definition UnicodeEscape (c : ascii) : jsstring :=
  let n := nat_of_ascii c in
  [BSLASH; "u"%char; "0"%char; "0"%char; hex_digit (n / 16); hex_digit (n mod 16)].

Definition quote_char (c : ascii) : jsstring :=
  if Ascii.eqb c BS then [BSLASH; "b"%char]
  else if Ascii.eqb c TAB then [BSLASH; "t"%char]
  else if Ascii.eqb c LF then [BSLASH; "n"%char]
  else if Ascii.eqb c FF then [BSLASH; "f"%char]
  else if Ascii.eqb c CR then [BSLASH; "r"%char]
  else if Ascii.eqb c QUOTE then [BSLASH; QUOTE]
  else if Ascii.eqb c BSLASH then [BSLASH; BSLASH]
  else if nat_of_ascii c <? 32 then UnicodeEscape c
  else [c].

(** [QuoteJSONString] *)
Definition QuoteJSONString (s : jsstring) : jsstring :=
  [QUOTE] ++ flat_map quote_char s ++ [QUOTE].

(** [SerializeJSONProperty] with a gap of two spaces; [indent] is the
    number of spaces of the current indentation.  A number is written by
    [Number::toString], in decimal digits for an integer below 10^21. *)
Fixpoint SerializeJSONProperty (indent : nat) (v : json) : jsstring :=
  match v with
  | JNull => str "null"
  | JBool b => if b then str "true" else str "false"
  | JNum n => str (pretty n)
  | JStr s => QuoteJSONString s
  | JArr items =>
      let stepback := repeat SP indent in
      let inner := repeat SP (indent + 2) in
      match items with
      | [] => str "[]"
      | _ :: _ =>
          str "[" ++ [LF] ++ inner
          ++ join (str "," ++ [LF] ++ inner)
               (map (SerializeJSONProperty (indent + 2)) items)
          ++ [LF] ++ stepback ++ str "]"
      end
  | JObj fields =>
      let stepback := repeat SP indent in
      let inner := repeat SP (indent + 2) in
      match fields with
      | [] => str "{}"
      | _ :: _ =>
          str "{" ++ [LF] ++ inner
          ++ join (str "," ++ [LF] ++ inner)
               (map (fun f => QuoteJSONString (fst f) ++ str ": "
                              ++ SerializeJSONProperty (indent + 2) (snd f))
                    fields)
          ++ [LF] ++ stepback ++ str "}"
      end
  end.

Definition stringify (v : json) : jsstring := SerializeJSONProperty 0 v.

(** **** [JSON.parse(text)] *)

Definition hex_value (c : ascii) : option nat :=
  let n := nat_of_ascii c in
  if (48 <=? n) && (n <=? 57) then Some (n - 48)
  else if (97 <=? n) && (n <=? 102) then Some (n - 87)
  else if (65 <=? n) && (n <=? 70) then Some (n - 55)
  else None.

(** The character that a backslash and [e] stand for. *)
Definition escaped_char (e : ascii) : option ascii :=
  if Ascii.eqb e QUOTE then Some QUOTE
  else if Ascii.eqb e BSLASH then Some BSLASH
  else if Ascii.eqb e "/"%char then Some "/"%char
  else if Ascii.eqb e "b"%char then Some BS
  else if Ascii.eqb e "f"%char then Some FF
  else if Ascii.eqb e "n"%char then Some LF
  else if Ascii.eqb e "r"%char then Some CR
  else if Ascii.eqb e "t"%char then Some TAB
  else None.

(** The characters of a string after its opening quote, up to the
    closing quote.  A code unit from 256 on, which an escape with [u] can
    name, is no character of [jsstring]: such a text is not read. *)
Fixpoint read_string (s : jsstring) : option (jsstring * jsstring) :=
  match s with
  | [] => None
  | c :: s' =>
      if Ascii.eqb c QUOTE then Some ([], s')
      else if Ascii.eqb c BSLASH then
        match s' with
        | e :: s'' =>
            if Ascii.eqb e "u"%char then
              match s'' with
              | h1 :: h2 :: h3 :: h4 :: s3 =>
                  a ← hex_value h1; b ← hex_value h2;
                  c ← hex_value h3; d ← hex_value h4;
                  let n := ((a * 16 + b) * 16 + c) * 16 + d in
                  if n <? 256 then
                    '(r, rest) ← read_string s3; Some (ascii_of_nat n :: r, rest)
                  else None
              | _ => None
              end
            else
              d ← escaped_char e;
              '(r, rest) ← read_string s''; Some (d :: r, rest)
        | [] => None
        end
      else if nat_of_ascii c <? 32 then None
      else '(r, rest) ← read_string s'; Some (c :: r, rest)
  end.

(** A number of the JSON grammar: an optional minus sign, an integer part
    without a leading zero, an optional fraction and an optional exponent.
    The numbers of [json] are the integers that a Number holds exactly, up
    to 2^53 in absolute value: a text that denotes another number is not
    read. *)
Definition read_number (s : jsstring) : option (Z * jsstring) :=
  let '(negative, s1) :=
    match s with
    | c :: r => if Ascii.eqb c "-"%char then (true, r) else (false, s)
    | [] => (false, s)
    end in
  let '(int, s2) := read_digits s1 in
  if negb (canonical_digits int) then None
  else
    '(frac, s3) ←
      match s2 with
      | c :: r =>
          if Ascii.eqb c "."%char then
            let '(ds, r') := read_digits r in
            match ds with [] => None | _ :: _ => Some (ds, r') end
          else Some ([], s2)
      | [] => Some ([], s2)
      end;
    '(exp, s4) ←
      match s3 with
      | c :: r =>
          if Ascii.eqb c "e"%char || Ascii.eqb c "E"%char then
            let '(minus, r1) :=
              match r with
              | g :: r' =>
                  if Ascii.eqb g "-"%char then (true, r')
                  else if Ascii.eqb g "+"%char then (false, r')
                  else (false, r)
              | [] => (false, r)
              end in
            let '(ds, r2) := read_digits r1 in
            match ds with
            | [] => None
            | _ :: _ =>
                let e := Z.of_N (digits_value ds) in
                Some (if minus then (- e)%Z else e, r2)
            end
          else Some (0%Z, s3)
      | [] => Some (0%Z, s3)
      end;
    let m := Z.of_N (digits_value (int ++ frac)) in
    let scale := (exp - Z.of_nat (length frac))%Z in
    n ← (if (0 <=? scale)%Z then Some (m * 10 ^ scale)%Z
         else if (m mod 10 ^ (- scale) =? 0)%Z then Some (m / 10 ^ (- scale))%Z
         else None);
    if (n <=? 9007199254740992)%Z
    then Some (if negative then (- n)%Z else n, s4) else None.

Definition is_digit (c : ascii) : bool :=
  match digit_of c with Some _ => true | None => false end.

(** The elements of an array after the first bracket, up to the closing
    bracket; [n] bounds their number. *)
Fixpoint read_elements (n : nat) (read_value : jsstring -> option (json * jsstring))
  (s : jsstring) : option (list json * jsstring) :=
  match n with
  | 0 => None
  | S n' =>
      '(v, rest) ← read_value s;
      match skip_ws rest with
      | c :: rest' =>
          if Ascii.eqb c ","%char then
            '(vs, r) ← read_elements n' read_value rest'; Some (v :: vs, r)
          else if Ascii.eqb c "]"%char then Some ([v], rest')
          else None
      | [] => None
      end
  end.

(** The members of an object after the first brace, up to the closing
    brace. *)
Fixpoint read_members (n : nat) (read_value : jsstring -> option (json * jsstring))
  (s : jsstring) : option (list (jsstring * json) * jsstring) :=
  match n with
  | 0 => None
  | S n' =>
      match skip_ws s with
      | q :: s1 =>
          if Ascii.eqb q QUOTE then
            '(k, s2) ← read_string s1;
            match skip_ws s2 with
            | c :: s3 =>
                if Ascii.eqb c ":"%char then
                  '(v, rest) ← read_value s3;
                  match skip_ws rest with
                  | d :: rest' =>
                      if Ascii.eqb d ","%char then
                        '(ms, r) ← read_members n' read_value rest';
                        Some ((k, v) :: ms, r)
                      else if Ascii.eqb d "}"%char then Some ([(k, v)], rest')
                      else None
                  | [] => None
                  end
                else None
            | [] => None
            end
          else None
      | [] => None
      end
  end.

(** The object with the members of a text, each one defined in turn: of
    two members with one key the last gives the value. *)
Definition object_of (members : list (jsstring * json)) : json :=
  JObj (fold_left (fun o m => define_property (fst m) (snd m) o) members []).

(** A value and the text after it; [fuel] bounds the nesting and the
    number of elements of an array or object. *)
Fixpoint read_value (fuel : nat) (s : jsstring) : option (json * jsstring) :=
  match fuel with
  | 0 => None
  | S fuel' =>
      match skip_ws s with
      | [] => None
      | c :: s1 =>
          if startsWith (str "null") (c :: s1) then Some (JNull, drop 3 s1)
          else if startsWith (str "true") (c :: s1) then Some (JBool true, drop 3 s1)
          else if startsWith (str "false") (c :: s1) then Some (JBool false, drop 4 s1)
          else if Ascii.eqb c QUOTE then
            '(r, rest) ← read_string s1; Some (JStr r, rest)
          else if Ascii.eqb c "["%char then
            match skip_ws s1 with
            | d :: s2 =>
                if Ascii.eqb d "]"%char then Some (JArr [], s2)
                else
                  '(vs, rest) ← read_elements fuel' (read_value fuel') s1;
                  Some (JArr vs, rest)
            | [] => None
            end
          else if Ascii.eqb c "{"%char then
            match skip_ws s1 with
            | d :: s2 =>
                if Ascii.eqb d "}"%char then Some (JObj [], s2)
                else
                  '(ms, rest) ← read_members fuel' (read_value fuel') s1;
                  Some (object_of ms, rest)
            | [] => None
            end
          else if is_digit c || Ascii.eqb c "-"%char then
            '(n, rest) ← read_number (c :: s1); Some (JNum n, rest)
          else None
      end
  end.

(** [JSON.parse(text)]; [None] is its [SyntaxError].  A text is at least as
    long as the value it denotes is deep and as its arrays and objects
    have elements. *)
Definition parse (text : jsstring) : option json :=
  match read_value (S (length text)) text with
  | Some (v, rest) => match skip_ws rest with [] => Some v | _ :: _ => None end
  | None => None
  end.

End JSON.

(** The JSON data that are values of JavaScript: a number is an integer
    that a Number holds exactly, and the properties of an object are
    listed in the order of its own keys, none twice. *)
Fixpoint own_property_order (keys : list jsstring) : bool :=
  match keys with
  | [] => true
  | k :: ks =>
      forallb (fun k' => negb (eqs k k') && negb (JSON.key_before k' k)) ks
      && own_property_order ks
  end.

Fixpoint js_value (v : json) : bool :=
  match v with
  | JNull | JBool _ | JStr _ => true
  | JNum n => (Z.abs n <=? 9007199254740992)%Z
  | JArr items => forallb js_value items
  | JObj fields =>
      own_property_order (map fst fields)
      && forallb (fun f => js_value (snd f)) fields
  end.

(** White space of the JSON grammar only. *)
Definition json_blank (w : jsstring) : Prop := Forall (fun c => JSON.is_json_ws c = true) w.

(** A text after which a number ends: it does not go on with a digit, a
    point or an exponent. *)
Definition ends_value (rest : jsstring) : Prop :=
  match rest with
  | [] => True
  | c :: _ => c = ","%char \/ c = LF
  end.

(** The first character of a written value. *)
Definition opens_value (c : ascii) : Prop :=
  JSON.is_json_ws c = false /\ Ascii.eqb c "]"%char = false
  /\ Ascii.eqb c "}"%char = false.

(** The number of values in a value: a bound on its nesting and on the
    number of elements of its arrays and objects. *)
Fixpoint weight (v : json) : nat :=
  match v with
  | JArr items => S (list_sum (map weight items))
  | JObj fields => S (list_sum (map (fun f => weight (snd f)) fields))
  | _ => 1
  end.

(** ** Specification-level notions

    The definitions below follow the words of the specification; they are
    compared with the functions above. *)

(** [kw] occurs in [text] up to the case of letters. *)
Definition ci_substring (kw text : jsstring) : Prop :=
  exists pre mid post,
    text = pre ++ mid ++ post /\ toLowerCase mid = toLowerCase kw.

(** A category matches when one of its keywords occurs in the text. *)
Definition category_matches (keywords : list jsstring) (text : jsstring) : Prop :=
  exists kw, In kw keywords /\ ci_substring kw text.

(** The first category, in declaration order, that matches; "Other" when
    none does. *)
Inductive first_match :
  list (jsstring * list jsstring) -> jsstring -> jsstring -> Prop :=
| first_match_none text :
    first_match [] text (str "Other")
| first_match_here group keywords rest text :
    category_matches keywords text ->
    first_match ((group, keywords) :: rest) text group
| first_match_later group keywords rest text g :
    ~ category_matches keywords text ->
    first_match rest text g ->
    first_match ((group, keywords) :: rest) text g.

(** The keywords declared for a category. *)
Definition keywords_of (group : string) : list jsstring :=
  match List.find (fun gk => if decide (fst gk = str group) then true else false)
          KEYWORD_GROUPS with
  | Some (_, kws) => kws
  | None => []
  end.










(** Example documents. *)
Definition plain_node (i : string) (lbl : string) (lvl : nat) (sh : shape) : node :=
  {| n_id := str i; n_label := str lbl; n_title := None; n_originalText := None;
     n_level := lvl; n_color := None; n_font := None; n_shape := sh;
     n_size := None; n_margin := None; n_borderWidth := None;
     n_widthConstraint := None |}.

Definition plain_edge (a b : string) (w : nat) : edge :=
  {| e_from := str a; e_to := str b; e_width := w; e_color := None |}.

(** The root, a node A with two children B and C, and a grandchild G under
    B; A is selected. *)
Definition family_doc : kstate :=
  {| nodes := [ plain_node "root" "Mind Map" 0 Dot;
                plain_node "task_0" "A" 1 Dot;
                plain_node "task_1" "B" 2 Dot;
                plain_node "task_2" "G" 3 Box;
                plain_node "task_3" "C" 2 Box ];
     edges := [ plain_edge "root" "task_0" 3;
                plain_edge "task_0" "task_1" 2;
                plain_edge "task_1" "task_2" 2;
                plain_edge "task_0" "task_3" 2 ];
     selectedNodeId := Some (str "task_0") |}.

(** The root, a container A and its only child B; B is selected. *)
Definition only_child_doc : kstate :=
  {| nodes := [ plain_node "root" "Mind Map" 0 Dot;
                plain_node "task_0" "A" 1 Dot;
                plain_node "task_1" "B" 2 Box ];
     edges := [ plain_edge "root" "task_0" 3;
                plain_edge "task_0" "task_1" 2 ];
     selectedNodeId := Some (str "task_1") |}.

(** The root and one top-level node, which is selected. *)
Definition single_branch_doc : kstate :=
  {| nodes := [ plain_node "root" "Mind Map" 0 Dot;
                plain_node "task_0" "A" 1 Box ];
     edges := [ plain_edge "root" "task_0" 3 ];
     selectedNodeId := Some (str "task_0") |}.

(** The edges that touch one of the given nodes. *)
Definition incident (ids : list jsstring) (e : edge) : bool :=
  existsb (eqs (e_from e)) ids || existsb (eqs (e_to e)) ids.

(** The top-level branches: the edges that leave the root. *)
Definition top_level_edges (st : kstate) : list edge :=
  List.filter (fun e => eqs (e_from e) ROOT) (edges st).
(** Strings that [trim] leaves alone: not empty, no white space at either
    end. *)
Definition tight (s : jsstring) : Prop :=
  s <> [] /\ drop_ws s = s /\ drop_ws (rev s) = rev s.


(** Every declared keyword is in lower case. *)
Definition lowercase_keywords (groups : list (jsstring * list jsstring)) : Prop :=
  Forall (fun gk => Forall (fun kw => toLowerCase kw = kw) (snd gk)) groups.

(** A document without nodes. *)
Definition empty_document : document :=
  {| d_nodes := []; d_edges := []; d_metadata := [] |}.

(** A sample of what the application hands to [exportToJSON]. *)
Definition sample_nodes : list json :=
  [ JObj [(str "id", JStr (str "root")); (str "label", JStr (str "Mind Map"));
          (str "level", JNum 0); (str "shape", JStr (str "dot"))];
    JObj [(str "id", JStr (str "task_0"));
          (str "label",
           JStr (str "Plan the" ++ [LF] ++ str "release \ " ++ [JSON.QUOTE]
                 ++ str "v2" ++ [JSON.QUOTE]));
          (str "level", JNum 1); (str "shape", JStr (str "box"));
          (str "font", JObj [(str "size", JNum 16); (str "bold", JBool false)])] ].

Definition sample_edges : list json :=
  [ JObj [(str "from", JStr (str "root")); (str "to", JStr (str "task_0"));
          (str "width", JNum 3)] ].

Definition sample_metadata : list (jsstring * json) :=
  [ (str "layout", JStr (str "hierarchical"));
    (str "autoGroup", JBool true);
    (str "inputText", JStr (str "Plan the release")) ].

Definition sample_export : export_input :=
  {| x_nodes := OfDataSet sample_nodes;
     x_edges := OfDataSet sample_edges;
     x_metadata := Some (JObj sample_metadata) |}.


(** Outlines as trees of labels: the text values of a forest and their
    nesting, without ids and levels. *)
#[local] Unset Elimination Schemes.
Inductive rose : Type := Rose (label : jsstring) (kids : list rose).
#[local] Set Elimination Schemes.

Definition rose_label (t : rose) : jsstring := let 'Rose x _ := t in x.
Definition rose_kids (t : rose) : list rose := let 'Rose _ ks := t in ks.

(** The text values and the nesting of a task. *)
Fixpoint shape_of (t : task) : rose :=
  let 'Task x _ cs := t in Rose x (map shape_of cs).

(** An outline written with two spaces of indentation per level. *)
Fixpoint render (indent : nat) (t : rose) : jsstring :=
  let 'Rose x ks := t in
  repeat_str (str "  ") indent ++ x ++ [LF] ++ flat_map (render (S indent)) ks.

Definition render_forest (indent : nat) (F : list rose) : jsstring :=
  flat_map (render indent) F.

Fixpoint labels (t : rose) : list jsstring :=
  let 'Rose x ks := t in x :: flat_map labels ks.

(** The same text values and the same parent/child relationships, the
    order of siblings left aside. *)
#[local] Unset Elimination Schemes.
Inductive tree_sim : rose -> rose -> Prop :=
| tree_sim_node x ks ks' ks'' :
    Forall2 tree_sim ks ks' -> Permutation ks' ks'' ->
    tree_sim (Rose x ks) (Rose x ks'').
#[local] Set Elimination Schemes.

Definition forest_sim (F G : list rose) : Prop :=
  exists G', Forall2 tree_sim F G' /\ Permutation G' G.

(** A text that is one line of an outline: trimmed, not empty, without a
    line feed. *)
Definition outline_text (x : jsstring) : Prop :=
  tight x /\ ~ In LF x.

(** The number of nodes of a forest of tasks. *)
Fixpoint task_size (t : task) : nat :=
  let 'Task _ _ cs := t in S (list_sum (map task_size cs)).

(** The lines of an outline: the depth and the label of every node, in
    the order of the text. *)
Fixpoint entries (d : nat) (t : rose) : list (nat * jsstring) :=
  let 'Rose x ks := t in (d, x) :: flat_map (entries (S d)) ks.

Definition entry_line (e : nat * jsstring) : jsstring :=
  repeat_str (str "  ") (fst e) ++ snd e.

(** The task that a tree of labels is parsed to, at a given depth. *)
Fixpoint task_of (d : nat) (t : rose) : task :=
  let 'Rose x ks := t in Task x d (map (task_of (S d)) ks).

(** The step of the parser on a line whose level and trimmed text are
    known. *)
Definition parse_entry (st : parser_state) (e : nat * jsstring) : parser_state :=
  let stack := pop_while (fst e) (ps_stack st) in
  {| ps_hierarchy := push_at (length stack) (Task (snd e) (fst e) []) (ps_hierarchy st);
     ps_stack := fst e :: stack |}.

(** The stack that holds the levels below [k], the highest on top. *)
Definition stack_to (k : nat) : list nat := rev (seq 0 k).

(** The hierarchy has a right spine at least [d] deep. *)
Fixpoint spine_ok (d : nat) (H : list task) : Prop :=
  match d with
  | 0 => True
  | S d' =>
      match last H with
      | Some p => spine_ok d' (task_children p)
      | None => False
      end
  end.

(** A line that [split] gives back as it is: no line feed in it and no
    carriage return at its end. *)
Definition line_ok (l : jsstring) : Prop :=
  ~ In LF l /\ last l <> Some CR.

(** Trees of labels whose nodes carry the id that the mapper gives them. *)
#[local] Unset Elimination Schemes.
Inductive ntree : Type := NTree (id : jsstring) (text : jsstring) (kids : list ntree).
#[local] Set Elimination Schemes.

Definition nt_id (t : ntree) : jsstring := let 'NTree i _ _ := t in i.
Definition nt_text (t : ntree) : jsstring := let 'NTree _ x _ := t in x.
Definition nt_kids (t : ntree) : list ntree := let 'NTree _ _ ks := t in ks.

(** The nodes of a tree, the tree first, in the order of the outline. *)
Fixpoint subtrees (t : ntree) : list ntree :=
  t :: flat_map subtrees (nt_kids t).

Definition forest_nodes (F : list ntree) : list ntree := flat_map subtrees F.
Definition forest_ids (F : list ntree) : list jsstring := map nt_id (forest_nodes F).

Fixpoint strip (t : ntree) : rose :=
  let 'NTree _ x ks := t in Rose x (map strip ks).

(** The edges of a tree under the parent [p], parent first, depth first. *)
Fixpoint flat_links (p : jsstring) (t : ntree) : list (jsstring * jsstring) :=
  (p, nt_id t) :: flat_map (flat_links (nt_id t)) (nt_kids t).

Definition ends (e : edge) : jsstring * jsstring := (e_from e, e_to e).

Fixpoint rose_size (t : rose) : nat :=
  let 'Rose _ ks := t in S (list_sum (map rose_size ks)).

Definition forest_size (F : list rose) : nat := list_sum (map rose_size F).

(** The ids in the order in which the mapper mints them: a node takes the
    next number, then its children do, depth first. *)
Fixpoint number (n : N) (t : rose) : ntree :=
  let 'Rose x ks := t in
  NTree (task_id n) x
    ((fix each (ks : list rose) (n : N) : list ntree :=
        match ks with
        | [] => []
        | k :: ks' => number n k :: each ks' (n + N.of_nat (rose_size k))%N
        end) ks (n + 1)%N).

Fixpoint number_forest (n : N) (F : list rose) : list ntree :=
  match F with
  | [] => []
  | t :: F' => number n t :: number_forest (n + N.of_nat (rose_size t))%N F'
  end.

(** A string with a character that is not white space. *)
Definition nonblank (s : jsstring) : Prop :=
  existsb (fun c => negb (is_ws c)) s = true.

(** The id and the text of a node, as the node maps see them. *)
Definition node_view (n : node) : jsstring * jsstring := (n_id n, node_text n).
Definition node_label_view (n : node) : jsstring * jsstring := (n_id n, n_label n).
Definition tree_view (t : ntree) : jsstring * jsstring := (nt_id t, nt_text t).

(** Children sorted as [buildHierarchyFromNetwork] sorts them, at every
    node. *)
Definition sorted_kids (cmp : jsstring -> jsstring -> Z) (ks : list ntree)
  : list ntree :=
  sort_by (fun a b => cmp (nt_id a) (nt_id b)) ks.

Fixpoint sort_tree (cmp : jsstring -> jsstring -> Z) (t : ntree) : ntree :=
  let 'NTree i x ks := t in NTree i x (sorted_kids cmp (map (sort_tree cmp) ks)).

Fixpoint nt_depth (t : ntree) : nat :=
  let 'NTree _ _ ks := t in S (list_max (map nt_depth ks)).

(** The ids [task_n], [task_(n+1)], ... of [m] nodes. *)
Definition ids_from (n : N) (m : nat) : list jsstring :=
  map (fun k => task_id (n + N.of_nat k)%N) (seq 0 m).

(** The edges that the loop over the edges follows: both ends are in the
    node map and the guard lets the child pass. *)
Definition accepted {A} (guard : jsstring -> bool)
  (m : gmap jsstring (A * list jsstring)) (e : edge) : bool :=
  bool_decide (is_Some (m !! e_from e)) && bool_decide (is_Some (m !! e_to e))
  && guard (e_to e).

(** The children that the edges give to the node [k]. *)
Definition kids_in {A} (guard : jsstring -> bool)
  (m : gmap jsstring (A * list jsstring)) (es : list edge) (k : jsstring)
  : list jsstring :=
  map e_to (List.filter (fun e => eqs (e_from e) k && accepted guard m e) es).

(** The nesting of a document: the tree of labels below the root, read
    along the edges.  A document in which the root is the child of a node
    has none, and neither has one with a cycle of edges: [fuel] bounds the
    depth, and without a cycle the nesting is not deeper than the number of
    edges. *)
Fixpoint unfold_node (fuel : nat) (m : gmap jsstring (node * list jsstring))
  (k : jsstring) : option rose :=
  match fuel with
  | 0 => None
  | S fuel' =>
      if eqs k ROOT then None
      else
        entry ← m !! k;
        kids ← mapM (unfold_node fuel' m) (snd entry);
        Some (Rose (n_label (fst entry)) kids)
  end.

Definition doc_forest (ns : list node) (es : list edge) : option (list rose) :=
  let m := link_children (fun _ => true) (index_nodes (fun n => n) ns) es in
  entry ← m !! ROOT;
  mapM (unfold_node (S (length es)) m) (snd entry).






(** Every text of a task satisfies [P]. *)
Definition all_labels (P : jsstring -> Prop) (t : task) : Prop :=
  Forall P (labels (shape_of t)).

(** The id and the level of every node of a tree whose root is at level
    [lvl]. *)
Fixpoint leveled (lvl : nat) (t : ntree) : list (jsstring * nat) :=
  (nt_id t, lvl) :: flat_map (leveled (S lvl)) (nt_kids t).

Definition node_level_view (n : node) : jsstring * nat := (n_id n, n_level n).


(** ** History manager ([history-manager.js]) *)

(** A saved state: the items of the two collections and the time of the
    save. *)
Record snapshot : Type := Snapshot {
  s_nodes : list node;
  s_edges : list edge;
  s_timestamp : N
}.

(** The fields of a [HistoryManager]. *)
Record history : Type := History {
  h_maxStates : Z;
  h_states : list snapshot;
  h_currentIndex : Z;
  h_enabled : bool
}.

(** [new HistoryManager(maxStates)] *)
Definition HistoryManager (maxStates : Z) : history :=
  {| h_maxStates := maxStates; h_states := []; h_currentIndex := -1;
     h_enabled := true |}.

(** [l.slice(0, e)]: a negative end counts from the end of the array. *)
Definition slice_to {A} (e : Z) (l : list A) : list A :=
  let len := Z.of_nat (length l) in
  let k := if (e <? 0)%Z then Z.max (len + e) 0 else Z.min e len in
  take (Z.to_nat k) l.

(** [l[i]]; [None] is [undefined]. *)
Definition item_at {A} (i : Z) (l : list A) : option A :=
  if (i <? 0)%Z then None else l !! Z.to_nat i.

(** [saveState(networkData)]; [now] is the value of [Date.now()] and a
    [networkData] that is [None] is a falsy argument. *)
Definition saveState (now : N) (networkData : option (list node * list edge))
  (h : history) : history :=
  if negb (h_enabled h) then h
  else
    match networkData with
    | None => h
    | Some (ns, es) =>
        let state := {| s_nodes := ns; s_edges := es; s_timestamp := now |} in
        let states := slice_to (h_currentIndex h + 1) (h_states h) ++ [state] in
        if (h_maxStates h <? Z.of_nat (length states))%Z
        then {| h_maxStates := h_maxStates h; h_states := tail states;
                h_currentIndex := h_currentIndex h; h_enabled := h_enabled h |}
        else {| h_maxStates := h_maxStates h; h_states := states;
                h_currentIndex := (h_currentIndex h + 1)%Z;
                h_enabled := h_enabled h |}
    end.

Definition canUndo (h : history) : bool := (0 <? h_currentIndex h)%Z.

Definition canRedo (h : history) : bool :=
  (h_currentIndex h <? Z.of_nat (length (h_states h)) - 1)%Z.

(** What [undo] and [redo] return: [null], or the element of [states] at
    the new index, which is [undefined] outside the array. *)
Inductive reply : Type :=
| Null
| Undefined
| State (s : snapshot).

Definition state_at (i : Z) (l : list snapshot) : reply :=
  match item_at i l with Some s => State s | None => Undefined end.

Definition move_to (i : Z) (h : history) : history :=
  {| h_maxStates := h_maxStates h; h_states := h_states h;
     h_currentIndex := i; h_enabled := h_enabled h |}.

Definition undo (h : history) : history * reply :=
  if negb (canUndo h) then (h, Null)
  else
    let i := (h_currentIndex h - 1)%Z in
    (move_to i h, state_at i (h_states h)).

Definition redo (h : history) : history * reply :=
  if negb (canRedo h) then (h, Null)
  else
    let i := (h_currentIndex h + 1)%Z in
    (move_to i h, state_at i (h_states h)).

Definition getStateCount (h : history) : nat := length (h_states h).

Definition clear (h : history) : history :=
  {| h_maxStates := h_maxStates h; h_states := []; h_currentIndex := -1;
     h_enabled := h_enabled h |}.

Definition setEnabled (enabled : bool) (h : history) : history :=
  {| h_maxStates := h_maxStates h; h_states := h_states h;
     h_currentIndex := h_currentIndex h; h_enabled := enabled |}.

(** The calls a client can make on a history manager. *)
Inductive history_call : Type :=
| CallSave (now : N) (networkData : option (list node * list edge))
| CallUndo
| CallRedo
| CallClear
| CallSetEnabled (enabled : bool).

Definition history_step (h : history) (c : history_call) : history :=
  match c with
  | CallSave now d => saveState now d h
  | CallUndo => fst (undo h)
  | CallRedo => fst (redo h)
  | CallClear => clear h
  | CallSetEnabled b => setEnabled b h
  end.

(** The index points into the array, or is -1 on an empty one, and the
    array is not longer than the bound. *)
Definition history_ok (h : history) : Prop :=
  let len := Z.of_nat (length (h_states h)) in
  (-1 <= h_currentIndex h < len)%Z /\
  (0 < len -> 0 <= h_currentIndex h)%Z /\
  (len <= Z.max 0 (h_maxStates h))%Z.

(** The last [k] elements of a list. *)
Definition lastn {A} (k : nat) (l : list A) : list A := drop (length l - k) l.

(** The state that a save stores. *)
Definition saved (d : N * (list node * list edge)) : snapshot :=
  {| s_nodes := fst (snd d); s_edges := snd (snd d); s_timestamp := fst d |}.

Definition save_all (ds : list (N * (list node * list edge))) (h : history) : history :=
  fold_left (fun h d => saveState (fst d) (Some (snd d)) h) ds h.

Definition three_saves : list history_call :=
  [ CallSave 1 (Some ([], [])); CallSave 2 (Some ([], [])); CallSave 3 (Some ([], [])) ].

(** ** Outlines: the lines behind a parsed forest *)

(** The text and the level of every task, in the order of the outline. *)
Fixpoint task_entries (t : task) : list (jsstring * nat) :=
  let 'Task x l cs := t in (x, l) :: flat_map task_entries cs.

(** Every child has a level above the level of its parent. *)
Fixpoint levels_nested (t : task) : bool :=
  let 'Task _ l cs := t in
  forallb (fun c => (l <? task_level c) && levels_nested c) cs.

(** The levels of the tasks on the right spine of a hierarchy, the
    top-level one first. *)
Fixpoint on_spine (ls : list nat) (H : list task) : Prop :=
  match ls with
  | [] => True
  | l :: ls' =>
      match last H with
      | Some p => task_level p = l /\ on_spine ls' (task_children p)
      | None => False
      end
  end.

(** The lines that count for the parser: the ones with more than white
    space. *)
Definition content_lines (input : jsstring) : list jsstring :=
  List.filter (fun l => truthy (trim l)) (split_lines input).

(** ** Graphs that are numbered trees *)

(** An edge that leaves the root, or goes from a task to a task that was
    numbered later. *)
Definition forward_edge (e : edge) : Prop :=
  e_from e = ROOT \/
  exists j k, (j < k)%N /\ e_from e = task_id j /\ e_to e = task_id k.

(** The graphs that the builder and the importers make of [n] tasks: the
    root and the nodes [task_0] ... [task_(n-1)], one edge into every task,
    in the order of the tasks, each from the root or from an earlier task. *)
Definition numbered_tree (ns : list node) (es : list edge) (n : nat) : Prop :=
  map n_id ns = ROOT :: ids_from 0 n /\
  map e_to es = ids_from 0 n /\
  Forall forward_edge es.

(** The nodes and the edges that [processTask] makes of a tree whose nodes
    carry their ids, at level [lvl] under the parent [parentId] of group
    [parentGroup]. *)
Fixpoint graph_nodes (autoGroup : bool) (fs : fontSettings) (lvl : nat)
  (parentGroup : option jsstring) (t : ntree) : list node :=
  let 'NTree i x ks := t in
  let group := if autoGroup then detectKeyword x
               else or_else parentGroup (str "Other") in
  let hasChildren := match ks with [] => false | _ => true end in
  nodeConfig fs i x (default [] (displayLabel x hasChildren)) lvl group hasChildren
  :: flat_map (graph_nodes autoGroup fs (S lvl) (Some group)) ks.

Fixpoint graph_edges (parentId : jsstring) (lvl : nat) (t : ntree) : list edge :=
  let 'NTree i _ ks := t in
  {| e_from := parentId; e_to := i;
     e_width := if lvl =? 1 then 3 else 2;
     e_color := Some (str (if match ks with [] => false | _ => true end
                           then "#666" else "#999")) |}
  :: flat_map (graph_edges i (S lvl)) ks.

(** The label of every node of a forest can be computed. *)
Definition labels_defined (F : list ntree) : Prop :=
  Forall (fun t => is_Some (displayLabel (nt_text t)
                              match nt_kids t with [] => false | _ => true end))
    (forest_nodes F).

(** ** Restyling ([updateNodeStyles], [app.js]) *)

(** One of the objects that [updateNodeStyles] hands to [nodes.update]:
    the id of a node and the fields to set; the update of the root sets no
    label. *)
Record style_update : Type := StyleUpdate {
  u_id : jsstring;
  u_label : option jsstring;
  u_font : font
}.

(** [node.originalText || node.title]; [None] is [undefined]. *)
Definition styled_text (n : node) : option jsstring :=
  match n_originalText n with
  | Some x => if truthy x then Some x else n_title n
  | None => n_title n
  end.

(** The body of the loop over the nodes.  [None] is the [TypeError] of
    [text.split] or [text.length] on a text that is [undefined], or the
    one of the leaf label. *)
Definition style_of (fs : fontSettings) (n : node) : option style_update :=
  if eqs (n_id n) ROOT then
    Some {| u_id := n_id n; u_label := None;
            u_font := {| font_size := Some 28; font_face := Some (fs_family fs);
                         font_bold := Some true; font_multi := None |} |}
  else
    let hasChildren := match n_shape n with Dot => true | Box => false end in
    text ← styled_text n;
    lbl ← displayLabel text hasChildren;
    Some {| u_id := n_id n;
            u_label := Some (if fs_italic fs && negb hasChildren
                             then str "<i>" ++ lbl ++ str "</i>" else lbl);
            u_font := {| font_size := Some (if hasChildren then fs_size fs + 4
                                            else fs_size fs);
                         font_face := Some (fs_family fs);
                         font_bold := Some (hasChildren || fs_bold fs);
                         font_multi := Some (if hasChildren then MultiOff
                                             else MultiHtml) |} |}.

(** The fields of an update written into a node. *)
Definition apply_style (u : style_update) (n : node) : node :=
  {| n_id := n_id n;
     n_label := default (n_label n) (u_label u);
     n_title := n_title n;
     n_originalText := n_originalText n;
     n_level := n_level n;
     n_color := n_color n;
     n_font := Some (u_font u);
     n_shape := n_shape n;
     n_size := n_size n;
     n_margin := n_margin n;
     n_borderWidth := n_borderWidth n;
     n_widthConstraint := n_widthConstraint n |}.

(** [updateNodeStyles] on the nodes of the data set: the updates are
    computed for all nodes, then [nodes.update(updates)] applies them one
    after the other.  [None]: an exception left the loop, and nothing was
    updated. *)
Definition updateNodeStyles (fs : fontSettings) (ns : list node)
  : option (list node) :=
  updates ← mapM (style_of fs) ns;
  Some (fold_left (fun ds u => DataSet.update n_id (u_id u) (apply_style u) ds)
          updates ns).

(** A node with the style that [updateNodeStyles] computes for it. *)
Definition restyled (fs : fontSettings) (n : node) : option node :=
  (fun u => apply_style u n) <$> style_of fs n.

Definition sample_hierarchy : list task :=
  [ Task (str "Plan") 0 [Task (str "Design the UI") 1 [];
                         Task (str "Write tests") 1 []];
    Task (str "Ship") 0 [] ].

Definition sample_fonts : fontSettings :=
  {| fs_family := str "Inter"; fs_size := 16; fs_bold := false; fs_italic := false |}.

Definition italic_fonts : fontSettings :=
  {| fs_family := str "Georgia"; fs_size := 20; fs_bold := true; fs_italic := true |}.

(** ** Reachability along the edges *)

(** [b] is reached from [a] along one edge or more. *)
Inductive reaches (es : list edge) : jsstring -> jsstring -> Prop :=
| reaches_edge e : In e es -> reaches es (e_from e) (e_to e)
| reaches_step e c : In e es -> reaches es (e_to e) c -> reaches es (e_from e) c.

(** What the editor relies on: no id is used twice, every node but the
    root has exactly one edge into it, and every edge leaves a node of the
    document. *)
Definition one_parent (st : kstate) : Prop :=
  NoDup (map n_id (nodes st)) /\
  Permutation (map e_to (edges st))
    (List.filter (fun k => negb (eqs k ROOT)) (map n_id (nodes st))) /\
  Forall (fun e => In (e_from e) (map n_id (nodes st))) (edges st).

(** ** Navigation with the arrow keys (keyboard controller) *)

Inductive arrow : Type := ArrowUp | ArrowDown | ArrowLeft | ArrowRight.

(** [array.findIndex(p)]: -1 when no element passes. *)
Fixpoint findIndex_from {A} (p : A -> bool) (i : Z) (l : list A) : Z :=
  match l with
  | [] => -1
  | x :: l' => if p x then i else findIndex_from p (i + 1) l'
  end.

Definition findIndex {A} (p : A -> bool) (l : list A) : Z := findIndex_from p 0 l.

(** The node that an arrow key leads to, if any. *)
Definition arrow_target (direction : arrow) (es : list edge) (sel : jsstring)
  : option jsstring :=
  match direction with
  | ArrowUp | ArrowLeft => e_from <$> List.find (fun e => eqs (e_to e) sel) es
  | ArrowDown | ArrowRight =>
      match List.filter (fun e => eqs (e_from e) sel) es with
      | child :: _ => Some (e_to child)
      | [] =>
          match List.find (fun e => eqs (e_to e) sel) es with
          | Some parentEdge =>
              let siblings :=
                List.filter (fun e => eqs (e_from e) (e_from parentEdge)) es in
              let currentIndex := findIndex (fun e => eqs (e_to e) sel) siblings in
              if (currentIndex <? Z.of_nat (length siblings) - 1)%Z
              then e_to <$> item_at (currentIndex + 1) siblings
              else None
          | None => None
          end
      end
  end.

(** [navigateWithArrows(direction)] *)
Definition navigateWithArrows (direction : arrow) (st : kstate) : kstate :=
  match selectedNodeId st with
  | None => st
  | Some sel =>
      if negb (truthy sel) then st
      else
        match arrow_target direction (edges st) sel with
        | Some targetNodeId =>
            if truthy targetNodeId
            then {| nodes := nodes st; edges := edges st;
                    selectedNodeId := Some targetNodeId |}
            else st
        | None => st
        end
  end.

(** ** Imported documents *)

(** The level that [importFromText] reads off a line: two columns of
    leading white space make one level, a tab counting for two columns. *)
Definition import_indent (line : jsstring) : nat :=
  length (expand_tabs 2 (take_ws line)) / 2.

(** A node without [title] and without [originalText]. *)
Definition untitled (n : node) : Prop :=
  n_title n = None /\ n_originalText n = None.

(** What holds of the state of [importFromText] after [k] lines. *)
Definition import_ok (kept : list jsstring) (st : istate) : Prop :=
  i_nodeId st = N.of_nat (length kept) /\
  numbered_tree (i_nodes st) (i_edges st) (length kept) /\
  map n_label (i_nodes st) = str "Mind Map" :: map trim kept /\
  map n_level (i_nodes st) = 0 :: map (fun l => S (import_indent l)) kept /\
  Forall untitled (i_nodes st) /\
  Forall (fun entry => exists j, (j < N.of_nat (length kept))%N /\ fst entry = task_id j)
    (i_stack st).

(** ** FreeMind documents *)

(** The labels and the nesting of the [node] elements at and below an
    element: what [parseNode] reads, the text of an element being its
    [TEXT] attribute or "Node". *)
Fixpoint xml_rose (x : xml) : rose :=
  let 'Elem _ attrs kids := x in
  Rose (or_else (snd <$> List.find (fun a => eqs (fst a) (str "TEXT")) attrs) (str "Node"))
       (flat_map (fun k => if eqs (xml_tag k) (str "node") then [xml_rose k] else [])
          kids).

Definition xml_forest (kids : list xml) : list rose :=
  flat_map (fun k => if eqs (xml_tag k) (str "node") then [xml_rose k] else []) kids.

(** The nodes and the edges that an importer makes of a tree whose nodes
    carry their ids, at level [lvl] under the parent [parentId]. *)
Fixpoint imported_nodes (lvl : nat) (t : ntree) : list node :=
  imported_node (nt_id t) (nt_text t) lvl
  :: flat_map (imported_nodes (S lvl)) (nt_kids t).

Fixpoint imported_edges (parentId : jsstring) (lvl : nat) (t : ntree) : list edge :=
  {| e_from := parentId; e_to := nt_id t;
     e_width := if lvl =? 1 then 3 else 2; e_color := None |}
  :: flat_map (imported_edges (nt_id t) (S lvl)) (nt_kids t).

Definition sample_map : xml :=
  Elem (str "map") [(str "version", str "1.0.1")]
    [ Elem (str "node") [(str "TEXT", str "Trip")]
        [ Elem (str "node") [(str "TEXT", str "Pack")] [];
          Elem (str "node") [] [Elem (str "node") [(str "TEXT", str "Tickets")] []] ] ].

(** ** FreeMind export ([import-export.js]) *)

(** [s.replace(/c/g, r)] for a pattern that is one character. *)
Definition replace_all (c : ascii) (r : jsstring) (s : jsstring) : jsstring :=
  flat_map (fun x => if Ascii.eqb x c then r else [x]) s.

Definition AMP : ascii := "&"%char.
Definition LANGLE : ascii := "<"%char.
Definition RANGLE : ascii := ">"%char.
Definition DQUOTE : ascii := "034"%char.
Definition APOS : ascii := "039"%char.

(** [escapeXML]: five replacements, one after the other. *)
Definition escapeXML (s : jsstring) : jsstring :=
  replace_all APOS (str "&apos;")
    (replace_all DQUOTE (str "&quot;")
       (replace_all RANGLE (str "&gt;")
          (replace_all LANGLE (str "&lt;")
             (replace_all AMP (str "&amp;") s)))).

(** [label || dflt] *)
Definition label_or (lbl dflt : jsstring) : jsstring :=
  if truthy lbl then lbl else dflt.

(** [buildNode]; [fuel] bounds the depth of the recursion. *)
Fixpoint buildNode (fuel : nat) (m : gmap jsstring (node * list jsstring))
  (k : jsstring) (lvl : nat) : option jsstring :=
  match fuel with
  | 0 => None
  | S fuel' =>
      entry ← m !! k;
      let indent := repeat_str (str "  ") lvl in
      let text := escapeXML (label_or (n_label (fst entry)) (str "Node")) in
      match snd entry with
      | [] =>
          Some (indent ++ str "<node TEXT=" ++ [DQUOTE] ++ text ++ [DQUOTE]
                ++ str "/>" ++ [LF])
      | _ :: _ =>
          below ← foldr (fun c acc =>
                           out ← buildNode fuel' m c (S lvl);
                           rest ← acc;
                           Some (out ++ rest))
                        (Some []) (snd entry);
          Some (indent ++ str "<node TEXT=" ++ [DQUOTE] ++ text ++ [DQUOTE]
                ++ str ">" ++ [LF] ++ below ++ indent ++ str "</node>" ++ [LF])
      end
  end.

(** [exportToFreeMind].  [None] is a recursion that does not end, on a
    cycle of edges. *)
Definition exportToFreeMind (ns : list node) (es : list edge) : option jsstring :=
  let nodeMap := link_children (fun _ => true) (index_nodes (fun n => n) ns) es in
  match nodeMap !! ROOT with
  | None =>
      Some (str "<map version=" ++ [DQUOTE] ++ str "1.0.1" ++ [DQUOTE] ++ str "></map>")
  | Some rootNode =>
      let text := escapeXML (label_or (n_label (fst rootNode)) (str "Mind Map")) in
      below ← foldr (fun c acc =>
                       out ← buildNode (S (length es)) nodeMap c 2;
                       rest ← acc;
                       Some (out ++ rest))
                    (Some []) (snd rootNode);
      Some (str "<?xml version=" ++ [DQUOTE] ++ str "1.0" ++ [DQUOTE]
            ++ str " encoding=" ++ [DQUOTE] ++ str "UTF-8" ++ [DQUOTE] ++ str "?>" ++ [LF]
            ++ str "<map version=" ++ [DQUOTE] ++ str "1.0.1" ++ [DQUOTE] ++ str ">" ++ [LF]
            ++ str "  <node TEXT=" ++ [DQUOTE] ++ text ++ [DQUOTE] ++ str ">" ++ [LF]
            ++ below
            ++ str "  </node>" ++ [LF]
            ++ str "</map>")
  end.

(** *** What the escaped text stands for *)

(** The entity that stands for a character, or the character itself. *)
Definition escape_char (c : ascii) : jsstring :=
  if Ascii.eqb c AMP then str "&amp;"
  else if Ascii.eqb c LANGLE then str "&lt;"
  else if Ascii.eqb c RANGLE then str "&gt;"
  else if Ascii.eqb c DQUOTE then str "&quot;"
  else if Ascii.eqb c APOS then str "&apos;"
  else [c].

(** Reading the five entities back, from left to right. *)
Fixpoint unescape (fuel : nat) (s : jsstring) : jsstring :=
  match fuel with
  | 0 => []
  | S fuel' =>
      match s with
      | [] => []
      | c :: rest =>
          if startsWith (str "&amp;") s then AMP :: unescape fuel' (drop 5 s)
          else if startsWith (str "&lt;") s then LANGLE :: unescape fuel' (drop 4 s)
          else if startsWith (str "&gt;") s then RANGLE :: unescape fuel' (drop 4 s)
          else if startsWith (str "&quot;") s then DQUOTE :: unescape fuel' (drop 6 s)
          else if startsWith (str "&apos;") s then APOS :: unescape fuel' (drop 6 s)
          else c :: unescape fuel' rest
      end
  end.

Definition unescapeXML (s : jsstring) : jsstring := unescape (length s) s.

(** The element of a tree of labels, as the export writes it: an element
    of its own line, two spaces deeper than its parent, closed at once
    when it has no children. *)
Fixpoint freemind_node (lvl : nat) (t : rose) : jsstring :=
  let 'Rose x ks := t in
  let open :=
    repeat_str (str "  ") lvl ++ str "<node TEXT=" ++ [DQUOTE]
    ++ escapeXML (label_or x (str "Node")) ++ [DQUOTE] in
  match ks with
  | [] => open ++ str "/>" ++ [LF]
  | _ :: _ =>
      open ++ str ">" ++ [LF] ++ flat_map (freemind_node (S lvl)) ks
      ++ repeat_str (str "  ") lvl ++ str "</node>" ++ [LF]
  end.

Definition freemind_text (rootLabel : jsstring) (R : list rose) : jsstring :=
  str "<?xml version=" ++ [DQUOTE] ++ str "1.0" ++ [DQUOTE]
  ++ str " encoding=" ++ [DQUOTE] ++ str "UTF-8" ++ [DQUOTE] ++ str "?>" ++ [LF]
  ++ str "<map version=" ++ [DQUOTE] ++ str "1.0.1" ++ [DQUOTE] ++ str ">" ++ [LF]
  ++ str "  <node TEXT=" ++ [DQUOTE]
  ++ escapeXML (label_or rootLabel (str "Mind Map")) ++ [DQUOTE] ++ str ">" ++ [LF]
  ++ flat_map (freemind_node 2) R
  ++ str "  </node>" ++ [LF]
  ++ str "</map>".

(** The label of the root of a document, as the exporters find it. *)
Definition doc_root_label (ns : list node) (es : list edge) : option jsstring :=
  (fun entry => n_label (fst entry))
    <$> link_children (fun _ => true) (index_nodes (fun n => n) ns) es !! ROOT.

(** ** Node editor ([node-editor.js]) *)

(** The part of the editor that its operations read and write: the two
    data sets, the id of the node under edit, and the text of the editor
    element, [None] when there is no element. *)
Record estate : Type := EState {
  ed_nodes : list node;
  ed_edges : list edge;
  editingNodeId : option jsstring;
  editorElement : option jsstring
}.

(** [this.editingNodeId] as a condition. *)
Definition is_editing (st : estate) : bool :=
  match editingNodeId st with Some i => truthy i | None => false end.

(** [startEditing(nodeId)]: the editor opens on the text of the node. *)
Definition startEditing (nodeId : jsstring) (st : estate) : estate :=
  if is_editing st then st
  else
    match DataSet.get n_id (ed_nodes st) nodeId with
    | None => st
    | Some node =>
        {| ed_nodes := ed_nodes st; ed_edges := ed_edges st;
           editingNodeId := Some nodeId;
           editorElement := Some (node_text node) |}
    end.

(** The user types: the text of the editor element changes. *)
Definition typeText (value : jsstring) (st : estate) : estate :=
  {| ed_nodes := ed_nodes st; ed_edges := ed_edges st;
     editingNodeId := editingNodeId st;
     editorElement := match editorElement st with
                      | Some _ => Some value
                      | None => None
                      end |}.

(** The fields that [finishEditing] writes into the node. *)
Definition edited (lbl newLabel : jsstring) (n : node) : node :=
  {| n_id := n_id n;
     n_label := lbl;
     n_title := Some newLabel;
     n_originalText := Some newLabel;
     n_level := n_level n;
     n_color := n_color n;
     n_font := n_font n;
     n_shape := n_shape n;
     n_size := n_size n;
     n_margin := n_margin n;
     n_borderWidth := n_borderWidth n;
     n_widthConstraint := n_widthConstraint n |}.

(** [finishEditing(save)].  [None] is an exception of the label code, or
    an update of an id that the data set does not hold: [nodes.update]
    would then add an item with the three fields of the update only, which
    is no node of this development; [startEditing] opens the editor on
    nodes of the data set only. *)
Definition finishEditing (save : bool) (st : estate) : option estate :=
  match editorElement st with
  | Some value =>
      if negb (is_editing st) then Some st
      else
        let i := default [] (editingNodeId st) in
        let closed ns :=
          {| ed_nodes := ns; ed_edges := ed_edges st;
             editingNodeId := None; editorElement := None |} in
        let newLabel := trim value in
        if save && truthy newLabel then
          _ ← DataSet.get n_id (ed_nodes st) i;
          let hasChildren :=
            negb (length (DataSet.get_filter (fun e => eqs (e_from e) i) (ed_edges st))
                  =? 0) in
          lbl ← displayLabel newLabel hasChildren;
          Some (closed (DataSet.update n_id i (edited lbl newLabel) (ed_nodes st)))
        else Some (closed (ed_nodes st))
  | None => Some st
  end.

(** ** FreeMind: the elements of an exported text *)

(** The [node] element that the export writes for a tree of labels. *)
Fixpoint node_element (t : rose) : xml :=
  let 'Rose x ks := t in
  Elem (str "node") [(str "TEXT", label_or x (str "Node"))] (map node_element ks).

(** The document that the export writes for a root label and the forest
    below the root. *)
Definition freemind_elements (rootLabel : jsstring) (R : list rose) : xml :=
  Elem (str "map") [(str "version", str "1.0.1")]
    [ Elem (str "node") [(str "TEXT", label_or rootLabel (str "Mind Map"))]
        (map node_element R) ].

(** A tree of labels with "Node" for every empty label. *)
Fixpoint named (t : rose) : rose :=
  let 'Rose x ks := t in Rose (label_or x (str "Node")) (map named ks).

(** *** The XML parser

    [DOMParser.parseFromString(text, 'text/xml')], a function of the
    platform, after XML 1.0, on the documents that hold elements with
    attributes and white space between them, after an optional XML
    declaration: the form of a FreeMind file as [exportToFreeMind] writes
    it.  Comments, processing instructions, a document type, character
    data other than white space and the rules of namespaces are outside
    this model: it takes a text with a comment, an instruction, a document
    type or character data for a text that is not well-formed, and a colon
    for a character of a name. *)
Module XmlText.

(** [Char]: the characters that a document may hold, among the code units
    below 256. *)
Definition is_char (c : ascii) : bool :=
  let n := nat_of_ascii c in
  (32 <=? n) || (n =? 9) || (n =? 10) || (n =? 13).

(** [S]: white space. *)
Definition is_space (c : ascii) : bool :=
  Ascii.eqb c SP || Ascii.eqb c TAB || Ascii.eqb c CR || Ascii.eqb c LF.

Fixpoint skip_space (s : jsstring) : jsstring :=
  match s with
  | c :: s' => if is_space c then skip_space s' else s
  | [] => []
  end.

(** End-of-line handling: CR LF and a CR alone are read as LF.
    [after_cr] says that the character before was a CR. *)
Fixpoint line_ends_from (after_cr : bool) (s : jsstring) : jsstring :=
  match s with
  | [] => []
  | c :: s' =>
      if Ascii.eqb c CR then LF :: line_ends_from true s'
      else if Ascii.eqb c LF then
        if after_cr then line_ends_from false s' else LF :: line_ends_from false s'
      else c :: line_ends_from false s'
  end.

Definition line_ends (s : jsstring) : jsstring := line_ends_from false s.

(** [NameStartChar] and [NameChar]. *)
Definition is_name_start (c : ascii) : bool :=
  let n := nat_of_ascii c in
  ((65 <=? n) && (n <=? 90)) || ((97 <=? n) && (n <=? 122))
  || (n =? 58) || (n =? 95)
  || ((192 <=? n) && negb (n =? 215) && negb (n =? 247)).

Definition is_name_char (c : ascii) : bool :=
  let n := nat_of_ascii c in
  is_name_start c || ((48 <=? n) && (n <=? 57)) || (n =? 45) || (n =? 46) || (n =? 183).

Fixpoint read_name_chars (s : jsstring) : jsstring * jsstring :=
  match s with
  | c :: s' =>
      if is_name_char c then let '(n, r) := read_name_chars s' in (c :: n, r)
      else ([], s)
  | [] => ([], [])
  end.

(** [Name] *)
Definition read_name (s : jsstring) : option (jsstring * jsstring) :=
  match s with
  | c :: _ => if is_name_start c then Some (read_name_chars s) else None
  | [] => None
  end.

Definition hex_value (c : ascii) : option nat :=
  let n := nat_of_ascii c in
  if (48 <=? n) && (n <=? 57) then Some (n - 48)
  else if (97 <=? n) && (n <=? 102) then Some (n - 87)
  else if (65 <=? n) && (n <=? 70) then Some (n - 55)
  else None.

(** The digits of a character reference, up to the semicolon, in base
    [base]; the number they denote. *)
Fixpoint read_code (base : nat) (acc : nat) (some : bool) (s : jsstring)
  : option (nat * jsstring) :=
  match s with
  | c :: s' =>
      if Ascii.eqb c ";"%char then (if some then Some (acc, s') else None)
      else
        match hex_value c with
        | Some d => if d <? base then read_code base (base * acc + d) true s' else None
        | None => None
        end
  | [] => None
  end.

(** [Reference], after the ampersand: one of the five entities that are
    declared without a document type, or a character reference, which
    must name a [Char].  A character from 256 on is no character of
    [jsstring]: such a reference is not read. *)
Definition read_reference (s : jsstring) : option (ascii * jsstring) :=
  if startsWith (str "amp;") s then Some (AMP, drop 4 s)
  else if startsWith (str "lt;") s then Some (LANGLE, drop 3 s)
  else if startsWith (str "gt;") s then Some (RANGLE, drop 3 s)
  else if startsWith (str "quot;") s then Some (DQUOTE, drop 5 s)
  else if startsWith (str "apos;") s then Some (APOS, drop 5 s)
  else
    '(n, r) ← (if startsWith (str "#x") s then read_code 16 0 false (drop 2 s)
               else if startsWith (str "#") s then read_code 10 0 false (drop 1 s)
               else None);
    if (n <? 256) && is_char (ascii_of_nat n) then Some (ascii_of_nat n, r) else None.

(** [AttValue] after its opening quote [q], normalized: a reference
    stands for its character, and a white space character is read as a
    space.  [fuel] bounds the length of the value. *)
Fixpoint read_att_value (fuel : nat) (q : ascii) (s : jsstring)
  : option (jsstring * jsstring) :=
  match fuel with
  | 0 => None
  | S fuel' =>
      match s with
      | [] => None
      | c :: s' =>
          if Ascii.eqb c q then Some ([], s')
          else if Ascii.eqb c LANGLE then None
          else if Ascii.eqb c AMP then
            '(x, r) ← read_reference s';
            '(v, r') ← read_att_value fuel' q r;
            Some (x :: v, r')
          else
            '(v, r) ← read_att_value fuel' q s';
            Some ((if is_space c then SP else c) :: v, r)
      end
  end.

(** The characters at which the attributes of a tag end. *)
Definition is_tag_end (c : ascii) : bool :=
  Ascii.eqb c RANGLE || Ascii.eqb c "/"%char || Ascii.eqb c "?"%char.

(** The attributes of a tag, up to the end of the tag: each one after
    white space, none twice. *)
Fixpoint read_attrs (fuel : nat) (s : jsstring)
  : option (list (jsstring * jsstring) * jsstring) :=
  match fuel with
  | 0 => None
  | S fuel' =>
      match s with
      | [] => None
      | c :: s' =>
          if is_tag_end c then Some ([], s)
          else if is_space c then
            match skip_space s' with
            | [] => None
            | d :: s1 =>
                if is_tag_end d then Some ([], d :: s1)
                else
                  '(name, r) ← read_name (d :: s1);
                  match skip_space r with
                  | e :: r1 =>
                      if Ascii.eqb e "="%char then
                        match skip_space r1 with
                        | q :: r2 =>
                            if Ascii.eqb q DQUOTE || Ascii.eqb q APOS then
                              '(v, r3) ← read_att_value (length r2) q r2;
                              '(more, r4) ← read_attrs fuel' r3;
                              if existsb (fun a => eqs (fst a) name) more then None
                              else Some ((name, v) :: more, r4)
                            else None
                        | [] => None
                        end
                      else None
                  | [] => None
                  end
            end
          else None
      end
  end.

(** The content of an element named [name], up to its end tag: elements
    with white space between them. *)
Fixpoint read_content (n : nat) (read_element : jsstring -> option (xml * jsstring))
  (name : jsstring) (s : jsstring) : option (list xml * jsstring) :=
  match n with
  | 0 => None
  | S n' =>
      let s1 := skip_space s in
      if startsWith (str "</") s1 then
        '(nm, r) ← read_name (drop 2 s1);
        if eqs nm name then
          match skip_space r with
          | c :: r' => if Ascii.eqb c RANGLE then Some ([], r') else None
          | [] => None
          end
        else None
      else
        '(x, r1) ← read_element s1;
        '(xs, r2) ← read_content n' read_element name r1;
        Some (x :: xs, r2)
  end.

(** An element; [fuel] bounds the nesting and the number of elements. *)
Fixpoint read_element (fuel : nat) (s : jsstring) : option (xml * jsstring) :=
  match fuel with
  | 0 => None
  | S fuel' =>
      match s with
      | c :: s' =>
          if Ascii.eqb c LANGLE then
            '(name, r) ← read_name s';
            '(attrs, r1) ← read_attrs (S (length r)) r;
            if startsWith (str "/>") r1 then Some (Elem name attrs [], drop 2 r1)
            else if startsWith (str ">") r1 then
              '(kids, r2) ← read_content fuel' (read_element fuel') name (drop 1 r1);
              Some (Elem name attrs kids, r2)
            else None
          else None
      | [] => None
      end
  end.

(** The XML declaration, which a document may start with: its version
    first. *)
Definition read_declaration (s : jsstring) : option jsstring :=
  if startsWith (str "<?xml") s then
    '(attrs, r) ← read_attrs (S (length s)) (drop 5 s);
    match attrs with
    | (name, _) :: _ =>
        if eqs name (str "version") && startsWith (str "?>") r
        then Some (drop 2 r) else None
    | [] => None
    end
  else Some s.

(** A document: [None] for a text that is not well-formed. *)
Definition parse (text : jsstring) : option xml :=
  if forallb is_char text then
    let s := line_ends text in
    s1 ← read_declaration s;
    '(x, rest) ← read_element (S (length s)) (skip_space s1);
    match skip_space rest with [] => Some x | _ :: _ => None end
  else None.

(** [parseFromString]: a text that is not well-formed gives a document
    with a [parsererror] element. *)
Definition parseFromString (text : jsstring) : xml :=
  default (Elem (str "parsererror") [] []) (parse text).

End XmlText.

(** The value of an attribute whose text was written as [s]: line ends
    and white space characters are read as spaces. *)
Definition attribute_text (s : jsstring) : jsstring :=
  map (fun c => if XmlText.is_space c then SP else c) (XmlText.line_ends s).


(** A text with every white space character of XML read as a space. *)
Definition space_text (s : jsstring) : jsstring :=
  map (fun c => if XmlText.is_space c then SP else c) s.

(** White space of XML only. *)
Definition xml_blank (w : jsstring) : Prop :=
  Forall (fun c => XmlText.is_space c = true) w.

(** A document with a wrapped label, a label with characters that XML
    reserves, and an empty label. *)
Definition wrapped_doc : kstate :=
  {| nodes := [ plain_node "root" "Mind Map" 0 Dot;
                plain_node "task_0" "R&D <draft>" 1 Dot;
                plain_node "task_1" "Implement the user
authentication" 2 Box;
                plain_node "task_2" "" 1 Box ];
     edges := [ plain_edge "root" "task_0" 3;
                plain_edge "task_0" "task_1" 2;
                plain_edge "root" "task_2" 3 ];
     selectedNodeId := None |}.

(** A tree of labels with every label changed by [f]. *)
Fixpoint relabel (f : jsstring -> jsstring) (t : rose) : rose :=
  let 'Rose x ks := t in Rose (f x) (map (relabel f) ks).

(** Whether a text, read after a character that was a CR or not, ends
    with a CR. *)
Definition ends_with_cr (after_cr : bool) (s : jsstring) : bool :=
  match last s with
  | Some c => Ascii.eqb c CR
  | None => after_cr
  end.

(** The element that is read for the text of a tree of labels. *)
Definition read_as (t : rose) : xml := node_element (relabel space_text t).


(** * Properties *)

(** ** Indentation *)

Lemma take_ws_app ws rest :
  forallb is_ws ws = true ->
  match rest with c :: _ => is_ws c = false | [] => True end ->
  take_ws (ws ++ rest) = ws.
Proof.
  intros Hws Hrest. induction ws as [|c ws IH]; simpl in *.
  - destruct rest as [|c r]; [reflexivity|]. simpl. now rewrite Hrest.
  - apply andb_prop in Hws as [Hc Hws]. rewrite Hc. f_equal. now apply IH.
Qed.

Lemma expand_tabs_length w ws :
  length (expand_tabs w ws) = count_other ws + w * count_tabs ws.
Proof.
  unfold expand_tabs, count_other, count_tabs.
  induction ws as [|c ws IH]; simpl; [lia|].
  rewrite length_app, IH.
  destruct (Ascii.eqb c TAB) eqn:E; simpl.
  - rewrite repeat_length. lia.
  - lia.
Qed.

(** The level of a line is half the width of its leading white space, a
    tab being four columns wide. *)
Lemma getIndentLevel_spec line ws rest :
  leading_ws_of line ws rest ->
  getIndentLevel line = (count_other ws + 4 * count_tabs ws) / 2.
Proof.
  intros (-> & Hws & Hrest). unfold getIndentLevel.
  rewrite take_ws_app by assumption.
  now rewrite expand_tabs_length.
Qed.

(** C8, the formula of the claim: the level is the floor of half the width
    of the leading white space, each tab counted as four columns. *)
Lemma getIndentLevel_two_spaces line :
  getIndentLevel (SP :: SP :: line) = 1 + getIndentLevel line.
Proof.
  unfold getIndentLevel.
  change (take_ws (SP :: SP :: line)) with (SP :: SP :: take_ws line).
  change (expand_tabs 4 (SP :: SP :: take_ws line))
    with (SP :: SP :: expand_tabs 4 (take_ws line)).
  cbn [length].
  replace (S (S (length (expand_tabs 4 (take_ws line)))))
    with (1 * 2 + length (expand_tabs 4 (take_ws line))) by lia.
  now rewrite Nat.div_add_l by lia.
Qed.

Lemma getIndentLevel_one_tab line :
  getIndentLevel (TAB :: line) = 2 + getIndentLevel line.
Proof.
  unfold getIndentLevel.
  change (take_ws (TAB :: line)) with (TAB :: take_ws line).
  change (expand_tabs 4 (TAB :: take_ws line))
    with (SP :: SP :: SP :: SP :: expand_tabs 4 (take_ws line)).
  cbn [length].
  replace (S (S (S (S (length (expand_tabs 4 (take_ws line)))))))
    with (2 * 2 + length (expand_tabs 4 (take_ws line))) by lia.
  now rewrite Nat.div_add_l by lia.
Qed.

(** C8 (as stated, second sentence): a tab is four quarters of an expanded
    tab; at one level per quarter a line that starts with one tab would be
    at level 4, and the code puts it at level 2. *)
Lemma getIndentLevel_quarter_tab_fails :
  getIndentLevel (TAB :: str "x") = 2 /\
  getIndentLevel (TAB :: str "x") <> 4 * 1.
Proof. split; [reflexivity|discriminate]. Qed.

(** C8 (amended): the level is the floor of half the width of the leading
    white space after expanding each tab to 4 spaces; every 2 spaces add
    one level and every tab adds two, that is, half of an expanded tab
    makes one level. *)
Theorem getIndentLevel_floor_half line ws rest :
  leading_ws_of line ws rest ->
  getIndentLevel line = (count_other ws + 4 * count_tabs ws) / 2 /\
  getIndentLevel (SP :: SP :: line) = 1 + getIndentLevel line /\
  getIndentLevel (TAB :: line) = 2 + getIndentLevel line.
Proof.
  intros H. split; [exact (getIndentLevel_spec line ws rest H)|].
  split; [apply getIndentLevel_two_spaces | apply getIndentLevel_one_tab].
Qed.

Lemma getIndentLevel_floor_half_witness :
  leading_ws_of (TAB :: SP :: SP :: SP :: str "item") [TAB; SP; SP; SP] (str "item") /\
  getIndentLevel (TAB :: SP :: SP :: SP :: str "item") = 3.
Proof.
  assert (H : leading_ws_of (TAB :: SP :: SP :: SP :: str "item")
                [TAB; SP; SP; SP] (str "item")).
  { repeat split. }
  split; [exact H|].
  exact (proj1 (getIndentLevel_floor_half _ _ _ H)).
Defined.

(** ** Classifier *)

Lemma startsWith_prefix p s :
  startsWith p s = true <-> exists post, s = p ++ post.
Proof.
  revert s. induction p as [|a p IH]; intros s; simpl.
  - split; [eauto|reflexivity].
  - destruct s as [|b s]; simpl.
    + split; [discriminate|]. intros [post H]. discriminate.
    + rewrite andb_true_iff, IH. split.
      * intros [Hab [post ->]]. apply Ascii.eqb_eq in Hab as ->. eauto.
      * intros [post H]. injection H as -> ->. split; [apply Ascii.eqb_refl|eauto].
Qed.

Lemma includes_infix p s :
  includes p s = true <-> exists pre post, s = pre ++ p ++ post.
Proof.
  induction s as [|c s IH]; simpl.
  - rewrite orb_false_r, startsWith_prefix. split.
    + intros [post H]. exists [], post. exact H.
    + intros (pre & post & H). destruct pre; simpl in H; [eauto|discriminate].
  - rewrite orb_true_iff, startsWith_prefix, IH. split.
    + intros [[post H]|(pre & post & ->)].
      * exists [], post. exact H.
      * exists (c :: pre), post. reflexivity.
    + intros (pre & post & H). destruct pre as [|d pre]; simpl in H.
      * left. eauto.
      * right. injection H as _ ->. eauto.
Qed.

(** Looking for a lower-case keyword in the lowered text is looking for
    the keyword up to case. *)
Lemma includes_lower_ci kw text :
  toLowerCase kw = kw ->
  includes kw (toLowerCase text) = true <-> ci_substring kw text.
Proof.
  intros Hkw. rewrite includes_infix. unfold ci_substring, toLowerCase in *. split.
  - intros (pre & post & H).
    apply map_eq_app in H as (pre' & r & -> & <- & H).
    apply map_eq_app in H as (mid & post' & -> & Hmid & <-).
    exists pre', mid, post'. split; [reflexivity|]. now rewrite Hkw.
  - intros (pre & mid & post & -> & H).
    exists (map lower_char pre), (map lower_char post).
    rewrite !map_app, H, Hkw. reflexivity.
Qed.


Lemma existsb_category_matches keywords text :
  Forall (fun kw => toLowerCase kw = kw) keywords ->
  existsb (fun kw => includes kw (toLowerCase text)) keywords = true
  <-> category_matches keywords text.
Proof.
  intros Hl. rewrite existsb_exists. unfold category_matches.
  rewrite Forall_forall in Hl. split.
  - intros (kw & Hin & H). exists kw. split; [exact Hin|].
    apply includes_lower_ci; [|exact H]. apply Hl. now apply list_elem_of_In.
  - intros (kw & Hin & H). exists kw. split; [exact Hin|].
    apply includes_lower_ci; [|exact H]. apply Hl. now apply list_elem_of_In.
Qed.

Lemma detect_in_first_match groups text :
  lowercase_keywords groups ->
  first_match groups text (detect_in groups (toLowerCase text)).
Proof.
  induction groups as [|[group keywords] rest IH]; intros Hl; simpl.
  - constructor.
  - apply Forall_cons in Hl as [Hk Hl]. simpl in Hk.
    destruct (existsb _ keywords) eqn:E.
    + apply first_match_here. now apply existsb_category_matches.
    + apply first_match_later; [|now apply IH].
      intros Hm. apply existsb_category_matches in Hm; [congruence|exact Hk].
Qed.

Lemma KEYWORD_GROUPS_lowercase : lowercase_keywords KEYWORD_GROUPS.
Proof.
  unfold lowercase_keywords, KEYWORD_GROUPS.
  repeat constructor.
Qed.

(** C9: the classifier returns the first category in declaration order one
    of whose keywords occurs in the text up to case, "Other" when there is
    none; a text with a "Design" keyword and a "Testing" keyword is
    classified "Design", the category declared first, wherever the keywords
    stand. *)
Theorem detectKeyword_first_category text :
  first_match KEYWORD_GROUPS text (detectKeyword text) /\
  (category_matches (keywords_of "Design") text ->
   category_matches (keywords_of "Testing") text ->
   detectKeyword text = str "Design").
Proof.
  split.
  - apply detect_in_first_match, KEYWORD_GROUPS_lowercase.
  - intros Hd _. unfold detectKeyword, KEYWORD_GROUPS. cbn [detect_in].
    change (keywords_of "Design") with
      (map str ["design"; "ui"; "ux"; "mockup"; "prototype"; "wireframe"; "sketch"]%string) in Hd.
    apply existsb_category_matches in Hd.
    + rewrite Hd. reflexivity.
    + pose proof KEYWORD_GROUPS_lowercase as Hl.
      apply Forall_cons in Hl as [Hl _]. exact Hl.
Qed.

Lemma detectKeyword_first_category_witness :
  detectKeyword (str "Debug the login Mockup") = str "Design".
Proof.
  apply (proj2 (detectKeyword_first_category (str "Debug the login Mockup"))).
  - exists (str "mockup"). split; [vm_compute; tauto|].
    exists (str "Debug the login "), (str "Mockup"), []. split; reflexivity.
  - exists (str "debug"). split; [vm_compute; tauto|].
    exists [], (str "Debug"), (str " the login Mockup"). split; reflexivity.
Defined.

(** ** Leaf labels *)



Lemma trim_tight s : tight s -> trim s = s.
Proof.
  intros (_ & H1 & H2). unfold trim. rewrite H1, H2. apply rev_involutive.
Qed.

Lemma drop_ws_length s : length (drop_ws s) <= length s.
Proof.
  induction s as [|c s IH]; simpl; [lia|].
  destruct (is_ws c); simpl; lia.
Qed.

Lemma drop_ws_fix_head c s : drop_ws (c :: s) = c :: s -> is_ws c = false.
Proof.
  simpl. destruct (is_ws c); [|reflexivity].
  intros H. pose proof (drop_ws_length s) as Hl. rewrite H in Hl. simpl in Hl. lia.
Qed.







Lemma tight_truthy s : tight s -> truthy s = true.
Proof. intros [H _]. destruct s; [congruence|reflexivity]. Qed.

(** Splitting and joining. *)
Lemma split_on_nonempty sep s : split_on sep s <> [].
Proof.
  destruct s as [|c s]; simpl; [discriminate|].
  destruct (Ascii.eqb c sep); [discriminate|].
  destruct (split_on sep s); discriminate.
Qed.




Lemma join_cons_cons sep p q ps :
  join sep (p :: q :: ps) = p ++ sep ++ join sep (q :: ps).
Proof. reflexivity. Qed.
























(** ** Structural editor *)

Lemma get_filter_head_in {A} (f : A -> bool) (ds : list A) x :
  head (DataSet.get_filter f ds) = Some x -> In x ds /\ f x = true.
Proof.
  unfold DataSet.get_filter. intros H.
  apply filter_In. destruct (List.filter f ds) as [|y l]; [discriminate|].
  injection H as ->. now left.
Qed.

Lemma eqs_refl a : eqs a a = true.
Proof. unfold eqs. now apply bool_decide_eq_true. Qed.

Lemma eqs_eq a b : eqs a b = true <-> a = b.
Proof. unfold eqs. apply bool_decide_eq_true. Qed.

(** [deleteNode] removes nodes and nothing else: the edge collection is not
    touched, so the edge from the parent to the deleted node is still
    counted among the parent's children and the branch that would turn the
    parent back into a box is never taken. *)
Lemma deleteNode_only_removes_nodes st st' :
  deleteNode st = Some st' ->
  edges st' = edges st /\
  exists ids, nodes st' = DataSet.remove n_id ids (nodes st).
Proof.
  unfold deleteNode. destruct (no_target (selectedNodeId st)).
  { intros H. injection H as <-. split; [reflexivity|].
    exists []. unfold DataSet.remove. simpl.
    induction (nodes st) as [|n l IH]; simpl; congruence. }
  destruct (getAllDescendants _ _ _) as [below|]; [|discriminate].
  cbn [mbind option_bind].
  set (sel := default [] (selectedNodeId st)).
  destruct (head (DataSet.get_filter (fun e => eqs (e_to e) sel) (edges st)))
    as [pe|] eqn:Ehead.
  - apply get_filter_head_in in Ehead as [Hin _].
    assert (Hne : length (DataSet.get_filter
                            (fun e => eqs (e_from e) (e_from pe)) (edges st)) <> 0).
    { unfold DataSet.get_filter.
      assert (Hin' : In pe (List.filter (fun e => eqs (e_from e) (e_from pe)) (edges st))).
      { apply filter_In. split; [exact Hin|apply eqs_refl]. }
      destruct (List.filter _ (edges st)); [destruct Hin'|discriminate]. }
    apply Nat.eqb_neq in Hne. rewrite Hne. cbn.
    intros H. injection H as <-. split; [reflexivity|]. now exists (below ++ [sel]).
  - cbn. intros H. injection H as <-. split; [reflexivity|]. now exists (below ++ [sel]).
Qed.

(** C1: deleting a node with two children and one grandchild removes the
    4 nodes, and leaves in the document the 4 edges incident to them. *)
Theorem deleteNode_leaves_incident_edges :
  exists st',
    deleteNode family_doc = Some st' /\
    map n_id (nodes st') = [ROOT] /\
    length (nodes family_doc) - length (nodes st') = 4 /\
    edges st' = edges family_doc /\
    List.filter (incident (map str ["task_0"; "task_1"; "task_2"; "task_3"]%string))
      (edges st') = edges family_doc.
Proof. eexists. split; [vm_compute; reflexivity|]. vm_compute. repeat split. Qed.

(** C2: deleting the only child of a container leaves the container a dot,
    and leaves the edge to the deleted child in place. *)
Theorem deleteNode_parent_stays_container :
  exists st',
    deleteNode only_child_doc = Some st' /\
    map n_id (nodes st') = [ROOT; str "task_0"] /\
    (n_shape <$> DataSet.get n_id (nodes st') (str "task_0")) = Some Dot /\
    edges st' = edges only_child_doc.
Proof. eexists. split; [vm_compute; reflexivity|]. vm_compute. repeat split. Qed.

Lemma get_app_l {A} (key : A -> jsstring) ds x k y :
  DataSet.get key ds k = Some y -> DataSet.get key (ds ++ [x]) k = Some y.
Proof.
  unfold DataSet.get. induction ds as [|z ds IH]; simpl; [discriminate|].
  destruct (eqs (key z) k); [easy|exact IH].
Qed.

Lemma get_update_same {A} (key : A -> jsstring) (f : A -> A) ds k y :
  (forall x, key (f x) = key x) ->
  DataSet.get key ds k = Some y ->
  DataSet.get key (DataSet.update key k f ds) k = Some (f y).
Proof.
  intros Hf. unfold DataSet.get, DataSet.update.
  induction ds as [|z ds IH]; simpl; [discriminate|].
  destruct (eqs (key z) k) eqn:E.
  - intros H. injection H as ->. now rewrite Hf, E.
  - rewrite E. exact IH.
Qed.

(** The half of C2 that holds: adding a child to a box turns the box into a
    dot in the same operation, and the new node is a box with exactly the
    one edge from the selected node. *)
Lemma addChildNode_leaf_becomes_container now st sel selectedNode :
  selectedNodeId st = Some sel ->
  no_target (Some sel) = false ->
  DataSet.get n_id (nodes st) sel = Some selectedNode ->
  n_shape selectedNode = Box ->
  DataSet.get n_id (nodes st) (task_id now) = None ->
  exists st',
    addChildNode now st = Some st' /\
    (n_shape <$> DataSet.get n_id (nodes st') sel) = Some Dot /\
    edges st' = edges st ++
      [ {| e_from := sel; e_to := task_id now; e_width := 2; e_color := None |} ].
Proof.
  intros Hsel Hnt Hget Hbox Hfresh. unfold addChildNode.
  rewrite Hsel, Hnt. change (default [] (Some sel)) with sel. rewrite Hget.
  unfold DataSet.add at 1. cbn [n_id new_task]. rewrite Hfresh.
  cbn [mbind option_bind]. rewrite Hbox.
  eexists. split; [reflexivity|]. cbn [nodes edges]. split; [|reflexivity].
  rewrite (get_update_same n_id (to_container selectedNode) _ sel selectedNode);
    [reflexivity | intros; reflexivity | now apply get_app_l].
Qed.

(** C10 (as stated): a new top-level branch is added through the editor by
    the add-sibling operation on a top-level node. *)
Lemma addSiblingNode_adds_top_level_branch :
  exists st',
    addSiblingNode 1700000000000%N single_branch_doc = Some st' /\
    length (top_level_edges single_branch_doc) = 1 /\
    length (top_level_edges st') = 2 /\
    top_level_edges st' <> top_level_edges single_branch_doc.
Proof.
  eexists. split; [vm_compute; reflexivity|]. vm_compute. repeat split. discriminate.
Qed.

Lemma addChildNode_edges now st st' :
  addChildNode now st = Some st' ->
  edges st' = edges st \/
  exists sel, no_target (Some sel) = false /\
    edges st' = edges st ++
      [ {| e_from := sel; e_to := task_id now; e_width := 2; e_color := None |} ].
Proof.
  unfold addChildNode.
  destruct (selectedNodeId st) as [sel|] eqn:Esel; cbn [no_target].
  2:{ intros H. injection H as <-. now left. }
  change (default [] (Some sel)) with sel.
  destruct (negb (truthy sel) || eqs sel ROOT) eqn:Ent.
  { intros H. injection H as <-. now left. }
  destruct (DataSet.get n_id (nodes st) sel) as [selectedNode|].
  2:{ intros H. injection H as <-. now left. }
  destruct (DataSet.add _ _ _) as [nodes1|]; [|discriminate].
  cbn [mbind option_bind]. intros H. injection H as <-. right.
  exists sel. split; [exact Ent|reflexivity].
Qed.

(** C10 (amended): add-child is a silent no-op when the root or nothing is
    selected, and no add-child ever adds a top-level branch to the root. *)
Theorem addChildNode_never_on_root now st :
  (selectedNodeId st = None \/ selectedNodeId st = Some ROOT ->
   addChildNode now st = Some st) /\
  (forall st', addChildNode now st = Some st' ->
   top_level_edges st' = top_level_edges st).
Proof.
  split.
  - intros [H|H]; unfold addChildNode; rewrite H; reflexivity.
  - intros st' H. unfold top_level_edges.
    destruct (addChildNode_edges _ _ _ H) as [->|(sel & Hnt & ->)]; [reflexivity|].
    rewrite List.filter_app. cbn [List.filter e_from].
    cbn [no_target] in Hnt. apply orb_false_elim in Hnt as [_ ->].
    now rewrite app_nil_r.
Qed.

Lemma addChildNode_never_on_root_witness :
  let st := {| nodes := nodes single_branch_doc;
               edges := edges single_branch_doc;
               selectedNodeId := Some ROOT |} in
  addChildNode 1700000000000%N st = Some st.
Proof.
  intros st.
  apply (proj1 (addChildNode_never_on_root 1700000000000%N st)).
  right. reflexivity.
Defined.

(** ** Codec layer: FreeMind import *)


(** C5 (as stated): a well-formed document without a root [node] element,
    such as an empty [map], is imported as a document without nodes, not
    as the [null] sentinel. *)
Lemma importFromFreeMind_missing_root_not_null :
  let xmlString := str "<map></map>" in
  let parseFromString := fun _ : jsstring => Elem (str "map") [] [] in
  importFromFreeMind parseFromString xmlString = Returned (Some empty_document) /\
  importFromFreeMind parseFromString xmlString <> Returned None.
Proof. split; [reflexivity|discriminate]. Qed.

(** C5 (amended): the FreeMind import never lets an exception out; it
    yields [null] exactly when the parsed document holds a [parsererror]
    element, that is, on unparseable markup; a well-formed document whose
    root [node] element is missing yields a document without nodes and
    edges. *)
Theorem importFromFreeMind_null_iff_parsererror parseFromString xmlString :
  importFromFreeMind parseFromString xmlString <> Thrown /\
  (importFromFreeMind parseFromString xmlString = Returned None <->
   has_element (str "parsererror") (parseFromString xmlString) = true) /\
  (has_element (str "parsererror") (parseFromString xmlString) = false ->
   select_map_node false (parseFromString xmlString) = None ->
   importFromFreeMind parseFromString xmlString = Returned (Some empty_document)).
Proof.
  unfold importFromFreeMind, importFromFreeMind_body.
  destruct (has_element _ _) eqn:E.
  - repeat split; try discriminate; try reflexivity.
  - split; [discriminate|]. split.
    + split; discriminate.
    + intros _ ->. reflexivity.
Qed.

Lemma importFromFreeMind_null_iff_parsererror_witness :
  let parseFromString := fun _ : jsstring =>
    Elem (str "map") [] [Elem (str "item") [] []] in
  importFromFreeMind parseFromString (str "<map><item/></map>")
    = Returned (Some empty_document).
Proof.
  intros parseFromString.
  apply (proj2 (proj2 (importFromFreeMind_null_iff_parsererror
                         parseFromString (str "<map><item/></map>")))).
  - reflexivity.
  - reflexivity.
Defined.

(** ** Codec layer: JSON *)

Lemma json_ind' (P : json -> Prop) :
  P JNull -> (forall b, P (JBool b)) -> (forall n, P (JNum n)) ->
  (forall s, P (JStr s)) ->
  (forall items, Forall P items -> P (JArr items)) ->
  (forall fields, Forall (fun f => P (snd f)) fields -> P (JObj fields)) ->
  forall v, P v.
Proof.
  intros Hnull Hbool Hnum Hstr Harr Hobj. fix IH 1. intros [| b | n | s | items | fields].
  - exact Hnull.
  - apply Hbool.
  - apply Hnum.
  - apply Hstr.
  - apply Harr. induction items as [|v items IHi]; constructor; [apply IH|exact IHi].
  - apply Hobj. induction fields as [|[k v] fields IHf]; constructor; [apply IH|exact IHf].
Qed.

Lemma skip_ws_blank w s : json_blank w -> JSON.skip_ws (w ++ s) = JSON.skip_ws s.
Proof.
  induction 1 as [|c w Hc _ IH]; [reflexivity|]. cbn [app JSON.skip_ws]. now rewrite Hc.
Qed.

Lemma json_blank_spaces n : json_blank (repeat SP n).
Proof. induction n; constructor; [reflexivity|assumption]. Qed.

Lemma json_blank_indent n : json_blank (LF :: repeat SP n).
Proof. constructor; [reflexivity|apply json_blank_spaces]. Qed.

(** *** Numbers *)

Lemma digit_of_pretty d : (d < 10)%N -> JSON.digit_of (pretty_N_char d) = Some d.
Proof.
  intros H.
  assert (d = 0 \/ d = 1 \/ d = 2 \/ d = 3 \/ d = 4 \/ d = 5 \/ d = 6 \/ d = 7
          \/ d = 8 \/ d = 9)%N as Hd by lia.
  repeat (destruct Hd as [->|Hd]; [reflexivity|]). now subst.
Qed.

Lemma digits_value_snoc ds d :
  JSON.digits_value (ds ++ [d]) = (10 * JSON.digits_value ds + d)%N.
Proof. unfold JSON.digits_value. now rewrite fold_left_app. Qed.

(** The decimal digits that [pretty] writes. *)
Lemma pretty_N_go_digits n : forall acc,
  exists ds,
    str (pretty_N_go n acc) = map pretty_N_char ds ++ str acc /\
    Forall (fun d => d < 10)%N ds /\
    JSON.digits_value ds = n /\
    (n = 0%N -> ds = []) /\
    ((0 < n)%N -> exists d ds', ds = d :: ds' /\ d <> 0%N).
Proof.
  induction (N.lt_wf_0 n) as [n _ IH]. intros acc.
  destruct (decide (n = 0%N)) as [->|Hn].
  - exists []. rewrite pretty_N_go_0. repeat split; [constructor|lia].
  - rewrite pretty_N_go_step by lia.
    destruct (IH (n `div` 10)%N ltac:(apply N.div_lt; lia)
                (String (pretty_N_char (n `mod` 10)) acc))
      as (ds & E & Hlt & Hv & Hnil & Hhd).
    exists (ds ++ [(n `mod` 10)%N]). split; [|split; [|split; [|split]]].
    + rewrite E, map_app. cbn [map str list_ascii_of_string]. now rewrite <- app_assoc.
    + apply Forall_app. split; [exact Hlt|].
      constructor; [apply N.mod_lt; lia|constructor].
    + rewrite digits_value_snoc, Hv. symmetry. apply N.div_mod. lia.
    + intros ->. lia.
    + intros _. destruct (decide (n `div` 10 = 0)%N) as [E0|Hpos].
      * rewrite (Hnil E0). exists (n `mod` 10)%N, []. split; [reflexivity|].
        pose proof (N.div_mod n 10 ltac:(lia)). lia.
      * destruct (Hhd ltac:(lia)) as (d & ds' & -> & Hd).
        exists d, (ds' ++ [(n `mod` 10)%N]). split; [reflexivity|exact Hd].
Qed.

Lemma pretty_N_digits (n : N) :
  exists d ds,
    str (pretty n) = map pretty_N_char (d :: ds) /\
    Forall (fun d => d < 10)%N (d :: ds) /\
    JSON.digits_value (d :: ds) = n /\
    JSON.canonical_digits (d :: ds) = true.
Proof.
  unfold pretty, pretty_N. destruct (decide (n = 0%N)) as [->|Hn].
  - exists 0%N, []. repeat split. constructor; [lia|constructor].
  - destruct (pretty_N_go_digits n "") as (ds & E & Hlt & Hv & _ & Hhd).
    destruct (Hhd ltac:(lia)) as (d & ds' & -> & Hd).
    exists d, ds'. rewrite E, app_nil_r. repeat split; [exact Hlt|exact Hv|].
    cbn [JSON.canonical_digits]. destruct ds'; [reflexivity|].
    now apply negb_true_iff, N.eqb_neq.
Qed.

Lemma read_digits_pretty ds rest :
  Forall (fun d => d < 10)%N ds -> ends_value rest ->
  JSON.read_digits (map pretty_N_char ds ++ rest) = (ds, rest).
Proof.
  intros Hds Hrest. induction Hds as [|d ds Hd _ IH].
  - cbn [map app]. destruct rest as [|c rest]; [reflexivity|].
    cbn [JSON.read_digits]. now destruct Hrest as [-> | ->].
  - cbn [map app JSON.read_digits]. now rewrite (digit_of_pretty d Hd), IH.
Qed.

Lemma digit_not_minus d : (d < 10)%N -> Ascii.eqb (pretty_N_char d) "-"%char = false.
Proof.
  intros H.
  assert (d = 0 \/ d = 1 \/ d = 2 \/ d = 3 \/ d = 4 \/ d = 5 \/ d = 6 \/ d = 7
          \/ d = 8 \/ d = 9)%N as Hd by lia.
  repeat (destruct Hd as [->|Hd]; [reflexivity|]). now subst.
Qed.

Lemma read_number_digits (negative : bool) d ds rest :
  Forall (fun d => d < 10)%N (d :: ds) -> JSON.canonical_digits (d :: ds) = true ->
  (Z.of_N (JSON.digits_value (d :: ds)) <= 9007199254740992)%Z ->
  ends_value rest ->
  JSON.read_number
    ((if negative then ["-"%char] else []) ++ map pretty_N_char (d :: ds) ++ rest)
  = Some (if negative then (- Z.of_N (JSON.digits_value (d :: ds)))%Z
          else Z.of_N (JSON.digits_value (d :: ds)), rest).
Proof.
  intros Hds Hc Hmax Hrest. unfold JSON.read_number.
  set (text := map pretty_N_char (d :: ds) ++ rest).
  assert (Hsign : (match (if negative then ["-"%char] else []) ++ text with
                   | c :: r => if Ascii.eqb c "-"%char then (true, r)
                               else (false, (if negative then ["-"%char] else []) ++ text)
                   | [] => (false, (if negative then ["-"%char] else []) ++ text)
                   end) = (negative, text)).
  { destruct negative; [reflexivity|]. cbn [app]. unfold text. cbn [map app].
    inversion Hds as [|? ? Hd _]; subst. now rewrite digit_not_minus. }
  rewrite Hsign. unfold text. rewrite (read_digits_pretty _ _ Hds Hrest), Hc.
  cbn [negb].
  destruct rest as [|c r].
  - cbn [mbind option_bind]. rewrite app_nil_r.
    change (0 <=? 0 - Z.of_nat (length (@nil N)))%Z with true.
    change (0 - Z.of_nat (length (@nil N)))%Z with 0%Z.
    rewrite Z.pow_0_r, Z.mul_1_r. cbn [mbind option_bind].
    apply Z.leb_le in Hmax. now rewrite Hmax.
  - assert (Hp : Ascii.eqb c "."%char = false) by now destruct Hrest as [-> | ->].
    assert (He : Ascii.eqb c "e"%char || Ascii.eqb c "E"%char = false)
      by now destruct Hrest as [-> | ->].
    rewrite Hp. cbn [mbind option_bind]. rewrite He. cbn [mbind option_bind].
    rewrite app_nil_r.
    change (0 <=? 0 - Z.of_nat (length (@nil N)))%Z with true.
    change (0 - Z.of_nat (length (@nil N)))%Z with 0%Z.
    rewrite Z.pow_0_r, Z.mul_1_r. cbn [mbind option_bind].
    apply Z.leb_le in Hmax. now rewrite Hmax.
Qed.

Lemma read_number_pretty (n : Z) rest :
  (Z.abs n <= 9007199254740992)%Z -> ends_value rest ->
  JSON.read_number (str (pretty n) ++ rest) = Some (n, rest).
Proof.
  intros Hn Hrest. destruct n as [|p|p].
  - apply (read_number_digits false 0%N [] rest); try easy.
    constructor; [lia|constructor].
  - change (pretty (Z.pos p)) with (pretty (N.pos p)).
    destruct (pretty_N_digits (N.pos p)) as (d & ds & E & Hds & Hv & Hc).
    rewrite E. pose proof (read_number_digits false d ds rest Hds Hc) as H.
    rewrite Hv in H. apply H; [|exact Hrest]. cbn in *. lia.
  - change (str (pretty (Z.neg p))) with ("-"%char :: str (pretty (N.pos p))).
    destruct (pretty_N_digits (N.pos p)) as (d & ds & E & Hds & Hv & Hc).
    rewrite E. pose proof (read_number_digits true d ds rest Hds Hc) as H.
    rewrite Hv in H. apply H; [|exact Hrest]. cbn in *. lia.
Qed.

(** *** Strings *)

Lemma read_string_quote_char c s :
  JSON.read_string (JSON.quote_char c ++ s)
  = '(r, rest) ← JSON.read_string s; Some (c :: r, rest).
Proof.
  destruct c as [[] [] [] [] [] [] [] []]; reflexivity.
Qed.

Lemma read_string_quoted s rest :
  JSON.read_string (flat_map JSON.quote_char s ++ JSON.QUOTE :: rest) = Some (s, rest).
Proof.
  induction s as [|c s IH]; [reflexivity|].
  cbn [flat_map]. rewrite <- app_assoc, read_string_quote_char, IH. reflexivity.
Qed.

(** *** Values *)

Lemma read_value_blank fuel w s :
  json_blank w -> JSON.read_value fuel (w ++ s) = JSON.read_value fuel s.
Proof.
  intros Hw. destruct fuel as [|fuel]; [reflexivity|].
  cbn [JSON.read_value]. now rewrite skip_ws_blank.
Qed.

Lemma read_members_blank n rv w s :
  json_blank w -> JSON.read_members n rv (w ++ s) = JSON.read_members n rv s.
Proof.
  intros Hw. destruct n as [|n]; [reflexivity|].
  cbn [JSON.read_members]. now rewrite skip_ws_blank.
Qed.

Lemma digit_opens_value d : (d < 10)%N -> opens_value (pretty_N_char d).
Proof.
  intros H.
  assert (d = 0 \/ d = 1 \/ d = 2 \/ d = 3 \/ d = 4 \/ d = 5 \/ d = 6 \/ d = 7
          \/ d = 8 \/ d = 9)%N as Hd by lia.
  repeat (destruct Hd as [->|Hd]; [repeat split|]). subst. repeat split.
Qed.

Lemma quote_char_head c : exists a t, JSON.quote_char c = a :: t.
Proof. destruct c as [[] [] [] [] [] [] [] []]; eexists _, _; reflexivity. Qed.

Lemma SerializeJSONProperty_head indent v :
  exists c t, JSON.SerializeJSONProperty indent v = c :: t /\ opens_value c.
Proof.
  destruct v as [| [] | n | s | [|i items] | [|f fields]];
    try (eexists _, _; split; [reflexivity|repeat split]).
  destruct n as [|p|p].
  - eexists _, _. split; [reflexivity|repeat split].
  - cbn [JSON.SerializeJSONProperty].
    change (pretty (Z.pos p)) with (pretty (N.pos p)).
    destruct (pretty_N_digits (N.pos p)) as (d & ds & E & Hds & _).
    rewrite E. eexists _, _. split; [reflexivity|].
    apply digit_opens_value. now inversion Hds.
  - eexists _, _. split; [reflexivity|repeat split].
Qed.

(** A number, read where a value is expected. *)
Lemma read_value_number fuel c s :
  JSON.is_digit c || Ascii.eqb c "-"%char = true ->
  JSON.read_value (S fuel) (c :: s)
  = '(n, rest) ← JSON.read_number (c :: s); Some (JNum n, rest).
Proof.
  intros H. destruct c as [[] [] [] [] [] [] [] []]; try discriminate H; reflexivity.
Qed.

Lemma weight_pos v : 1 <= weight v.
Proof. destruct v; simpl; lia. Qed.

Lemma list_sum_weight {A} (f : A -> nat) l :
  (forall x, 1 <= f x) ->
  length l <= list_sum (map f l) /\ Forall (fun x => f x <= list_sum (map f l)) l.
Proof.
  intros Hf. induction l as [|x l [IH1 IH2]]; [split; [reflexivity|constructor]|].
  simpl. pose proof (Hf x). split; [lia|].
  constructor; [lia|]. eapply Forall_impl; [exact IH2|]. cbn beta. intros; lia.
Qed.

Section WrittenElements.
Variable read_value : jsstring -> option (json * jsstring).
Hypothesis read_value_skips :
  forall w s, json_blank w -> read_value (w ++ s) = read_value s.

Lemma read_elements_written (ser : json -> jsstring) items :
  Forall (fun v => forall rest, ends_value rest ->
                   read_value (ser v ++ rest) = Some (v, rest)) items ->
  forall n w inner stepback rest,
    items <> [] -> length items <= n -> json_blank w ->
    JSON.read_elements n read_value
      (w ++ join (","%char :: LF :: repeat SP inner) (map ser items)
         ++ LF :: repeat SP stepback ++ "]"%char :: rest)
    = Some (items, rest).
Proof.
  induction 1 as [|v items Hv _ IH]; intros n w inner stepback rest Hne Hlen Hw;
    [congruence|].
  destruct n as [|n]; [cbn in Hlen; lia|]. cbn [JSON.read_elements].
  rewrite read_value_skips by exact Hw.
  destruct items as [|v' items].
  - cbn [map join]. rewrite Hv by (now right). cbn [mbind option_bind].
    change (LF :: repeat SP stepback ++ "]"%char :: rest)
      with ((LF :: repeat SP stepback) ++ "]"%char :: rest).
    rewrite skip_ws_blank by apply json_blank_indent. reflexivity.
  - cbn [map]. rewrite join_cons_cons, <- !app_assoc.
    rewrite Hv by (now left). cbn [mbind option_bind app JSON.skip_ws].
    change (JSON.is_json_ws ","%char) with false. cbn match.
    change (Ascii.eqb ","%char ","%char) with true. cbn match.
    change (LF :: repeat SP inner ++ ?x) with ((LF :: repeat SP inner) ++ x).
    pose proof (IH n (LF :: repeat SP inner) inner stepback rest
                  ltac:(discriminate) ltac:(cbn in *; lia) (json_blank_indent inner))
      as IH'.
    cbn [map] in IH'. now rewrite IH'.
Qed.

Lemma read_members_written (ser : json -> jsstring) fields :
  Forall (fun f => forall rest, ends_value rest ->
                   read_value (ser (snd f) ++ rest) = Some (snd f, rest)) fields ->
  forall n w inner stepback rest,
    fields <> [] -> length fields <= n -> json_blank w ->
    JSON.read_members n read_value
      (w ++ join (","%char :: LF :: repeat SP inner)
              (map (fun f => JSON.QuoteJSONString (fst f) ++ str ": " ++ ser (snd f))
                   fields)
         ++ LF :: repeat SP stepback ++ "}"%char :: rest)
    = Some (fields, rest).
Proof.
  induction 1 as [|[k v] fields Hv _ IH]; intros n w inner stepback rest Hne Hlen Hw;
    [congruence|].
  destruct n as [|n]; [cbn in Hlen; lia|].
  rewrite read_members_blank by exact Hw. cbn [fst snd] in Hv.
  assert (Hmember : forall tail, ends_value tail ->
            forall K : option (list (jsstring * json) * jsstring),
            (match JSON.skip_ws tail with
             | d :: rest' =>
                 if Ascii.eqb d ","%char then
                   '(ms, r) ← JSON.read_members n read_value rest';
                   Some ((k, v) :: ms, r)
                 else if Ascii.eqb d "}"%char then Some ([(k, v)], rest')
                 else None
             | [] => None
             end) = K ->
            JSON.read_members (S n) read_value
              (JSON.QuoteJSONString k ++ str ": " ++ ser v ++ tail) = K).
  { intros tail Htail K HK. cbn [JSON.read_members]. unfold JSON.QuoteJSONString.
    cbn [app JSON.skip_ws].
    change (JSON.is_json_ws JSON.QUOTE) with false. cbn match.
    change (Ascii.eqb JSON.QUOTE JSON.QUOTE) with true. cbn match.
    rewrite <- app_assoc. cbn [app]. rewrite read_string_quoted.
    cbn [mbind option_bind str list_ascii_of_string app JSON.skip_ws].
    change (JSON.is_json_ws ":"%char) with false. cbn match.
    change (Ascii.eqb ":"%char ":"%char) with true. cbn match.
    change (" "%char :: ser v ++ tail) with ([SP] ++ ser v ++ tail).
    rewrite read_value_skips by (constructor; [reflexivity|constructor]).
    rewrite Hv by exact Htail. cbn [mbind option_bind]. exact HK. }
  destruct fields as [|f' fields].
  - cbn [map join fst snd]. rewrite <- !app_assoc. apply Hmember; [now right|].
    change (LF :: repeat SP stepback ++ "}"%char :: rest)
      with ((LF :: repeat SP stepback) ++ "}"%char :: rest).
    rewrite skip_ws_blank by apply json_blank_indent. reflexivity.
  - cbn [map]. rewrite join_cons_cons. cbn [fst snd]. rewrite <- !app_assoc.
    apply Hmember; [now left|]. cbn [app JSON.skip_ws].
    change (JSON.is_json_ws ","%char) with false. cbn match.
    change (Ascii.eqb ","%char ","%char) with true. cbn match.
    change (LF :: repeat SP inner ++ ?x) with ((LF :: repeat SP inner) ++ x).
    pose proof (IH n (LF :: repeat SP inner) inner stepback rest
                  ltac:(discriminate) ltac:(cbn in *; lia) (json_blank_indent inner))
      as IH'.
    cbn [map] in IH'. now rewrite IH'.
Qed.
End WrittenElements.

(** *** Objects *)

Lemma define_property_new k v fields :
  Forall (fun f => eqs (fst f) k = false /\ JSON.key_before k (fst f) = false) fields ->
  JSON.define_property k v fields = fields ++ [(k, v)].
Proof.
  induction 1 as [|[k' v'] fields [Hk Hb] _ IH]; [reflexivity|].
  cbn [JSON.define_property app fst] in *. now rewrite Hk, Hb, IH.
Qed.

Lemma own_property_order_snoc keys k :
  own_property_order (keys ++ [k]) = true ->
  own_property_order keys = true /\
  Forall (fun k0 => eqs k0 k = false /\ JSON.key_before k k0 = false) keys.
Proof.
  induction keys as [|k0 keys IH]; [now split|].
  cbn [app own_property_order]. intros H.
  apply andb_true_iff in H as [H1 H2]. destruct (IH H2) as [IH1 IH2].
  rewrite forallb_app in H1. apply andb_true_iff in H1 as [H1 H3].
  cbn [forallb] in H3. rewrite andb_true_r in H3.
  apply andb_true_iff in H3 as [Ha Hb]. split.
  - cbn [own_property_order]. now rewrite H1, IH1.
  - constructor; [|exact IH2]. split; now apply negb_true_iff.
Qed.

Lemma object_of_ordered fields :
  own_property_order (map fst fields) = true ->
  JSON.object_of fields = JObj fields.
Proof.
  intros H. unfold JSON.object_of. f_equal.
  induction fields as [|[k v] fields IH] using rev_ind; [reflexivity|].
  rewrite map_app in H. cbn [map fst] in H.
  apply own_property_order_snoc in H as [H1 H2].
  rewrite fold_left_app. cbn [fold_left fst snd]. rewrite (IH H1).
  apply define_property_new. apply Forall_forall. intros f Hf.
  rewrite Forall_forall in H2. apply (H2 (fst f)).
  apply list_elem_of_In, in_map, list_elem_of_In, Hf.
Qed.

(** *** Reading what was written *)

Lemma read_value_string fuel s :
  JSON.read_value (S fuel) (JSON.QUOTE :: s)
  = '(r, rest) ← JSON.read_string s; Some (JStr r, rest).
Proof. reflexivity. Qed.

Lemma read_value_array fuel s :
  JSON.read_value (S fuel) ("["%char :: s)
  = match JSON.skip_ws s with
    | d :: s2 =>
        if Ascii.eqb d "]"%char then Some (JArr [], s2)
        else
          '(vs, rest) ← JSON.read_elements fuel (JSON.read_value fuel) s;
          Some (JArr vs, rest)
    | [] => None
    end.
Proof. reflexivity. Qed.

Lemma read_value_object fuel s :
  JSON.read_value (S fuel) ("{"%char :: s)
  = match JSON.skip_ws s with
    | d :: s2 =>
        if Ascii.eqb d "}"%char then Some (JObj [], s2)
        else
          '(ms, rest) ← JSON.read_members fuel (JSON.read_value fuel) s;
          Some (JSON.object_of ms, rest)
    | [] => None
    end.
Proof. reflexivity. Qed.

Lemma pretty_Z_head (n : Z) :
  exists c t, str (pretty n) = c :: t
              /\ JSON.is_digit c || Ascii.eqb c "-"%char = true.
Proof.
  destruct n as [|p|p].
  - eexists _, _. split; reflexivity.
  - change (pretty (Z.pos p)) with (pretty (N.pos p)).
    destruct (pretty_N_digits (N.pos p)) as (d & ds & E & Hds & _).
    rewrite E. eexists _, _. split; [reflexivity|].
    inversion Hds as [|? ? Hd _]; subst. unfold JSON.is_digit.
    now rewrite (digit_of_pretty d Hd).
  - eexists _, _. split; reflexivity.
Qed.

Lemma join_head sep p ps : exists t, join sep (p :: ps) = p ++ t.
Proof.
  destruct ps as [|q ps].
  - exists []. cbn [join]. now rewrite app_nil_r.
  - eexists. apply join_cons_cons.
Qed.

Lemma read_value_array_open fuel s c t :
  JSON.skip_ws s = c :: t -> Ascii.eqb c "]"%char = false ->
  JSON.read_value (S fuel) ("["%char :: s)
  = '(vs, rest) ← JSON.read_elements fuel (JSON.read_value fuel) s;
    Some (JArr vs, rest).
Proof. intros H1 H2. now rewrite read_value_array, H1, H2. Qed.

Lemma read_value_object_open fuel s c t :
  JSON.skip_ws s = c :: t -> Ascii.eqb c "}"%char = false ->
  JSON.read_value (S fuel) ("{"%char :: s)
  = '(ms, rest) ← JSON.read_members fuel (JSON.read_value fuel) s;
    Some (JSON.object_of ms, rest).
Proof. intros H1 H2. now rewrite read_value_object, H1, H2. Qed.

Lemma skip_ws_opens w c t x :
  json_blank w -> JSON.is_json_ws c = false ->
  JSON.skip_ws (w ++ (c :: t) ++ x) = c :: t ++ x.
Proof. intros Hw Hc. rewrite skip_ws_blank by exact Hw. cbn [app JSON.skip_ws]. now rewrite Hc. Qed.

Lemma read_value_written v :
  js_value v = true ->
  forall fuel indent rest,
    weight v <= fuel -> ends_value rest ->
    JSON.read_value fuel (JSON.SerializeJSONProperty indent v ++ rest) = Some (v, rest).
Proof.
  induction v as [| b | n | s | items IH | fields IH] using json_ind';
    intros Hv fuel indent rest Hfuel Hrest;
    (destruct fuel as [|fuel]; [simpl in Hfuel; lia|]).
  - reflexivity.
  - destruct b; reflexivity.
  - cbn [JSON.SerializeJSONProperty].
    destruct (pretty_Z_head n) as (c & t & E & Hc).
    rewrite E. cbn [app]. rewrite (read_value_number _ _ _ Hc).
    change (c :: t ++ rest) with ((c :: t) ++ rest). rewrite <- E.
    rewrite read_number_pretty; [reflexivity| |exact Hrest].
    cbn [js_value] in Hv. now apply Z.leb_le.
  - cbn [JSON.SerializeJSONProperty]. unfold JSON.QuoteJSONString.
    cbn [app]. rewrite read_value_string, <- app_assoc. cbn [app].
    now rewrite read_string_quoted.
  - destruct items as [|v0 items]; [reflexivity|].
    cbn [js_value] in Hv. rewrite forallb_forall in Hv.
    cbn [weight] in Hfuel.
    destruct (list_sum_weight weight (v0 :: items) weight_pos) as [Hlen Hw].
    cbn [JSON.SerializeJSONProperty].
    set (ser := JSON.SerializeJSONProperty (indent + 2)).
    cbn [str list_ascii_of_string app]. repeat (rewrite <- !app_assoc; cbn [app]).
    change (LF :: repeat SP (indent + 2) ++ ?x)
      with ((LF :: repeat SP (indent + 2)) ++ x).
    destruct (join_head (","%char :: LF :: repeat SP (indent + 2))
                (ser v0) (map ser items)) as [t Et].
    destruct (SerializeJSONProperty_head (indent + 2) v0) as (c & t0 & Ec & Hc1 & Hc2 & _).
    fold ser in Ec.
    erewrite read_value_array_open; [| |exact Hc2].
    2:{ cbn [map]. rewrite Et, Ec, <- !app_assoc.
        apply skip_ws_opens; [apply json_blank_indent|exact Hc1]. }
    rewrite (read_elements_written (JSON.read_value fuel)
               (fun w s => read_value_blank fuel w s) ser (v0 :: items));
      [reflexivity| |discriminate|lia|apply json_blank_indent].
    apply Forall_forall. intros v Hin rest' Hrest'.
    rewrite Forall_forall in IH, Hw. apply (IH v Hin); [|pose proof (Hw v Hin); lia|exact Hrest'].
    apply Hv, list_elem_of_In, Hin.
  - destruct fields as [|f0 fields]; [reflexivity|].
    cbn [js_value] in Hv. apply andb_true_iff in Hv as [Hord Hv].
    rewrite forallb_forall in Hv. cbn [weight] in Hfuel.
    destruct (list_sum_weight (fun f : jsstring * json => weight (snd f))
                (f0 :: fields) (fun f => weight_pos (snd f))) as [Hlen Hw].
    cbn [JSON.SerializeJSONProperty].
    set (ser := JSON.SerializeJSONProperty (indent + 2)).
    set (member := fun f : jsstring * json =>
                     JSON.QuoteJSONString (fst f) ++ str ": " ++ ser (snd f)).
    cbn [str list_ascii_of_string app]. repeat (rewrite <- !app_assoc; cbn [app]).
    change (LF :: repeat SP (indent + 2) ++ ?x)
      with ((LF :: repeat SP (indent + 2)) ++ x).
    destruct (join_head (","%char :: LF :: repeat SP (indent + 2))
                (member f0) (map member fields)) as [t Et].
    erewrite (read_value_object_open fuel _ JSON.QUOTE); [| |reflexivity].
    2:{ cbn [map]. rewrite Et. unfold member at 1. unfold JSON.QuoteJSONString.
        rewrite <- !app_assoc. cbn [app].
        change (LF :: repeat SP (indent + 2) ++ JSON.QUOTE :: ?x ++ ?y)
          with ((LF :: repeat SP (indent + 2)) ++ (JSON.QUOTE :: x) ++ y).
        apply skip_ws_opens; [apply json_blank_indent|reflexivity]. }
    rewrite (read_members_written (JSON.read_value fuel)
               (fun w s => read_value_blank fuel w s) ser (f0 :: fields));
      [|  |discriminate|lia|apply json_blank_indent].
    + cbn [mbind option_bind]. rewrite object_of_ordered by exact Hord. reflexivity.
    + apply Forall_forall. intros f Hin rest' Hrest'.
      rewrite Forall_forall in IH, Hw.
      apply (IH f Hin); [|pose proof (Hw f Hin); lia|exact Hrest'].
      apply Hv, list_elem_of_In, Hin.
Qed.

Lemma join_length sep parts :
  list_sum (map (@length ascii) parts) <= length (join sep parts).
Proof.
  induction parts as [|p [|q parts] IH]; [reflexivity|simpl; lia|].
  rewrite join_cons_cons. cbn [map list_sum] in *. rewrite !length_app.
  change (list_sum (length p :: length q :: map length parts))
    with (length p + list_sum (length q :: map length parts)). lia.
Qed.

Lemma list_sum_le {A} (f g : A -> nat) l :
  Forall (fun x => f x <= g x) l -> list_sum (map f l) <= list_sum (map g l).
Proof. induction 1; simpl; lia. Qed.

Lemma weight_written v : forall indent,
  weight v <= length (JSON.SerializeJSONProperty indent v).
Proof.
  induction v as [| b | n | s | items IH | fields IH] using json_ind'; intros indent.
  - cbn; lia.
  - destruct b; cbn; lia.
  - destruct (pretty_Z_head n) as (c & t & E & _). cbn [JSON.SerializeJSONProperty weight].
    rewrite E. cbn [length]. lia.
  - cbn [JSON.SerializeJSONProperty weight]. unfold JSON.QuoteJSONString.
    cbn [app length]. lia.
  - destruct items as [|v0 items]; [cbn; lia|].
    cbn [JSON.SerializeJSONProperty weight].
    set (sep := str "," ++ [LF] ++ repeat SP (indent + 2)).
    pose proof (join_length sep
                  (map (JSON.SerializeJSONProperty (indent + 2)) (v0 :: items))) as Hj.
    rewrite map_map in Hj.
    pose proof (list_sum_le weight
                  (fun v => length (JSON.SerializeJSONProperty (indent + 2) v))
                  (v0 :: items)) as Hs.
    rewrite !length_app. cbn [str list_ascii_of_string length].
    enough (list_sum (map weight (v0 :: items))
            <= list_sum (map (fun v => length (JSON.SerializeJSONProperty (indent + 2) v))
                           (v0 :: items))) by lia.
    apply Hs. eapply Forall_impl; [exact IH|]. cbn beta. intros v Hv. apply Hv.
  - destruct fields as [|f0 fields]; [cbn; lia|].
    cbn [JSON.SerializeJSONProperty weight].
    set (sep := str "," ++ [LF] ++ repeat SP (indent + 2)).
    set (member := fun f : jsstring * json =>
                     JSON.QuoteJSONString (fst f) ++ str ": "
                     ++ JSON.SerializeJSONProperty (indent + 2) (snd f)).
    pose proof (join_length sep (map member (f0 :: fields))) as Hj.
    rewrite map_map in Hj.
    pose proof (list_sum_le (fun f : jsstring * json => weight (snd f))
                  (fun f => length (member f)) (f0 :: fields)) as Hs.
    rewrite !length_app. cbn [str list_ascii_of_string length].
    enough (list_sum (map (fun f : jsstring * json => weight (snd f)) (f0 :: fields))
            <= list_sum (map (fun f => length (member f)) (f0 :: fields))) by lia.
    apply Hs. eapply Forall_impl; [exact IH|]. cbn beta. intros f Hf.
    unfold member. rewrite !length_app. pose proof (Hf (indent + 2)). lia.
Qed.

(** [JSON.parse] reads back what [JSON.stringify] wrote for a value. *)
Lemma parse_stringify v :
  js_value v = true -> JSON.parse (JSON.stringify v) = Some v.
Proof.
  intros Hv. unfold JSON.parse, JSON.stringify.
  pose proof (read_value_written v Hv
                (S (length (JSON.SerializeJSONProperty 0 v))) 0 []) as H.
  rewrite app_nil_r in H. rewrite H; [reflexivity| |exact I].
  pose proof (weight_written v 0). lia.
Qed.

Lemma exportData_js_value created data :
  forallb js_value (items_of (x_nodes data)) = true ->
  forallb js_value (items_of (x_edges data)) = true ->
  js_value (metadata_or_empty (x_metadata data)) = true ->
  js_value (exportData created data) = true.
Proof.
  intros Hn He Hm. unfold exportData.
  cbn [js_value map fst snd forallb]. rewrite Hn, He, Hm.
  vm_compute. reflexivity.
Qed.

(** C7: importing what was exported gives back the nodes, the edges and
    the metadata bag of the document, whether the collections are data
    sets or arrays; a document without a metadata bag comes back with an
    empty one.  [JSON.stringify] and [JSON.parse] are the functions of the
    platform; the data are values of JavaScript. *)
Theorem importFromJSON_exportToJSON (created : jsstring)
  (nodes_in_data_set edges_in_data_set : bool) (ns es : list json)
  (metadata : option (list (jsstring * json))) :
  forallb js_value ns = true ->
  forallb js_value es = true ->
  js_value (JObj (default [] metadata)) = true ->
  importFromJSON JSON.parse
    (exportToJSON JSON.stringify created
       {| x_nodes := if nodes_in_data_set then OfDataSet ns else OfArray ns;
          x_edges := if edges_in_data_set then OfDataSet es else OfArray es;
          x_metadata := JObj <$> metadata |})
  = Some {| m_nodes := JArr ns; m_edges := JArr es;
            m_metadata := JObj (default [] metadata) |}.
Proof.
  intros Hn He Hm.
  set (data := {| x_nodes := if nodes_in_data_set then OfDataSet ns else OfArray ns;
                  x_edges := if edges_in_data_set then OfDataSet es else OfArray es;
                  x_metadata := JObj <$> metadata |}).
  assert (En : items_of (x_nodes data) = ns) by (now destruct nodes_in_data_set).
  assert (Ee : items_of (x_edges data) = es) by (now destruct edges_in_data_set).
  assert (Em : metadata_or_empty (x_metadata data) = JObj (default [] metadata))
    by (now destruct metadata).
  unfold importFromJSON, importFromJSON_body, exportToJSON.
  rewrite parse_stringify
    by (apply exportData_js_value; rewrite ?En, ?Ee, ?Em; assumption).
  unfold exportData. rewrite En, Ee, Em.
  reflexivity.
Qed.

Lemma importFromJSON_exportToJSON_witness :
  importFromJSON JSON.parse
    (exportToJSON JSON.stringify (str "2024-05-01T10:00:00.000Z") sample_export)
  = Some {| m_nodes := JArr sample_nodes; m_edges := JArr sample_edges;
            m_metadata := JObj sample_metadata |}.
Proof.
  apply (importFromJSON_exportToJSON (str "2024-05-01T10:00:00.000Z") true true
           sample_nodes sample_edges (Some sample_metadata)); reflexivity.
Defined.

(** ** Outlines: writing and parsing *)

Lemma rose_ind' (P : rose -> Prop) :
  (forall x ks, Forall P ks -> P (Rose x ks)) -> forall t, P t.
Proof.
  intros H. fix IH 1. intros [x ks]. apply H.
  induction ks as [|k ks IHks]; constructor; [apply IH|exact IHks].
Qed.

Lemma task_ind' (P : task -> Prop) :
  (forall x l cs, Forall P cs -> P (Task x l cs)) -> forall t, P t.
Proof.
  intros H. fix IH 1. intros [x l cs]. apply H.
  induction cs as [|c cs IHcs]; constructor; [apply IH|exact IHcs].
Qed.

Lemma flat_map_flat_map {A B C} (f : A -> list B) (g : B -> list C) l :
  flat_map g (flat_map f l) = flat_map (fun x => flat_map g (f x)) l.
Proof.
  induction l as [|x l IH]; simpl; [reflexivity|].
  now rewrite flat_map_app, IH.
Qed.

Lemma flat_map_ext_Forall {A B} (f g : A -> list B) l :
  Forall (fun x => f x = g x) l -> flat_map f l = flat_map g l.
Proof.
  induction 1 as [|x l Hx _ IH]; simpl; [reflexivity|]. now rewrite Hx, IH.
Qed.

Lemma render_entries t : forall d,
  render d t = flat_map (fun e => entry_line e ++ [LF]) (entries d t).
Proof.
  induction t as [x ks IH] using rose_ind'. intros d.
  cbn [render entries flat_map]. unfold entry_line at 1. cbn [fst snd].
  rewrite <- !app_assoc. do 3 f_equal.
  rewrite flat_map_flat_map. apply flat_map_ext_Forall.
  eapply Forall_impl; [exact IH|]. intros t Ht. apply Ht.
Qed.

Lemma render_forest_entries d F :
  render_forest d F
    = flat_map (fun e => entry_line e ++ [LF]) (flat_map (entries d) F).
Proof.
  unfold render_forest. rewrite flat_map_flat_map.
  apply flat_map_ext_Forall, Forall_forall. intros t _. apply render_entries.
Qed.

(** Splitting a text that was written line by line. *)
Lemma split_lines_line l rest :
  line_ok l -> split_lines (l ++ LF :: rest) = l :: split_lines rest.
Proof.
  intros [Hlf Hcr]. induction l as [|c l IH].
  - reflexivity.
  - assert (Hc : Ascii.eqb c LF = false).
    { apply Ascii.eqb_neq. intros ->. apply Hlf. now left. }
    assert (IH' : split_lines (l ++ LF :: rest) = l :: split_lines rest).
    { apply IH.
      - intros H. apply Hlf. now right.
      - intros H. apply Hcr. destruct l; [discriminate|exact H]. }
    change ((c :: l) ++ LF :: rest) with (c :: (l ++ LF :: rest)).
    cbn [split_lines]. rewrite Hc, IH'.
    destruct l as [|d l]; cbn [app].
    + destruct (Ascii.eqb c CR) eqn:E; [|reflexivity].
      apply Ascii.eqb_eq in E as ->. now destruct Hcr.
    + assert (Hd : Ascii.eqb d LF = false).
      { apply Ascii.eqb_neq. intros ->. apply Hlf. right. now left. }
      rewrite Hd, andb_false_r. reflexivity.
Qed.

Lemma split_lines_unlines ls :
  Forall line_ok ls ->
  split_lines (flat_map (fun l => l ++ [LF]) ls) = ls ++ [[]].
Proof.
  induction 1 as [|l ls Hl _ IH]; [reflexivity|].
  cbn [flat_map]. rewrite <- app_assoc. cbn [app].
  now rewrite split_lines_line, IH.
Qed.

Lemma flat_map_map {A B C} (f : A -> B) (g : B -> list C) l :
  flat_map g (map f l) = flat_map (fun x => g (f x)) l.
Proof. induction l as [|x l IH]; simpl; [reflexivity|]. now rewrite IH. Qed.

(** The indentation and the text of a written line. *)
Lemma is_ws_SP : is_ws SP = true.
Proof. reflexivity. Qed.

Lemma tight_head x : tight x -> exists c x', x = c :: x' /\ is_ws c = false.
Proof.
  intros (Hne & H & _). destruct x as [|c x']; [congruence|].
  exists c, x'. split; [reflexivity|]. now apply drop_ws_fix_head in H.
Qed.

Lemma take_ws_indent d x :
  tight x -> take_ws (repeat_str (str "  ") d ++ x) = repeat_str (str "  ") d.
Proof.
  intros Hx. induction d as [|d IH]; cbn [repeat_str].
  - destruct (tight_head x Hx) as (c & x' & -> & Hc). simpl. now rewrite Hc.
  - change (str "  ") with [SP; SP]. cbn [app take_ws]. rewrite is_ws_SP.
    change (repeat_str [SP; SP] d) with (repeat_str (str "  ") d). now rewrite IH.
Qed.

Lemma repeat_str_spaces d : repeat_str (str "  ") d = repeat SP (2 * d).
Proof.
  induction d as [|d IH]; [reflexivity|].
  cbn [repeat_str]. rewrite IH.
  replace (2 * S d) with (S (S (2 * d))) by lia. reflexivity.
Qed.

Lemma expand_tabs_spaces w n : expand_tabs w (repeat SP n) = repeat SP n.
Proof.
  unfold expand_tabs. induction n as [|n IH]; [reflexivity|].
  cbn [repeat flat_map]. now rewrite IH.
Qed.

Lemma indent_level w d x :
  tight x ->
  length (expand_tabs w (take_ws (repeat_str (str "  ") d ++ x))) / 2 = d.
Proof.
  intros Hx. rewrite take_ws_indent by exact Hx.
  rewrite repeat_str_spaces, expand_tabs_spaces, repeat_length.
  rewrite Nat.mul_comm. now apply Nat.div_mul.
Qed.

Lemma drop_ws_indent d x : drop_ws (repeat_str (str "  ") d ++ x) = drop_ws x.
Proof.
  rewrite repeat_str_spaces. induction (2 * d) as [|n IH]; [reflexivity|].
  cbn [repeat app drop_ws]. now rewrite is_ws_SP.
Qed.

Lemma trim_indent d x : tight x -> trim (repeat_str (str "  ") d ++ x) = x.
Proof.
  intros Hx. unfold trim. rewrite drop_ws_indent. now apply trim_tight.
Qed.

Lemma parse_line_entry st e :
  tight (snd e) -> parse_line st (entry_line e) = parse_entry st e.
Proof.
  intros Hx. unfold parse_line, parse_entry, entry_line, getIndentLevel.
  rewrite indent_level, trim_indent by exact Hx.
  now rewrite (tight_truthy _ Hx).
Qed.

(** The stack of the parser on the lines of an outline. *)
Lemma stack_to_S k : stack_to (S k) = k :: stack_to k.
Proof.
  unfold stack_to. rewrite seq_S, rev_app_distr. reflexivity.
Qed.

Lemma stack_to_length k : length (stack_to k) = k.
Proof. unfold stack_to. now rewrite length_rev, length_seq. Qed.

Lemma pop_while_stack_to d k : d <= k -> pop_while d (stack_to k) = stack_to d.
Proof.
  induction k as [|k IH]; intros Hd.
  - replace d with 0 by lia. reflexivity.
  - rewrite stack_to_S. cbn [pop_while].
    destruct (d <=? k) eqn:E.
    + apply IH. now apply Nat.leb_le.
    + apply Nat.leb_gt in E. replace d with (S k) by lia. now rewrite stack_to_S.
Qed.

Lemma update_last_snoc {A} (g : A -> A) l x :
  update_last g (l ++ [x]) = l ++ [g x].
Proof.
  induction l as [|y l IH]; [reflexivity|].
  cbn [app update_last]. rewrite IH.
  destruct (l ++ [x]) eqn:E; [|reflexivity].
  now destruct l.
Qed.

Lemma last_snoc_inv {A} (l : list A) x :
  last l = Some x -> exists l', l = l' ++ [x].
Proof. intros H. now apply last_Some in H. Qed.

Lemma push_at_nest d : forall j c x l cs H,
  spine_ok d H ->
  push_at (S d + j) c (push_at d (Task x l cs) H)
    = push_at d (Task x l (push_at j c cs)) H.
Proof.
  induction d as [|d IH]; intros j c x l cs H Hs.
  - cbn [push_at Nat.add]. now rewrite update_last_snoc.
  - cbn [spine_ok] in Hs. destruct (last H) as [p|] eqn:El; [|contradiction].
    apply last_snoc_inv in El as [H0 ->].
    change (S (S d) + j) with (S (S d + j)).
    cbn [push_at]. rewrite !update_last_snoc. cbn [task_text task_level task_children].
    now rewrite IH.
Qed.

Lemma push_at_child d c x l cs H :
  spine_ok d H ->
  push_at (S d) c (push_at d (Task x l cs) H) = push_at d (Task x l (cs ++ [c])) H.
Proof.
  intros Hs. pose proof (push_at_nest d 0 c x l cs H Hs) as E.
  now rewrite Nat.add_0_r in E.
Qed.

Lemma spine_ok_push d : forall T H,
  spine_ok d H -> spine_ok (S d) (push_at d T H).
Proof.
  induction d as [|d IH]; intros T H Hs.
  - cbn [push_at spine_ok]. now rewrite last_snoc.
  - cbn [spine_ok] in Hs. destruct (last H) as [p|] eqn:El; [|contradiction].
    apply last_snoc_inv in El as [H0 ->].
    cbn [push_at]. rewrite update_last_snoc.
    change (spine_ok (S (S d)) ?X) with
      (match last X with Some p => spine_ok (S d) (task_children p) | None => False end).
    rewrite last_snoc. cbn [task_children]. now apply IH.
Qed.

Lemma parse_entry_step d x H k :
  d <= k ->
  parse_entry (ParserState H (stack_to k)) (d, x)
    = ParserState (push_at d (Task x d []) H) (stack_to (S d)).
Proof.
  intros Hd. unfold parse_entry. cbn [fst snd ps_stack ps_hierarchy].
  now rewrite pop_while_stack_to, stack_to_length, stack_to_S.
Qed.

(** The lines of a tree, read at depth [d] with a spine of that depth,
    append the tree at that depth. *)
Lemma parse_entries_tree t : forall d H k,
  d <= k -> spine_ok d H ->
  exists k', d < k' /\
    fold_left parse_entry (entries d t) (ParserState H (stack_to k))
      = ParserState (push_at d (task_of d t) H) (stack_to k').
Proof.
  induction t as [x ks IH] using rose_ind'. intros d H k Hd Hs.
  cbn [entries fold_left task_of]. rewrite (parse_entry_step d x H k Hd).
  assert (Hkids : forall acc k1, S d <= k1 ->
    exists k', d < k' /\
      fold_left parse_entry (flat_map (entries (S d)) ks)
        (ParserState (push_at d (Task x d acc) H) (stack_to k1))
      = ParserState (push_at d (Task x d (acc ++ map (task_of (S d)) ks)) H)
          (stack_to k')).
  { induction IH as [|t ks Ht _ IHks]; intros acc k1 Hk1.
    - exists k1. split; [lia|]. cbn. now rewrite app_nil_r.
    - cbn [flat_map map]. rewrite fold_left_app.
      destruct (Ht (S d) (push_at d (Task x d acc) H) k1 Hk1) as (k2 & Hk2 & ->).
      { now apply spine_ok_push. }
      rewrite push_at_child by exact Hs.
      destruct (IHks (acc ++ [task_of (S d) t]) k2 ltac:(lia)) as (k3 & Hk3 & ->).
      exists k3. split; [exact Hk3|]. now rewrite <- app_assoc. }
  destruct (Hkids [] (S d) (le_n _)) as (k' & Hk' & ->).
  exists k'. split; [exact Hk'|reflexivity].
Qed.

Lemma parse_entries_forest F : forall acc k,
  exists k',
    fold_left parse_entry (flat_map (entries 0) F) (ParserState acc (stack_to k))
      = ParserState (acc ++ map (task_of 0) F) (stack_to k').
Proof.
  induction F as [|t F IH]; intros acc k.
  - exists k. cbn. now rewrite app_nil_r.
  - cbn [flat_map map]. rewrite fold_left_app.
    destruct (parse_entries_tree t 0 acc k) as (k1 & _ & ->); [lia|exact I|].
    cbn [push_at]. destruct (IH (acc ++ [task_of 0 t]) k1) as (k2 & ->).
    exists k2. now rewrite <- app_assoc.
Qed.

Lemma shape_of_task_of t : forall d, shape_of (task_of d t) = t.
Proof.
  induction t as [x ks IH] using rose_ind'. intros d.
  cbn [task_of shape_of]. f_equal. rewrite map_map.
  induction IH as [|t ks Ht _ IHks]; [reflexivity|].
  cbn [map]. now rewrite Ht, IHks.
Qed.

Lemma outline_text_line_ok d x : outline_text x -> line_ok (entry_line (d, x)).
Proof.
  intros [Hx Hlf]. unfold line_ok, entry_line. cbn [fst snd]. split.
  - rewrite repeat_str_spaces. intros H. apply in_app_or in H as [H|H].
    + apply repeat_spec in H. discriminate.
    + now apply Hlf.
  - destruct Hx as (Hne & _ & Hrev).
    destruct (exists_last Hne) as (x' & c & ->).
    rewrite app_assoc, last_snoc. intros H. injection H as ->.
    rewrite rev_app_distr in Hrev. cbn in Hrev.
    pose proof (drop_ws_length (rev x')) as Hl.
    rewrite Hrev in Hl. simpl in Hl. lia.
Qed.

Lemma fold_left_ext_Forall {A B} (f g : A -> B -> A) l : forall a,
  Forall (fun x => forall a, f a x = g a x) l ->
  fold_left f l a = fold_left g l a.
Proof.
  induction l as [|x l IH]; intros a Hl; [reflexivity|].
  apply Forall_cons in Hl as [Hx Hl]. cbn. rewrite Hx. now apply IH.
Qed.

Lemma fold_left_map_arg {A B C} (f : A -> B -> A) (g : C -> B) l : forall a,
  fold_left f (map g l) a = fold_left (fun a x => f a (g x)) l a.
Proof. induction l as [|x l IH]; intros a; [reflexivity|]. cbn. apply IH. Qed.

Lemma filter_truthy_lines (ls : list jsstring) :
  Forall (fun l => truthy l = true) ls ->
  List.filter truthy (ls ++ [[]]) = ls.
Proof.
  induction 1 as [|l ls Hl _ IH]; [reflexivity|].
  cbn [app List.filter]. now rewrite Hl, IH.
Qed.

Lemma entries_labels t : forall d, map snd (entries d t) = labels t.
Proof.
  induction t as [x ks IH] using rose_ind'. intros d.
  cbn [entries labels map]. f_equal.
  induction IH as [|t ks Ht _ IHks]; [reflexivity|].
  cbn [flat_map]. now rewrite map_app, Ht, IHks.
Qed.

Lemma forest_entries_labels d F :
  map snd (flat_map (entries d) F) = flat_map labels F.
Proof.
  induction F as [|t F IH]; [reflexivity|].
  cbn [flat_map]. now rewrite map_app, entries_labels, IH.
Qed.

(** Parsing the written form of a forest of labels gives the forest back. *)
Lemma parse_render_forest F :
  Forall outline_text (flat_map labels F) ->
  parseHierarchicalTasks (render_forest 0 F) = map (task_of 0) F.
Proof.
  intros Hc. rewrite <- forest_entries_labels with (d := 0) in Hc.
  unfold parseHierarchicalTasks. rewrite render_forest_entries.
  rewrite <- (flat_map_map entry_line (fun l => l ++ [LF])).
  rewrite Forall_map in Hc.
  rewrite split_lines_unlines.
  2:{ rewrite Forall_map. eapply Forall_impl; [exact Hc|].
      intros [d x] H. now apply outline_text_line_ok. }
  rewrite filter_truthy_lines.
  2:{ rewrite Forall_map. eapply Forall_impl; [exact Hc|].
      intros [d x] [H _]. cbn in H. unfold entry_line. cbn [fst snd].
      destruct (tight_head x H) as (c & x' & -> & _).
      now destruct (repeat_str (str "  ") d). }
  rewrite fold_left_map_arg.
  rewrite (fold_left_ext_Forall _ parse_entry).
  2:{ eapply Forall_impl; [exact Hc|]. intros e [H _] a. now apply parse_line_entry. }
  change [] with (stack_to 0) at 2.
  destruct (parse_entries_forest F [] 0) as (k & ->). reflexivity.
Qed.

(** ** Numbered forests *)

Lemma ntree_ind' (P : ntree -> Prop) :
  (forall i x ks, Forall P ks -> P (NTree i x ks)) -> forall t, P t.
Proof.
  intros H. fix IH 1. intros [i x ks]. apply H.
  induction ks as [|k ks IHks]; constructor; [apply IH|exact IHks].
Qed.

(** Induction on forests: the children of the first tree, and the trees
    that follow it. *)
Lemma ntree_forest_ind (P : list ntree -> Prop) :
  P [] ->
  (forall i x ks F, P ks -> P F -> P (NTree i x ks :: F)) ->
  forall F, P F.
Proof.
  intros H0 H1.
  assert (Ht : forall t F, P F -> P (t :: F)).
  { induction t as [i x ks IH] using ntree_ind'. intros F HF.
    apply H1; [|exact HF].
    induction IH as [|k ks Hk _ IHks]; [exact H0|]. now apply Hk. }
  induction F as [|t F IH]; [exact H0|]. now apply Ht.
Qed.

Lemma rose_forest_ind (P : list rose -> Prop) :
  P [] ->
  (forall x ks F, P ks -> P F -> P (Rose x ks :: F)) ->
  forall F, P F.
Proof.
  intros H0 H1.
  assert (Ht : forall t F, P F -> P (t :: F)).
  { induction t as [x ks IH] using rose_ind'. intros F HF.
    apply H1; [|exact HF].
    induction IH as [|k ks Hk _ IHks]; [exact H0|]. now apply Hk. }
  induction F as [|t F IH]; [exact H0|]. now apply Ht.
Qed.

Lemma task_forest_ind (P : list task -> Prop) :
  P [] ->
  (forall x l cs ts, P cs -> P ts -> P (Task x l cs :: ts)) ->
  forall ts, P ts.
Proof.
  intros H0 H1.
  assert (Ht : forall t ts, P ts -> P (t :: ts)).
  { induction t as [x l cs IH] using task_ind'. intros ts Hts.
    apply H1; [|exact Hts].
    induction IH as [|k ks Hk _ IHks]; [exact H0|]. now apply Hk. }
  induction ts as [|t ts IH]; [exact H0|]. now apply Ht.
Qed.

Lemma number_unfold n x ks :
  number n (Rose x ks) = NTree (task_id n) x (number_forest (n + 1) ks).
Proof.
  cbn [number]. f_equal.
  generalize (n + 1)%N. induction ks as [|k ks IH]; intros m; [reflexivity|].
  cbn [number_forest]. now rewrite IH.
Qed.

Lemma forest_nodes_cons i x ks F :
  forest_nodes (NTree i x ks :: F)
    = NTree i x ks :: forest_nodes ks ++ forest_nodes F.
Proof. reflexivity. Qed.

Lemma forest_ids_cons i x ks F :
  forest_ids (NTree i x ks :: F) = i :: forest_ids ks ++ forest_ids F.
Proof. unfold forest_ids. rewrite forest_nodes_cons. cbn. now rewrite map_app. Qed.

Lemma forest_size_cons x ks F :
  forest_size (Rose x ks :: F) = S (forest_size ks + forest_size F).
Proof. reflexivity. Qed.

(** The ids of a numbered forest are the next numbers, one per node. *)
Lemma ids_from_S n m : ids_from n (S m) = task_id n :: ids_from (n + 1) m.
Proof.
  unfold ids_from. cbn [seq map]. rewrite N.add_0_r. f_equal.
  rewrite <- seq_shift, map_map. apply map_ext. intros k. f_equal. lia.
Qed.

Lemma ids_from_app a : forall n b,
  ids_from n (a + b) = ids_from n a ++ ids_from (n + N.of_nat a) b.
Proof.
  induction a as [|a IH]; intros n b.
  - cbn. now rewrite N.add_0_r.
  - cbn [Nat.add]. rewrite !ids_from_S, IH. cbn [app]. do 3 f_equal. lia.
Qed.

Lemma number_forest_ids F : forall n,
  forest_ids (number_forest n F) = ids_from n (forest_size F).
Proof.
  induction F as [|x ks F IHks IHF] using rose_forest_ind; intros n.
  - reflexivity.
  - cbn [number_forest]. rewrite number_unfold, forest_ids_cons, IHks, IHF.
    rewrite forest_size_cons, ids_from_S, ids_from_app. do 3 f_equal.
    change (rose_size (Rose x ks)) with (S (forest_size ks)). lia.
Qed.

Lemma str_inj (a b : string) : str a = str b -> a = b.
Proof.
  unfold str. intros H.
  rewrite <- (string_of_list_ascii_of_string a), <- (string_of_list_ascii_of_string b).
  now rewrite H.
Qed.

Lemma task_id_inj n m : task_id n = task_id m -> n = m.
Proof.
  unfold task_id. intros H. apply app_inv_head in H.
  apply str_inj in H. now apply pretty_N_inj in H.
Qed.

Lemma task_id_not_root n : task_id n <> ROOT.
Proof. unfold task_id, ROOT. cbn [str list_ascii_of_string app]. discriminate. Qed.

Lemma ids_from_NoDup n m : NoDup (ROOT :: ids_from n m).
Proof.
  constructor.
  - unfold ids_from. rewrite list_elem_of_In. intros H.
    apply in_map_iff in H as (k & H & _).
    now apply task_id_not_root in H.
  - unfold ids_from.
    assert (Hinj : Inj (=) (=) (fun k => task_id (n + N.of_nat k)%N)).
    { intros a b H. apply task_id_inj in H. lia. }
    apply (NoDup_fmap_2 _), NoDup_seq.
Qed.

(** *** The label of a trimmed text is defined *)

Lemma nonblank_app_l a b : nonblank a -> nonblank (a ++ b).
Proof. unfold nonblank. rewrite existsb_app. intros ->. reflexivity. Qed.

Lemma nonblank_app_r a b : nonblank b -> nonblank (a ++ b).
Proof. unfold nonblank. rewrite existsb_app. intros ->. apply orb_true_r. Qed.

Lemma nonblank_drop_ws s : nonblank s -> nonblank (drop_ws s).
Proof.
  unfold nonblank. induction s as [|c s IH]; [easy|].
  cbn [existsb drop_ws]. destruct (is_ws c) eqn:E; cbn [negb orb].
  - exact IH.
  - intros _. cbn [existsb]. now rewrite E.
Qed.

Lemma nonblank_rev s : nonblank s -> nonblank (rev s).
Proof.
  unfold nonblank. rewrite !existsb_exists.
  intros (c & Hin & Hc). exists c. split; [|exact Hc]. now apply in_rev in Hin.
Qed.

Lemma nonblank_trim s : nonblank s -> nonblank (trim s).
Proof.
  intros H. unfold trim.
  now apply nonblank_rev, nonblank_drop_ws, nonblank_rev, nonblank_drop_ws.
Qed.

Lemma nonblank_truthy s : nonblank s -> truthy s = true.
Proof. destruct s; [discriminate|reflexivity]. Qed.

Lemma wrap_words_nonempty words : forall lines cur,
  lines <> [] \/ nonblank cur ->
  fst (wrap_words words lines cur) <> [] \/ nonblank (snd (wrap_words words lines cur)).
Proof.
  induction words as [|w r IH]; intros lines cur H; [exact H|].
  cbn [wrap_words].
  assert (Hstep :
    lines <> [] \/ nonblank cur ->
    fst (if length (trim (cur ++ [SP] ++ w)) <=? maxCharsPerLine
         then (lines, trim (cur ++ [SP] ++ w))
         else (if truthy cur then lines ++ [cur] else lines, w)) <> [] \/
    nonblank (snd (if length (trim (cur ++ [SP] ++ w)) <=? maxCharsPerLine
                   then (lines, trim (cur ++ [SP] ++ w))
                   else (if truthy cur then lines ++ [cur] else lines, w)))).
  { destruct (length _ <=? _); cbn [fst snd].
    - intros [Hl|Hc]; [now left|]. right.
      now apply nonblank_trim, nonblank_app_l.
    - intros [Hl|Hc].
      + left. destruct (truthy cur); [|exact Hl]. now destruct lines.
      + left. rewrite (nonblank_truthy _ Hc). now destruct lines. }
  specialize (Hstep H).
  destruct (if length _ <=? _ then _ else _) as [lines' cur']. cbn [fst snd] in Hstep.
  destruct (2 <=? length lines'); [exact Hstep|]. now apply IH.
Qed.

Lemma first_word_nonblank text :
  tight text ->
  exists w r, split_on SP text = w :: r /\ nonblank w.
Proof.
  intros Ht. destruct (tight_head text Ht) as (c & x' & -> & Hc).
  cbn [split_on]. destruct (Ascii.eqb c SP) eqn:E.
  { apply Ascii.eqb_eq in E as ->. discriminate. }
  pose proof (split_on_nonempty SP x') as Hne.
  destruct (split_on SP x') as [|w r]; [congruence|].
  exists (c :: w), r. split; [reflexivity|].
  unfold nonblank. cbn [existsb]. now rewrite Hc.
Qed.

Lemma wrap_words_first_nonblank w r :
  nonblank w ->
  fst (wrap_words (w :: r) [] []) <> [] \/ nonblank (snd (wrap_words (w :: r) [] [])).
Proof.
  intros Hw. cbn [wrap_words].
  change ([] ++ [SP] ++ w) with (SP :: w).
  assert (Hc : nonblank (trim (SP :: w))).
  { apply nonblank_trim. apply (nonblank_app_r [SP]). exact Hw. }
  destruct (length (trim (SP :: w)) <=? maxCharsPerLine); cbn [truthy length Nat.leb].
  - apply wrap_words_nonempty. now right.
  - apply wrap_words_nonempty. now right.
Qed.

Lemma leafLabel_defined text : tight text -> is_Some (leafLabel text).
Proof.
  intros Ht. destruct (first_word_nonblank text Ht) as (w & r & E & Hw).
  assert (Hne : leaf_lines text <> []).
  { unfold leaf_lines. rewrite E.
    pose proof (wrap_words_first_nonblank w r Hw) as H.
    destruct (wrap_words (w :: r) [] []) as [lines cur]. cbn [fst snd] in H.
    destruct H as [H|H].
    - destruct (truthy cur && (length lines <? 3)); [|exact H]. now destruct lines.
    - destruct lines as [|l lines]; [|now destruct (truthy cur && _)].
      rewrite (nonblank_truthy _ H). discriminate. }
  unfold leafLabel. destruct (was_truncated text (leaf_lines text)); [|eauto].
  destruct (last (leaf_lines text)) eqn:El; [eauto|].
  apply last_None in El. contradiction.
Qed.

(** *** What [buildNetworkData] builds *)

Lemma processTask_unfold autoGroup fs x l cs parentId lvl parentGroup st :
  processTask autoGroup fs (Task x l cs) parentId lvl parentGroup st =
    let taskId := task_id (b_nodeId st) in
    let group := if autoGroup then detectKeyword x
                 else or_else parentGroup (str "Other") in
    let hasChildren := match cs with [] => false | _ => true end in
    lbl ← displayLabel x hasChildren;
    processTasks autoGroup fs cs taskId (lvl + 1) (Some group)
      {| b_nodeId := (b_nodeId st + 1)%N;
         b_nodes := b_nodes st ++ [nodeConfig fs taskId x lbl lvl group hasChildren];
         b_edges := b_edges st ++
           [ {| e_from := parentId; e_to := taskId;
                e_width := if lvl =? 1 then 3 else 2;
                e_color := Some (str (if hasChildren then "#666" else "#999")) |} ] |}.
Proof.
  cbn [processTask]. cbv zeta.
  destruct (displayLabel x _) as [lbl|]; [|reflexivity]. cbn [mbind option_bind].
  generalize (BState (b_nodeId st + 1)
    (b_nodes st ++ [nodeConfig fs (task_id (b_nodeId st)) x lbl lvl
       (if autoGroup then detectKeyword x else or_else parentGroup (str "Other"))
       match cs with [] => false | _ :: _ => true end])
    (b_edges st ++
       [ {| e_from := parentId; e_to := task_id (b_nodeId st);
            e_width := if lvl =? 1 then 3 else 2;
            e_color := Some (str (if match cs with [] => false | _ :: _ => true end
                                  then "#666" else "#999")) |} ])).
  generalize (if autoGroup then detectKeyword x else or_else parentGroup (str "Other")).
  intros g. induction cs as [|c cs IH]; intros st1; [reflexivity|].
  cbn [processTasks]. destruct (processTask _ _ c _ _ _ st1); [|reflexivity].
  cbn [mbind option_bind]. apply IH.
Qed.

Lemma node_view_nodeConfig fs taskId x lbl lvl group hasChildren :
  tight x ->
  node_view (nodeConfig fs taskId x lbl lvl group hasChildren) = (taskId, x).
Proof.
  intros Hx. unfold node_view, node_text. cbn [nodeConfig n_id n_originalText or_else].
  now rewrite (tight_truthy _ Hx).
Qed.

Lemma displayLabel_defined x hasChildren :
  tight x -> is_Some (displayLabel x hasChildren).
Proof.
  intros Hx. unfold displayLabel. destruct hasChildren; [eauto|].
  now apply leafLabel_defined.
Qed.

Lemma processTasks_shape autoGroup fs ts :
  forall parentId lvl parentGroup st,
  Forall tight (flat_map labels (map shape_of ts)) ->
  exists st',
    processTasks autoGroup fs ts parentId lvl parentGroup st = Some st' /\
    b_nodeId st' = (b_nodeId st + N.of_nat (forest_size (map shape_of ts)))%N /\
    map node_view (b_nodes st')
      = map node_view (b_nodes st)
        ++ map tree_view (forest_nodes (number_forest (b_nodeId st) (map shape_of ts))) /\
    map ends (b_edges st')
      = map ends (b_edges st)
        ++ flat_map (flat_links parentId) (number_forest (b_nodeId st) (map shape_of ts)) /\
    map node_level_view (b_nodes st')
      = map node_level_view (b_nodes st)
        ++ flat_map (leveled lvl) (number_forest (b_nodeId st) (map shape_of ts)).
Proof.
  induction ts as [|x l cs ts IHcs IHts] using task_forest_ind;
    intros parentId lvl parentGroup st Hc.
  - exists st. cbn. rewrite N.add_0_r, !app_nil_r. auto.
  - cbn [map shape_of flat_map labels] in Hc. fold shape_of in Hc.
    apply Forall_app in Hc as [Hx Hts]. apply Forall_cons in Hx as [Hx Hcs].
    cbn [processTasks]. rewrite processTask_unfold. cbv zeta.
    destruct (displayLabel_defined x (match cs with [] => false | _ => true end) Hx)
      as [lbl ->].
    cbn [mbind option_bind].
    edestruct (IHcs (task_id (b_nodeId st)) (lvl + 1))
      as (st1 & -> & Hn1 & Hv1 & He1 & Hl1); [exact Hcs|].
    cbn [mbind option_bind].
    edestruct (IHts parentId lvl parentGroup st1)
      as (st2 & -> & Hn2 & Hv2 & He2 & Hl2); [exact Hts|].
    exists st2. split; [reflexivity|].
    cbn [b_nodeId b_nodes b_edges] in Hn1, Hv1, He1, Hl1.
    cbn [map shape_of number_forest]. fold shape_of.
    rewrite number_unfold, forest_nodes_cons.
    change (rose_size (Rose x (map shape_of cs)))
      with (S (forest_size (map shape_of cs))).
    replace (b_nodeId st + N.of_nat (S (forest_size (map shape_of cs))))%N
      with (b_nodeId st1) by lia.
    split; [|split; [|split]].
    + rewrite Hn2, Hn1, forest_size_cons. lia.
    + rewrite Hv2, Hv1, map_app. cbn [map].
      rewrite node_view_nodeConfig by exact Hx.
      rewrite map_app. cbn [map tree_view nt_id nt_text].
      rewrite <- !app_assoc. reflexivity.
    + rewrite He2, He1, map_app. cbn [map ends e_from e_to flat_map flat_links nt_id nt_kids].
      rewrite <- !app_assoc. reflexivity.
    + rewrite Hl2, Hl1, map_app.
      cbn [map node_level_view nodeConfig n_id n_level flat_map leveled nt_id nt_kids].
      rewrite Nat.add_1_r, <- !app_assoc. reflexivity.
Qed.

(** ** Node maps *)

Section NodeMapFacts.
Context {A : Type}.
Implicit Types m : gmap jsstring (A * list jsstring).

Lemma index_fold_notin (mk : node -> A) ns : forall m k,
  ~ In k (map n_id ns) ->
  fold_left (fun m n => <[n_id n := (mk n, [])]> m) ns m !! k = m !! k.
Proof.
  induction ns as [|n ns IH]; intros m k Hk; [reflexivity|].
  cbn [fold_left]. rewrite IH.
  - apply lookup_insert_ne. intros E. apply Hk. now left.
  - intros H. apply Hk. now right.
Qed.

Lemma index_fold_in (mk : node -> A) ns : forall m n,
  NoDup (map n_id ns) -> In n ns ->
  fold_left (fun m n => <[n_id n := (mk n, [])]> m) ns m !! n_id n = Some (mk n, []).
Proof.
  induction ns as [|n0 ns IH]; intros m n Hnd Hin; [destruct Hin|].
  cbn [map] in Hnd. apply NoDup_cons in Hnd as [Hfresh Hnd].
  cbn [fold_left]. destruct Hin as [->|Hin].
  - rewrite index_fold_notin.
    + apply lookup_insert_eq.
    + intros H. apply Hfresh. now apply list_elem_of_In.
  - now apply IH.
Qed.

Lemma index_nodes_lookup (mk : node -> A) ns n :
  NoDup (map n_id ns) -> In n ns ->
  index_nodes mk ns !! n_id n = Some (mk n, []).
Proof. apply index_fold_in. Qed.

Lemma push_child_preserves guard m e k :
  is_Some (push_child guard m e !! k) <-> is_Some (m !! k).
Proof.
  unfold push_child.
  destruct (m !! e_from e) as [[a ch]|] eqn:Ef; [|reflexivity].
  destruct (m !! e_to e) as [c|]; [|reflexivity].
  destruct (guard (e_to e)); [|reflexivity].
  destruct (decide (e_from e = k)) as [<-|Hne].
  - rewrite lookup_insert_eq, Ef. split; eauto.
  - now rewrite lookup_insert_ne.
Qed.

Lemma accepted_push guard m e e' :
  accepted guard (push_child guard m e) e' = accepted guard m e'.
Proof.
  unfold accepted. f_equal. f_equal; apply bool_decide_ext, push_child_preserves.
Qed.

Lemma kids_in_push guard m e es k :
  kids_in guard (push_child guard m e) es k = kids_in guard m es k.
Proof.
  unfold kids_in. f_equal. apply List.filter_ext. intros e'.
  now rewrite accepted_push.
Qed.

Lemma push_child_accepted guard m e :
  accepted guard m e = true ->
  exists a ch, m !! e_from e = Some (a, ch) /\
    push_child guard m e = <[e_from e := (a, ch ++ [e_to e])]> m.
Proof.
  unfold accepted, push_child. intros H.
  apply andb_prop in H as [H Hg]. apply andb_prop in H as [Hf Ht].
  apply bool_decide_eq_true in Hf as [[a ch] Hf].
  apply bool_decide_eq_true in Ht as [c Ht].
  exists a, ch. now rewrite Hf, Ht, Hg.
Qed.

Lemma push_child_rejected guard m e :
  accepted guard m e = false -> push_child guard m e = m.
Proof.
  unfold accepted, push_child. intros H.
  destruct (m !! e_from e) as [[a ch]|]; [|reflexivity].
  destruct (m !! e_to e) as [c|]; [|reflexivity].
  destruct (guard (e_to e)); [|reflexivity].
  rewrite !bool_decide_eq_true_2 in H by eauto. discriminate.
Qed.

(** After the loop over the edges, the children of a node are the ones it
    had, followed by the far ends of its edges, in the order of the
    edges. *)
Lemma link_children_lookup guard es : forall m k,
  link_children guard m es !! k
    = (fun entry => (fst entry, snd entry ++ kids_in guard m es k)) <$> m !! k.
Proof.
  induction es as [|e es IH]; intros m k.
  - cbn. destruct (m !! k) as [[a ch]|]; cbn; [|reflexivity].
    unfold kids_in. cbn. now rewrite app_nil_r.
  - cbn [link_children fold_left]. fold (link_children guard (push_child guard m e) es).
    rewrite IH, kids_in_push.
    unfold kids_in at 2. cbn [List.filter].
    destruct (accepted guard m e) eqn:Eacc.
    + destruct (push_child_accepted _ _ _ Eacc) as (a & ch & Ef & ->).
      rewrite andb_true_r. destruct (eqs (e_from e) k) eqn:Ek.
      * apply eqs_eq in Ek as <-. rewrite lookup_insert_eq, Ef. cbn.
        now rewrite <- app_assoc.
      * rewrite lookup_insert_ne; [reflexivity|].
        intros E. rewrite E, eqs_refl in Ek. discriminate.
    + rewrite (push_child_rejected _ _ _ Eacc), andb_false_r. reflexivity.
Qed.

End NodeMapFacts.

(** ** The edges of a numbered forest *)

Lemma flat_links_cons p i x ks F :
  flat_map (flat_links p) (NTree i x ks :: F)
    = (p, i) :: flat_map (flat_links i) ks ++ flat_map (flat_links p) F.
Proof. reflexivity. Qed.

Lemma links_ends F : forall p a b,
  In (a, b) (flat_map (flat_links p) F) ->
  (a = p \/ In a (forest_ids F)) /\ In b (forest_ids F).
Proof.
  induction F as [|i x ks F IHks IHF] using ntree_forest_ind; intros p a b H.
  - destruct H.
  - rewrite flat_links_cons in H. rewrite forest_ids_cons.
    destruct H as [H|H]; [injection H as <- <-; split; [now left|now left]|].
    apply in_app_or in H as [H|H].
    + destruct (IHks _ _ _ H) as [[->|Ha] Hb]; split.
      * right. now left.
      * right. apply in_or_app. now left.
      * right. right. apply in_or_app. now left.
      * right. apply in_or_app. now left.
    + destruct (IHF _ _ _ H) as [[->|Ha] Hb]; split.
      * now left.
      * right. apply in_or_app. now right.
      * right. right. apply in_or_app. now right.
      * right. apply in_or_app. now right.
Qed.

Lemma links_from_outside F : forall p k,
  k <> p -> ~ In k (forest_ids F) ->
  List.filter (fun l => eqs (fst l) k) (flat_map (flat_links p) F) = [].
Proof.
  induction F as [|i x ks F IHks IHF] using ntree_forest_ind; intros p k Hp Hk.
  - reflexivity.
  - rewrite flat_links_cons. rewrite forest_ids_cons in Hk.
    cbn [List.filter fst]. 
    replace (eqs p k) with false.
    2:{ symmetry. apply bool_decide_eq_false. congruence. }
    rewrite List.filter_app, IHks, IHF; [reflexivity|exact Hp| | |].
    + intros H. apply Hk. right. apply in_or_app. now right.
    + intros ->. apply Hk. now left.
    + intros H. apply Hk. right. apply in_or_app. now left.
Qed.

Lemma links_from_parent F : forall p,
  ~ In p (forest_ids F) ->
  map snd (List.filter (fun l => eqs (fst l) p) (flat_map (flat_links p) F))
    = map nt_id F.
Proof.
  induction F as [|i x ks F _ IHF] using ntree_forest_ind; intros p Hp.
  - reflexivity.
  - rewrite flat_links_cons. rewrite forest_ids_cons in Hp.
    cbn [List.filter fst]. rewrite eqs_refl, List.filter_app.
    rewrite links_from_outside.
    + cbn [app map snd nt_id]. f_equal. apply IHF.
      intros H. apply Hp. right. apply in_or_app. now right.
    + intros ->. apply Hp. now left.
    + intros H. apply Hp. right. apply in_or_app. now left.
Qed.

Lemma forest_nodes_ids F t : In t (forest_nodes F) -> In (nt_id t) (forest_ids F).
Proof. unfold forest_ids. apply in_map. Qed.

Lemma links_from_node F : forall p t,
  NoDup (forest_ids F) -> ~ In p (forest_ids F) -> In t (forest_nodes F) ->
  map snd (List.filter (fun l => eqs (fst l) (nt_id t)) (flat_map (flat_links p) F))
    = map nt_id (nt_kids t).
Proof.
  induction F as [|i x ks F IHks IHF] using ntree_forest_ind; intros p t Hnd Hp Ht.
  - destruct Ht.
  - rewrite flat_links_cons. rewrite forest_nodes_cons in Ht.
    rewrite forest_ids_cons in Hnd, Hp.
    apply NoDup_cons in Hnd as [Hi Hnd].
    rewrite list_elem_of_In in Hi.
    apply NoDup_app in Hnd as (Hks & Hdisj & HF).
    assert (Hpi : p <> i) by (intros ->; apply Hp; now left).
    assert (Hpks : ~ In p (forest_ids ks)).
    { intros H. apply Hp. right. apply in_or_app. now left. }
    assert (HpF : ~ In p (forest_ids F)).
    { intros H. apply Hp. right. apply in_or_app. now right. }
    assert (Hiks : ~ In i (forest_ids ks)).
    { intros H. apply Hi. apply in_or_app. now left. }
    assert (HiF : ~ In i (forest_ids F)).
    { intros H. apply Hi. apply in_or_app. now right. }
    cbn [List.filter fst]. rewrite List.filter_app.
    destruct Ht as [<-|Ht]; [|apply in_app_or in Ht as [Ht|Ht]].
    + cbn [nt_id nt_kids].
      replace (eqs p i) with false
        by (symmetry; apply bool_decide_eq_false; congruence).
      rewrite map_app, links_from_parent by exact Hiks.
      rewrite links_from_outside; [apply app_nil_r|congruence|exact HiF].
    + pose proof (forest_nodes_ids _ _ Ht) as Hid.
      replace (eqs p (nt_id t)) with false.
      2:{ symmetry. apply bool_decide_eq_false. intros ->. contradiction. }
      rewrite map_app, (IHks i t Hks Hiks Ht).
      rewrite links_from_outside; [apply app_nil_r| |].
      * intros E. rewrite E in Hid. contradiction.
      * intros H. apply (Hdisj (nt_id t)); now apply list_elem_of_In.
    + pose proof (forest_nodes_ids _ _ Ht) as Hid.
      replace (eqs p (nt_id t)) with false.
      2:{ symmetry. apply bool_decide_eq_false. intros ->. contradiction. }
      rewrite map_app, links_from_outside; [apply (IHF p t HF HpF Ht)| |].
      * intros E. rewrite E in Hid. contradiction.
      * intros H. apply (Hdisj (nt_id t)); now apply list_elem_of_In.
Qed.

Lemma kids_in_all_accepted {A} (guard : jsstring -> bool)
  (m : gmap jsstring (A * list jsstring)) (es : list edge) k :
  Forall (fun e => accepted guard m e = true) es ->
  kids_in guard m es k
    = map snd (List.filter (fun l => eqs (fst l) k) (map ends es)).
Proof.
  unfold kids_in. induction 1 as [|e es He _ IH]; [reflexivity|].
  cbn [List.filter map ends fst]. rewrite He, andb_true_r.
  destruct (eqs (e_from e) k); cbn [map snd]; now rewrite IH.
Qed.

(** The node map of a graph that was built from a numbered forest: every
    node is there with its text and with its children in order. *)
Section LinkedForest.
Context {A : Type} (mk : node -> A) (txt : A -> jsstring) (guard : jsstring -> bool).
Variables (ns : list node) (es : list edge) (F : list ntree) (rootText : jsstring).
Hypothesis Hnodes :
  map (fun n => (n_id n, txt (mk n))) ns = (ROOT, rootText) :: map tree_view (forest_nodes F).
Hypothesis Hedges : map ends es = flat_map (flat_links ROOT) F.
Hypothesis Hnodup : NoDup (ROOT :: forest_ids F).
Hypothesis Hguard : forall k, In k (forest_ids F) -> guard k = true.

Lemma linked_ids : map n_id ns = ROOT :: forest_ids F.
Proof.
  pose proof (f_equal (map fst) Hnodes) as H.
  rewrite map_map in H. cbn [map fst] in H. rewrite map_map in H.
  unfold forest_ids. exact H.
Qed.

Lemma linked_index k x :
  In (k, x) ((ROOT, rootText) :: map tree_view (forest_nodes F)) ->
  exists a, index_nodes mk ns !! k = Some (a, []) /\ txt a = x.
Proof.
  rewrite <- Hnodes. intros H. apply in_map_iff in H as (n & E & Hn).
  injection E as <- <-. exists (mk n). split; [|reflexivity].
  apply index_nodes_lookup; [|exact Hn]. rewrite linked_ids. exact Hnodup.
Qed.

Lemma linked_present k :
  k = ROOT \/ In k (forest_ids F) -> is_Some (index_nodes mk ns !! k).
Proof.
  intros H.
  assert (Hin : In k (map fst ((ROOT, rootText) :: map tree_view (forest_nodes F)))).
  { cbn [map fst]. rewrite map_map. destruct H as [->|H]; [now left|now right]. }
  apply in_map_iff in Hin as ([k' x] & <- & Hin). cbn [fst].
  destruct (linked_index _ _ Hin) as (a & -> & _). eauto.
Qed.

Lemma linked_accepted :
  Forall (fun e => accepted guard (index_nodes mk ns) e = true) es.
Proof.
  apply Forall_forall. intros e He. rewrite list_elem_of_In in He.
  assert (Hl : In (ends e) (flat_map (flat_links ROOT) F)).
  { rewrite <- Hedges. now apply in_map. }
  apply links_ends in Hl as [Hfrom Hto]. unfold accepted.
  rewrite !bool_decide_eq_true_2.
  - now rewrite Hguard.
  - apply linked_present. now right.
  - apply linked_present. exact Hfrom.
Qed.

Lemma linked_root :
  exists a, link_children guard (index_nodes mk ns) es !! ROOT = Some (a, map nt_id F)
            /\ txt a = rootText.
Proof.
  destruct (linked_index ROOT rootText) as (a & Ha & Htxt); [now left|].
  exists a. split; [|exact Htxt].
  rewrite link_children_lookup, Ha. cbn [fmap option_fmap option_map fst snd app].
  rewrite kids_in_all_accepted by apply linked_accepted.
  rewrite Hedges, links_from_parent; [reflexivity|].
  apply NoDup_cons in Hnodup as [H _]. now rewrite list_elem_of_In in H.
Qed.

Lemma linked_node t :
  In t (forest_nodes F) ->
  exists a, link_children guard (index_nodes mk ns) es !! nt_id t
              = Some (a, map nt_id (nt_kids t))
            /\ txt a = nt_text t.
Proof.
  intros Ht.
  destruct (linked_index (nt_id t) (nt_text t)) as (a & Ha & Htxt).
  { right. apply in_map_iff. now exists t. }
  exists a. split; [|exact Htxt].
  rewrite link_children_lookup, Ha. cbn [fmap option_fmap option_map fst snd app].
  rewrite kids_in_all_accepted by apply linked_accepted.
  apply NoDup_cons in Hnodup as [H Hnd]. rewrite list_elem_of_In in H.
  rewrite Hedges, links_from_node; auto.
Qed.

End LinkedForest.

(** ** Sorting the children *)

Lemma sort_insert_perm {X} (cmp : X -> X -> Z) x l :
  Permutation (sort_insert cmp x l) (x :: l).
Proof.
  induction l as [|y l IH]; cbn [sort_insert]; [reflexivity|].
  destruct (cmp x y <=? 0)%Z; [reflexivity|].
  rewrite IH. apply perm_swap.
Qed.

Lemma sort_by_perm {X} (cmp : X -> X -> Z) l : Permutation (sort_by cmp l) l.
Proof.
  induction l as [|x l IH]; cbn; [reflexivity|].
  rewrite sort_insert_perm. now constructor.
Qed.

Lemma sort_insert_map {X Y} (f : X -> Y) (cmp : Y -> Y -> Z) x l :
  sort_insert cmp (f x) (map f l)
    = map f (sort_insert (fun a b => cmp (f a) (f b)) x l).
Proof.
  induction l as [|y l IH]; cbn [sort_insert map]; [reflexivity|].
  destruct (cmp (f x) (f y) <=? 0)%Z; [reflexivity|]. cbn [map]. now rewrite IH.
Qed.

Lemma sort_by_map {X Y} (f : X -> Y) (cmp : Y -> Y -> Z) l :
  sort_by cmp (map f l) = map f (sort_by (fun a b => cmp (f a) (f b)) l).
Proof.
  induction l as [|x l IH]; [reflexivity|].
  cbn [map sort_by foldr]. fold (sort_by cmp (map f l)).
  fold (sort_by (fun a b => cmp (f a) (f b)) l).
  now rewrite IH, sort_insert_map.
Qed.

Lemma sort_by_ext {X} (cmp1 cmp2 : X -> X -> Z) l :
  (forall a b, cmp1 a b = cmp2 a b) -> sort_by cmp1 l = sort_by cmp2 l.
Proof.
  intros H. induction l as [|x l IH]; [reflexivity|].
  cbn [sort_by foldr]. fold (sort_by cmp1 l). fold (sort_by cmp2 l). rewrite IH.
  generalize (sort_by cmp2 l) as k. induction k as [|y k IHk]; [reflexivity|].
  cbn [sort_insert]. now rewrite H, IHk.
Qed.

Lemma sort_tree_id cmp t : nt_id (sort_tree cmp t) = nt_id t.
Proof. now destruct t. Qed.

Lemma sorted_kids_ids cmp ks :
  map nt_id (sorted_kids cmp ks) = sort_by cmp (map nt_id ks).
Proof. unfold sorted_kids. now rewrite sort_by_map. Qed.

Lemma sorted_kids_sort_tree cmp ks :
  sorted_kids cmp (map (sort_tree cmp) ks) = map (sort_tree cmp) (sorted_kids cmp ks).
Proof.
  unfold sorted_kids. rewrite sort_by_map. f_equal.
  apply sort_by_ext. intros a b. now rewrite !sort_tree_id.
Qed.

Lemma strip_sort_tree cmp i x ks :
  strip (sort_tree cmp (NTree i x ks))
    = Rose x (map (fun t => strip (sort_tree cmp t)) (sorted_kids cmp ks)).
Proof.
  cbn [sort_tree strip]. now rewrite sorted_kids_sort_tree, map_map.
Qed.

(** ** Writing the outline of a node map *)

Lemma forest_nodes_self ks k : In k ks -> In k (forest_nodes ks).
Proof.
  intros H. apply in_flat_map. exists k. split; [exact H|].
  destruct k. now left.
Qed.

Lemma forest_nodes_kid F : forall t k,
  In t (forest_nodes F) -> In k (nt_kids t) -> In k (forest_nodes F).
Proof.
  induction F as [|i x ks F IHks IHF] using ntree_forest_ind; intros t k Ht Hk.
  - destruct Ht.
  - rewrite forest_nodes_cons in *. right. apply in_or_app.
    destruct Ht as [<-|Ht]; [|apply in_app_or in Ht as [Ht|Ht]].
    + left. now apply forest_nodes_self.
    + left. now apply (IHks t).
    + right. now apply (IHF t).
Qed.

Lemma nt_depth_kid t k : In k (nt_kids t) -> nt_depth k < nt_depth t.
Proof.
  destruct t as [i x ks]. cbn [nt_kids nt_depth]. intros H.
  assert (Hle : list_max (map nt_depth ks) <= list_max (map nt_depth ks)) by lia.
  apply list_max_le in Hle. rewrite Forall_forall in Hle.
  specialize (Hle (nt_depth k)). 
  assert (nt_depth k <= list_max (map nt_depth ks)).
  { apply Hle. apply list_elem_of_In. now apply in_map. }
  lia.
Qed.

Lemma nt_depth_pos t : 1 <= nt_depth t.
Proof. destruct t. cbn. lia. Qed.

Section HierarchyText.
Variables (m : gmap jsstring ((jsstring * nat) * list jsstring))
          (cmp : jsstring -> jsstring -> Z) (F0 : list ntree).
Hypothesis Hm : forall t, In t (forest_nodes F0) ->
  exists lvl, m !! nt_id t
    = Some ((nt_text t, lvl), map nt_id (sorted_kids cmp (nt_kids t))).

Lemma hierarchyToText_cons fuel k ks indent :
  hierarchyToText (S fuel) m (k :: ks) indent =
    entry ← m !! k;
    below ← match snd entry with
            | [] => Some []
            | _ :: _ => hierarchyToText fuel m (snd entry) (S indent)
            end;
    rest ← hierarchyToText (S fuel) m ks indent;
    Some (repeat_str (str "  ") indent ++ fst (fst entry) ++ [LF] ++ below ++ rest).
Proof. reflexivity. Qed.

Lemma hierarchyToText_sorted fuel : forall L indent,
  Forall (fun t => In t (forest_nodes F0) /\ nt_depth t <= fuel) L ->
  hierarchyToText (S fuel) m (map nt_id L) indent
    = Some (render_forest indent (map (fun t => strip (sort_tree cmp t)) L)).
Proof.
  induction fuel as [|fuel IHfuel]; intros L indent HL.
  - destruct L as [|t L]; [reflexivity|].
    apply Forall_cons in HL as [[_ Hd] _]. pose proof (nt_depth_pos t). lia.
  - induction L as [|t L IHL]; [reflexivity|].
    apply Forall_cons in HL as [[Ht Hd] HL].
    cbn [map]. rewrite hierarchyToText_cons.
    destruct (Hm t Ht) as (lvl & ->). cbn [mbind option_bind fst snd].
    rewrite (IHL HL).
    assert (Hbelow :
      match map nt_id (sorted_kids cmp (nt_kids t)) with
      | [] => Some []
      | _ :: _ => hierarchyToText (S fuel) m
                    (map nt_id (sorted_kids cmp (nt_kids t))) (S indent)
      end = Some (render_forest (S indent)
                    (map (fun t => strip (sort_tree cmp t))
                       (sorted_kids cmp (nt_kids t))))).
    { rewrite <- IHfuel.
      - now destruct (map nt_id (sorted_kids cmp (nt_kids t))).
      - assert (Hk : Forall (fun k => In k (forest_nodes F0) /\ nt_depth k <= fuel)
                       (nt_kids t)).
        { apply Forall_forall. intros k Hk. apply list_elem_of_In in Hk. split.
          - now apply (forest_nodes_kid F0 t).
          - pose proof (nt_depth_kid t k Hk). lia. }
        unfold sorted_kids.
        eapply Permutation_Forall; [|exact Hk].
        symmetry. apply sort_by_perm. }
    rewrite Hbelow. cbn [mbind option_bind].
    destruct t as [i x ks]. rewrite strip_sort_tree.
    cbn [render_forest flat_map render nt_text nt_kids].
    unfold render_forest. rewrite <- !app_assoc. reflexivity.
Qed.

End HierarchyText.

(** ** Outline to graph and back *)

Lemma strip_number t : forall n, strip (number n t) = t.
Proof.
  induction t as [x ks IH] using rose_ind'. intros n.
  rewrite number_unfold. cbn [strip]. f_equal.
  generalize (n + 1)%N. induction IH as [|k ks Hk _ IHks]; intros m; [reflexivity|].
  cbn [number_forest map]. now rewrite Hk, IHks.
Qed.

Lemma strip_number_forest F : forall n, map strip (number_forest n F) = F.
Proof.
  induction F as [|t F IH]; intros n; [reflexivity|].
  cbn [number_forest map]. now rewrite strip_number, IH.
Qed.

Lemma Permutation_flat_map_pointwise {X Y} (f g : X -> list Y) l :
  Forall (fun x => Permutation (f x) (g x)) l ->
  Permutation (flat_map f l) (flat_map g l).
Proof.
  induction 1 as [|x l Hx _ IH]; [reflexivity|].
  cbn [flat_map]. now apply Permutation_app.
Qed.

Lemma labels_sort_tree cmp t :
  Permutation (labels (strip (sort_tree cmp t))) (labels (strip t)).
Proof.
  induction t as [i x ks IH] using ntree_ind'.
  rewrite strip_sort_tree. cbn [strip labels]. constructor.
  rewrite !flat_map_map.
  etransitivity.
  - apply Permutation_flat_map. apply sort_by_perm.
  - now apply Permutation_flat_map_pointwise.
Qed.

Lemma tree_sim_sort cmp t : tree_sim (strip t) (strip (sort_tree cmp t)).
Proof.
  induction t as [i x ks IH] using ntree_ind'.
  rewrite strip_sort_tree. cbn [strip].
  apply tree_sim_node with (ks' := map (fun t => strip (sort_tree cmp t)) ks).
  - induction IH as [|k ks Hk _ IHks]; constructor; assumption.
  - apply Permutation_map. symmetry. apply sort_by_perm.
Qed.

Lemma length_flat_map_ge {X Y} (f : X -> list Y) l x :
  In x l -> length (f x) <= length (flat_map f l).
Proof.
  induction l as [|y l IH]; intros H; [destruct H|].
  cbn [flat_map]. rewrite length_app. destruct H as [->|H]; [lia|].
  specialize (IH H). lia.
Qed.

Lemma nt_depth_le_size t : nt_depth t <= length (subtrees t).
Proof.
  induction t as [i x ks IH] using ntree_ind'.
  cbn [nt_depth subtrees nt_kids length]. apply le_n_S.
  apply list_max_le. rewrite Forall_map, Forall_forall. intros k Hk.
  rewrite Forall_forall in IH. specialize (IH k Hk).
  apply list_elem_of_In in Hk.
  pose proof (length_flat_map_ge subtrees ks k Hk). lia.
Qed.

Lemma sort_entry_eq (cmp : jsstring -> jsstring -> Z)
  (entry : (jsstring * nat) * list jsstring) :
  match snd entry with
  | [] => entry
  | _ :: _ => (fst entry, sort_by cmp (snd entry))
  end = (fst entry, sort_by cmp (snd entry)).
Proof. destruct entry as [a [|c ch]]; reflexivity. Qed.

Lemma node_view_rootNode family : node_view (rootNode family) = (ROOT, str "Mind Map").
Proof. reflexivity. Qed.

(** ** Siblings that keep their order *)

(** The comparison reads the level that the builder stored in the node. *)
Lemma linked_level guard ns es k l :
  NoDup (map n_id ns) ->
  In (k, l) (map node_level_view ns) ->
  exists x ch,
    link_children guard (index_nodes hentry ns) es !! k = Some ((x, l), ch).
Proof.
  intros Hnd H. apply in_map_iff in H as (n & E & Hn).
  unfold node_level_view in E. injection E as <- <-.
  rewrite link_children_lookup, (index_nodes_lookup hentry ns n Hnd Hn).
  cbn. eauto.
Qed.

(** Two nodes of the same level are compared by their ids. *)
Lemma child_compare_same_level guard ns es k1 k2 l :
  NoDup (map n_id ns) ->
  In (k1, l) (map node_level_view ns) ->
  In (k2, l) (map node_level_view ns) ->
  child_compare (link_children guard (index_nodes hentry ns) es) k1 k2
    = localeCompare k1 k2.
Proof.
  intros Hnd H1 H2.
  destruct (linked_level guard ns es k1 l Hnd H1) as (x1 & c1 & E1).
  destruct (linked_level guard ns es k2 l Hnd H2) as (x2 & c2 & E2).
  unfold child_compare. now rewrite E1, E2, Nat.eqb_refl.
Qed.







(** The text rebuilt from the graph of a forest is the outline of the
    forest with the children of every node sorted. *)
Lemma reconstruct_built autoGroup fs T :
  Forall outline_text (flat_map labels (map shape_of T)) ->
  exists ns es cmp,
    buildNetworkData autoGroup fs T = Some (ns, es) /\
    reconstruct ns es
      = Some (render_forest 0
                (map (fun t => strip (sort_tree cmp t))
                   (sorted_kids cmp (number_forest 0 (map shape_of T))))) /\
    (forall k1 k2 l,
       In (k1, l) (flat_map (leveled 1) (number_forest 0 (map shape_of T))) ->
       In (k2, l) (flat_map (leveled 1) (number_forest 0 (map shape_of T))) ->
       cmp k1 k2 = localeCompare k1 k2).
Proof.
  intros Hc.
  assert (Ht : Forall tight (flat_map labels (map shape_of T))).
  { eapply Forall_impl; [exact Hc|]. now intros x [H _]. }
  destruct (processTasks_shape autoGroup fs T ROOT 1 None
              {| b_nodeId := 0; b_nodes := [rootNode (fs_family fs)]; b_edges := [] |} Ht)
    as (st & Hst & _ & Hv & He & Hlv).
  cbn [b_nodeId b_nodes b_edges map app] in Hv, He, Hlv.
  rewrite node_view_rootNode in Hv.
  set (F := number_forest 0 (map shape_of T)) in *.
  set (ns := b_nodes st) in *. set (es := b_edges st) in *.
  set (linked := link_children (fun c => negb (eqs c ROOT)) (index_nodes hentry ns) es).
  set (cmp := child_compare linked).
  exists ns, es, cmp. split.
  { unfold buildNetworkData. now rewrite Hst. }
  assert (Hnd : NoDup (ROOT :: forest_ids F)).
  { unfold F. rewrite number_forest_ids. apply ids_from_NoDup. }
  split; cycle 1.
  { intros k1 k2 l H1 H2. unfold cmp, linked.
    apply (child_compare_same_level _ ns es k1 k2 l).
    - rewrite (linked_ids hentry fst ns F (str "Mind Map") Hv). exact Hnd.
    - rewrite Hlv. now right.
    - rewrite Hlv. now right. }
  assert (Hg : forall k, In k (forest_ids F) -> negb (eqs k ROOT) = true).
  { intros k Hk. apply negb_true_iff, bool_decide_eq_false. intros ->.
    apply NoDup_cons in Hnd as [H _]. now apply H, list_elem_of_In. }
  assert (Hroot := linked_root hentry fst (fun c => negb (eqs c ROOT))
                     ns es F (str "Mind Map") Hv He Hnd Hg).
  assert (Hnode := linked_node hentry fst (fun c => negb (eqs c ROOT))
                     ns es F (str "Mind Map") Hv He Hnd Hg).
  fold linked in Hroot, Hnode.
  unfold reconstruct, buildHierarchyFromNetwork. fold linked. fold cmp.
  destruct Hroot as (a & Ha & _).
  rewrite lookup_fmap, Ha. cbn [fmap option_fmap option_map].
  rewrite sort_entry_eq. cbn [fst snd].
  rewrite <- sorted_kids_ids.
  apply (hierarchyToText_sorted _ cmp F).
  - intros t Ht'. destruct (Hnode t Ht') as ([x lvl] & Hl & Hx). cbn in Hx. subst x.
    exists lvl. rewrite lookup_fmap, Hl. cbn [fmap option_fmap option_map].
    rewrite sort_entry_eq. cbn [fst snd]. now rewrite sorted_kids_ids.
  - assert (Hlen : length ns = S (length (forest_nodes F))).
    { rewrite <- (length_map node_view ns), Hv. cbn. now rewrite length_map. }
    eapply Permutation_Forall; [symmetry; apply sort_by_perm|].
    apply Forall_forall. intros t Ht'. apply list_elem_of_In in Ht'. split.
    + now apply forest_nodes_self.
    + pose proof (nt_depth_le_size t).
      pose proof (length_flat_map_ge subtrees F t Ht'). unfold forest_nodes in Hlen. lia.
Qed.



(** C3: a forest of eleven leaves "a" ... "k" comes back in another order
    after the round trip, "k" in third place: its id, [task_10], sorts
    before [task_2] as a string, although the comment on the sort says that
    it keeps the order in which the nodes are displayed. *)
Lemma parse_reconstruct_reorders_siblings :
  let fs := {| fs_family := str "Inter"; fs_size := 16;
               fs_bold := false; fs_italic := false |} in
  let T := map (fun x => Task (str x) 0 [])
             ["a"; "b"; "c"; "d"; "e"; "f"; "g"; "h"; "i"; "j"; "k"]%string in
  exists ns es text,
    buildNetworkData true fs T = Some (ns, es) /\
    reconstruct ns es = Some text /\
    map shape_of (parseHierarchicalTasks text)
      = map (fun x => Rose (str x) [])
          ["a"; "b"; "k"; "c"; "d"; "e"; "f"; "g"; "h"; "i"; "j"]%string /\
    map shape_of (parseHierarchicalTasks text) <> map shape_of T.
Proof.
  eexists _, _, _. split; [vm_compute; reflexivity|].
  split; [vm_compute; reflexivity|].
  split; [vm_compute; reflexivity|]. vm_compute. discriminate.
Qed.

(** Parsing the outline of a numbered forest whose children were sorted
    keeps the texts and the nesting. *)
Lemma parse_sorted_outline cmp R :
  Forall outline_text (flat_map labels R) ->
  forest_sim R
    (map shape_of
       (parseHierarchicalTasks
          (render_forest 0
             (map (fun t => strip (sort_tree cmp t))
                (sorted_kids cmp (number_forest 0 R)))))).
Proof.
  intros Hc. set (F := number_forest 0 R).
  assert (HF : map strip F = R) by apply strip_number_forest.
  rewrite parse_render_forest.
  - rewrite map_map.
    rewrite (map_ext (fun x => shape_of (task_of 0 x)) (fun x => x))
      by (intros x; apply shape_of_task_of).
    rewrite map_id.
    exists (map (fun t => strip (sort_tree cmp t)) F). split.
    + rewrite <- HF. clear. induction F as [|t F IH]; constructor.
      * apply tree_sim_sort.
      * exact IH.
    + apply Permutation_map. symmetry. apply sort_by_perm.
  - eapply Permutation_Forall; [|exact Hc].
    rewrite <- HF, !flat_map_map. symmetry. etransitivity.
    + apply Permutation_flat_map. apply sort_by_perm.
    + apply Permutation_flat_map_pointwise, Forall_forall.
      intros t _. apply labels_sort_tree.
Qed.



(** ** Plain text: export *)



Section ExportOutline.
Variable m : gmap jsstring (node * list jsstring).
Hypothesis Hkey : forall k n ch, m !! k = Some (n, ch) -> n_id n = k.



End ExportOutline.


(** ** Plain text: import *)








Lemma flat_links_length F : forall p,
  length (flat_map (flat_links p) F) = length (forest_nodes F).
Proof.
  induction F as [|i x ks F IHks IHF] using ntree_forest_ind; intros p; [reflexivity|].
  rewrite flat_links_cons, forest_nodes_cons. cbn [length].
  now rewrite !length_app, IHks, IHF.
Qed.



(** ** The nesting of a document built from a numbered forest *)

Section UnfoldForest.
Variables (m : gmap jsstring (node * list jsstring)) (F0 : list ntree).
Hypothesis Hm : forall t, In t (forest_nodes F0) ->
  exists a, m !! nt_id t = Some (a, map nt_id (nt_kids t)) /\ n_label a = nt_text t.
Hypothesis Hnot_root : forall t, In t (forest_nodes F0) -> nt_id t <> ROOT.

Lemma unfold_node_strip fuel : forall t,
  In t (forest_nodes F0) -> nt_depth t <= fuel ->
  unfold_node fuel m (nt_id t) = Some (strip t).
Proof.
  induction fuel as [|fuel IH]; intros t Ht Hd.
  - pose proof (nt_depth_pos t). lia.
  - cbn [unfold_node].
    replace (eqs (nt_id t) ROOT) with false.
    2:{ symmetry. apply bool_decide_eq_false. now apply Hnot_root. }
    destruct (Hm t Ht) as (a & -> & Ha). cbn [mbind option_bind fst snd].
    assert (Hkids : mapM (unfold_node fuel m) (map nt_id (nt_kids t))
                    = Some (map strip (nt_kids t))).
    { apply mapM_Some.
      assert (Hall : Forall (fun k => In k (forest_nodes F0) /\ nt_depth k <= fuel)
                       (nt_kids t)).
      { apply Forall_forall. intros k Hk. apply list_elem_of_In in Hk. split.
        - now apply (forest_nodes_kid F0 t).
        - pose proof (nt_depth_kid t k Hk). lia. }
      induction Hall as [|k ks [Hk1 Hk2] _ IHks]; constructor; [|exact IHks].
      now apply IH. }
    rewrite Hkids. cbn [mbind option_bind]. rewrite Ha. now destruct t.
Qed.

Lemma unfold_forest_strip fuel L :
  Forall (fun t => In t (forest_nodes F0) /\ nt_depth t <= fuel) L ->
  mapM (unfold_node fuel m) (map nt_id L) = Some (map strip L).
Proof.
  intros HL. apply mapM_Some.
  induction HL as [|t L [Ht Hd] _ IHL]; constructor; [|exact IHL].
  now apply unfold_node_strip.
Qed.

End UnfoldForest.


(** ** Plain text: export then import *)

(** C6: the label of a wrapped leaf holds a line break; the exporter
    writes the label, not the original text, so the leaf is written as two
    lines and the importer reads two nodes. *)
Lemma export_import_splits_wrapped_label :
  let fs := {| fs_family := str "Inter"; fs_size := 16;
               fs_bold := false; fs_italic := false |} in
  let T := [Task (str "Implement the user authentication") 0 []] in
  exists ns es text d,
    buildNetworkData true fs T = Some (ns, es) /\
    doc_forest ns es
      = Some [Rose (str "Implement the user" ++ [LF] ++ str "authentication") []] /\
    exportToPlainText ns es = Some text /\
    importFromText text = Some d /\
    doc_forest (d_nodes d) (d_edges d)
      = Some [Rose (str "Implement the user") []; Rose (str "authentication") []] /\
    doc_forest (d_nodes d) (d_edges d) <> doc_forest ns es.
Proof.
  eexists _, _, _, _. split; [vm_compute; reflexivity|].
  split; [vm_compute; reflexivity|].
  split; [vm_compute; reflexivity|].
  split; [vm_compute; reflexivity|].
  split; [vm_compute; reflexivity|]. vm_compute. discriminate.
Qed.





(** ** The forests that the parser produces *)

Lemma drop_ws_suffix s : exists pre, s = pre ++ drop_ws s.
Proof.
  induction s as [|c s [pre IH]]; [now exists []|].
  cbn [drop_ws]. destruct (is_ws c).
  - exists (c :: pre). cbn. now f_equal.
  - now exists [].
Qed.

Lemma drop_ws_idem s : drop_ws (drop_ws s) = drop_ws s.
Proof.
  induction s as [|c s IH]; [reflexivity|].
  cbn [drop_ws]. destruct (is_ws c) eqn:E; [exact IH|].
  cbn [drop_ws]. now rewrite E.
Qed.

Lemma trim_nonempty_tight s : trim s <> [] -> tight (trim s).
Proof.
  unfold trim. set (u := drop_ws s). set (v := drop_ws (rev u)).
  intros Hne. repeat split; [exact Hne| |].
  - destruct (drop_ws_suffix (rev u)) as [pre Hpre]. fold v in Hpre.
    assert (Hu : u = rev v ++ rev pre).
    { rewrite <- rev_app_distr, <- Hpre. now rewrite rev_involutive. }
    assert (Hfix : drop_ws u = u) by apply drop_ws_idem.
    destruct (rev v) as [|c w] eqn:Ev; [congruence|].
    rewrite Hu in Hfix. cbn [app] in Hfix.
    apply drop_ws_fix_head in Hfix. cbn [drop_ws]. now rewrite Hfix.
  - rewrite rev_involutive. apply drop_ws_idem.
Qed.

Lemma drop_ws_In c s : In c (drop_ws s) -> In c s.
Proof.
  destruct (drop_ws_suffix s) as [pre Hpre]. intros H.
  rewrite Hpre. apply in_or_app. now right.
Qed.

Lemma trim_In c s : In c (trim s) -> In c s.
Proof.
  unfold trim. intros H.
  apply in_rev, drop_ws_In, in_rev, drop_ws_In in H. exact H.
Qed.

Lemma split_lines_no_LF s : Forall (fun l => ~ In LF l) (split_lines s).
Proof.
  assert (H : forall n s, length s <= n -> Forall (fun l => ~ In LF l) (split_lines s)).
  { clear s. induction n as [|n IH]; intros s Hn.
    - destruct s; [|cbn in Hn; lia]. repeat constructor. intros [].
    - destruct s as [|c s]; [repeat constructor; intros []|].
      cbn [length] in Hn. cbn [split_lines].
      assert (Hcons : Ascii.eqb c LF = false ->
                Forall (fun l => ~ In LF l)
                  match split_lines s with
                  | [] => [[c]]
                  | w :: ws => (c :: w) :: ws
                  end).
      { intros Hc. apply Ascii.eqb_neq in Hc.
        pose proof (IH s ltac:(lia)) as Hs.
        destruct (split_lines s) as [|w ws].
        - repeat constructor. intros [E|[]]. congruence.
        - apply Forall_cons in Hs as [Hw Hws]. constructor; [|exact Hws].
          intros [E|Hin]; [congruence|contradiction]. }
      destruct (Ascii.eqb c LF) eqn:Ec.
      + constructor; [intros []|]. apply IH. lia.
      + destruct s as [|d s']; [now apply Hcons|].
        destruct (Ascii.eqb c CR && Ascii.eqb d LF); [|now apply Hcons].
        constructor; [intros []|]. apply IH. cbn [length] in Hn. lia. }
  apply (H (length s)). lia.
Qed.

Section ParsedLabels.
Variable P : jsstring -> Prop.

Lemma all_labels_forest cs :
  Forall (all_labels P) cs <-> Forall P (flat_map labels (map shape_of cs)).
Proof.
  induction cs as [|c cs IH]; cbn [map flat_map].
  - split; constructor.
  - rewrite Forall_cons, Forall_app, IH. reflexivity.
Qed.

Lemma all_labels_task x l cs :
  all_labels P (Task x l cs) <-> P x /\ Forall (all_labels P) cs.
Proof.
  unfold all_labels at 1. cbn [shape_of labels].
  now rewrite Forall_cons, all_labels_forest.
Qed.

Lemma update_last_Forall {X} (Q : X -> Prop) (g : X -> X) l :
  (forall x, Q x -> Q (g x)) -> Forall Q l -> Forall Q (update_last g l).
Proof.
  intros Hg. induction 1 as [|x l Hx Hl IH]; [constructor|].
  cbn [update_last]. destruct l as [|y l]; constructor; auto.
Qed.

Lemma push_at_labels d : forall t H,
  all_labels P t -> Forall (all_labels P) H -> Forall (all_labels P) (push_at d t H).
Proof.
  induction d as [|d IH]; intros t H Ht HH; cbn [push_at].
  - apply Forall_app. split; [exact HH|]. now constructor.
  - apply update_last_Forall; [|exact HH].
    intros [x l cs] Hp. cbn [task_text task_level task_children].
    apply all_labels_task in Hp as [Hx Hcs].
    apply all_labels_task. split; [exact Hx|]. now apply IH.
Qed.

Lemma parse_lines_labels lines : forall st,
  (forall l, In l lines -> trim l <> [] -> P (trim l)) ->
  Forall (all_labels P) (ps_hierarchy st) ->
  Forall (all_labels P) (ps_hierarchy (fold_left parse_line lines st)).
Proof.
  induction lines as [|l lines IH]; intros st HP Hst; [exact Hst|].
  cbn [fold_left]. apply IH.
  - intros l' Hl'. apply HP. now right.
  - unfold parse_line. destruct (trim l) as [|c x] eqn:El; [exact Hst|].
    cbn [truthy negb ps_hierarchy]. apply push_at_labels; [|exact Hst].
    apply all_labels_task. split; [|constructor].
    rewrite <- El. apply HP; [now left|]. now rewrite El.
Qed.

End ParsedLabels.

(** Every text of a parsed forest is a line of an outline. *)
Lemma parse_outline_texts input :
  Forall outline_text (flat_map labels (map shape_of (parseHierarchicalTasks input))).
Proof.
  apply all_labels_forest. unfold parseHierarchicalTasks.
  apply parse_lines_labels; [|constructor].
  intros l Hl Hne. split; [now apply trim_nonempty_tight|].
  intros Hin. apply trim_In in Hin.
  apply filter_In in Hl as [Hl _].
  pose proof (split_lines_no_LF input) as Hall.
  rewrite Forall_forall in Hall. apply (Hall l); [now apply list_elem_of_In|exact Hin].
Qed.

(** The round trip on the forest parsed from any text. *)
Corollary parse_reconstruct_parsed autoGroup fs input :
  exists ns es text,
    buildNetworkData autoGroup fs (parseHierarchicalTasks input) = Some (ns, es) /\
    reconstruct ns es = Some text /\
    forest_sim (map shape_of (parseHierarchicalTasks input))
               (map shape_of (parseHierarchicalTasks text)).
Proof.
  pose proof (parse_outline_texts input) as Hc.
  destruct (reconstruct_built autoGroup fs _ Hc) as (ns & es & cmp & Hb & Hr & _).
  exists ns, es. eexists. split; [exact Hb|]. split; [exact Hr|].
  now apply parse_sorted_outline.
Qed.

(** ** The lines behind a parsed forest *)

Lemma on_spine_spine_ok ls : forall H, on_spine ls H -> spine_ok (length ls) H.
Proof.
  induction ls as [|l ls IH]; intros H Hs; [exact I|].
  cbn [on_spine length spine_ok] in *.
  destruct (last H) as [p|]; [|contradiction]. now apply IH.
Qed.

Lemma on_spine_prefix a b : forall H, on_spine (a ++ b) H -> on_spine a H.
Proof.
  induction a as [|l a IH]; intros H Hs; [exact I|].
  cbn [app on_spine] in *. destruct (last H) as [p|]; [|contradiction].
  destruct Hs as [Hl Hs]. split; [exact Hl|]. now apply IH.
Qed.

Lemma on_spine_push ls : forall t H,
  on_spine ls H -> on_spine (ls ++ [task_level t]) (push_at (length ls) t H).
Proof.
  induction ls as [|l ls IH]; intros t H Hs.
  - cbn [app length push_at on_spine]. now rewrite last_snoc.
  - cbn [on_spine] in Hs. destruct (last H) as [p|] eqn:El; [|contradiction].
    destruct Hs as [Hl Hs]. apply last_snoc_inv in El as [H0 ->].
    cbn [app length push_at]. rewrite update_last_snoc.
    cbn [on_spine]. rewrite last_snoc. cbn [task_level task_children].
    split; [exact Hl|]. now apply IH.
Qed.

Lemma push_at_entries d : forall t H,
  spine_ok d H ->
  flat_map task_entries (push_at d t H) = flat_map task_entries H ++ task_entries t.
Proof.
  induction d as [|d IH]; intros t H Hs.
  - cbn [push_at]. rewrite flat_map_app. cbn [flat_map]. now rewrite app_nil_r.
  - cbn [spine_ok] in Hs. destruct (last H) as [p|] eqn:El; [|contradiction].
    apply last_snoc_inv in El as [H0 ->]. destruct p as [x l cs].
    cbn [push_at]. rewrite update_last_snoc. cbn [task_text task_level task_children] in *.
    rewrite !flat_map_app. cbn [flat_map task_entries]. rewrite !app_nil_r.
    rewrite IH by exact Hs. now rewrite <- app_assoc.
Qed.

Lemma pop_while_suffix lvl stack :
  exists dropped, stack = dropped ++ pop_while lvl stack.
Proof.
  induction stack as [|top rest [dropped IH]]; [now exists []|].
  cbn [pop_while]. destruct (lvl <=? top).
  - exists (top :: dropped). cbn. now f_equal.
  - now exists [].
Qed.

Lemma pop_while_head lvl stack top :
  head (pop_while lvl stack) = Some top -> top < lvl.
Proof.
  induction stack as [|t rest IH]; [discriminate|].
  cbn [pop_while]. destruct (lvl <=? t) eqn:E; [exact IH|].
  cbn. intros H. injection H as <-. now apply Nat.leb_gt in E.
Qed.

Lemma on_spine_popped lvl stack H :
  on_spine (rev stack) H -> on_spine (rev (pop_while lvl stack)) H.
Proof.
  destruct (pop_while_suffix lvl stack) as [dropped E].
  rewrite E at 1. rewrite rev_app_distr. apply on_spine_prefix.
Qed.

Lemma parse_line_on_spine st l :
  on_spine (rev (ps_stack st)) (ps_hierarchy st) ->
  on_spine (rev (ps_stack (parse_line st l))) (ps_hierarchy (parse_line st l)).
Proof.
  intros Hs. unfold parse_line. destruct (negb (truthy (trim l))); [exact Hs|].
  cbn [ps_stack ps_hierarchy rev].
  pose proof (on_spine_popped (getIndentLevel l) _ _ Hs) as Hp.
  rewrite <- length_rev.
  apply (on_spine_push _ (Task (trim l) (getIndentLevel l) [])). exact Hp.
Qed.

Lemma parse_line_entries st l :
  on_spine (rev (ps_stack st)) (ps_hierarchy st) ->
  flat_map task_entries (ps_hierarchy (parse_line st l))
    = flat_map task_entries (ps_hierarchy st)
      ++ (if truthy (trim l) then [(trim l, getIndentLevel l)] else []).
Proof.
  intros Hs. unfold parse_line. destruct (truthy (trim l)); cbn [negb].
  - cbn [ps_hierarchy]. rewrite push_at_entries; [reflexivity|].
    rewrite <- length_rev. apply on_spine_spine_ok. now apply on_spine_popped.
  - now rewrite app_nil_r.
Qed.

Lemma parse_lines_entries lines : forall st,
  on_spine (rev (ps_stack st)) (ps_hierarchy st) ->
  flat_map task_entries (ps_hierarchy (fold_left parse_line lines st))
    = flat_map task_entries (ps_hierarchy st)
      ++ map (fun l => (trim l, getIndentLevel l))
           (List.filter (fun l => truthy (trim l)) lines).
Proof.
  induction lines as [|l lines IH]; intros st Hs.
  - cbn. now rewrite app_nil_r.
  - cbn [fold_left List.filter]. rewrite IH by now apply parse_line_on_spine.
    rewrite parse_line_entries by exact Hs. rewrite <- app_assoc. f_equal.
    now destruct (truthy (trim l)).
Qed.

Lemma filter_truthy_trim lines :
  List.filter (fun l => truthy (trim l)) (List.filter truthy lines)
    = List.filter (fun l => truthy (trim l)) lines.
Proof.
  induction lines as [|l lines IH]; [reflexivity|].
  cbn [List.filter]. destruct l as [|c l]; [exact IH|].
  cbn [truthy List.filter]. now rewrite IH.
Qed.

(** X1: the parser keeps every line that holds more than white space, once and
    in the order of the input: read depth first, the tasks carry the
    trimmed texts and the indentation levels of these lines. *)
Theorem parseHierarchicalTasks_keeps_lines input :
  flat_map task_entries (parseHierarchicalTasks input)
    = map (fun l => (trim l, getIndentLevel l)) (content_lines input).
Proof.
  unfold parseHierarchicalTasks, content_lines.
  rewrite parse_lines_entries by exact I.
  cbn [ps_hierarchy flat_map app]. now rewrite filter_truthy_trim.
Qed.

Lemma levels_nested_Task x l cs :
  levels_nested (Task x l cs) = true <->
  Forall (fun c => l < task_level c) cs /\ Forall (fun c => levels_nested c = true) cs.
Proof.
  cbn [levels_nested]. rewrite forallb_forall, !Forall_forall. split.
  - intros H. split; intros c Hc; apply list_elem_of_In, H, andb_prop in Hc as [H1 H2];
      [now apply Nat.ltb_lt in H1|exact H2].
  - intros [H1 H2] c Hc. apply list_elem_of_In in Hc. apply andb_true_intro. split.
    + now apply Nat.ltb_lt, H1.
    + now apply H2.
Qed.

Lemma update_last_levels (g : task -> task) H :
  (forall p, task_level (g p) = task_level p) ->
  map task_level (update_last g H) = map task_level H.
Proof.
  intros Hg. induction H as [|p H IH]; [reflexivity|].
  cbn [update_last]. destruct H as [|q H]; cbn [map]; [now rewrite Hg|].
  cbn [map] in IH. now rewrite IH.
Qed.

Lemma Forall_level_map (l : nat) cs : forall cs',
  map task_level cs' = map task_level cs ->
  Forall (fun c => l < task_level c) cs -> Forall (fun c => l < task_level c) cs'.
Proof.
  induction cs as [|c cs IH]; intros [|c' cs'] E H; try discriminate; [constructor|].
  cbn [map] in E. injection E as E1 E2. apply Forall_cons in H as [Hc H].
  constructor; [now rewrite E1|now apply IH].
Qed.

Lemma push_at_nested ls : forall t H,
  on_spine ls H ->
  Forall (fun c => levels_nested c = true) H ->
  levels_nested t = true ->
  (forall l, last ls = Some l -> l < task_level t) ->
  Forall (fun c => levels_nested c = true) (push_at (length ls) t H).
Proof.
  induction ls as [|l ls IH]; intros t H Hs HH Ht Hlast.
  - cbn [length push_at]. apply Forall_app. split; [exact HH|]. now constructor.
  - cbn [on_spine] in Hs. destruct (last H) as [p|] eqn:El; [|contradiction].
    destruct Hs as [Hl Hs]. apply last_snoc_inv in El as [H0 ->].
    destruct p as [x l' cs]. cbn [task_level task_children] in *. subst l'.
    cbn [length push_at]. rewrite update_last_snoc. cbn [task_text task_level task_children].
    apply Forall_app in HH as [HH0 Hp]. apply Forall_app. split; [exact HH0|].
    constructor; [|constructor].
    apply Forall_cons in Hp as [Hp _]. apply levels_nested_Task in Hp as [Hlv Hn].
    apply levels_nested_Task. split.
    + destruct ls as [|l2 ls].
      * cbn [length push_at]. apply Forall_app. split; [exact Hlv|].
        constructor; [|constructor]. now apply Hlast.
      * eapply Forall_level_map; [|exact Hlv]. cbn [length push_at].
        now apply update_last_levels.
    + apply IH; try assumption.
      intros l2 Hl2. apply Hlast. destruct ls as [|l3 ls]; [discriminate|exact Hl2].
Qed.

Lemma parse_lines_nested lines : forall st,
  on_spine (rev (ps_stack st)) (ps_hierarchy st) ->
  Forall (fun c => levels_nested c = true) (ps_hierarchy st) ->
  Forall (fun c => levels_nested c = true)
    (ps_hierarchy (fold_left parse_line lines st)).
Proof.
  induction lines as [|l lines IH]; intros st Hs Hn; [exact Hn|].
  cbn [fold_left]. apply IH; [now apply parse_line_on_spine|].
  unfold parse_line. destruct (negb (truthy (trim l))); [exact Hn|].
  cbn [ps_hierarchy]. rewrite <- length_rev.
  apply push_at_nested; [now apply on_spine_popped|exact Hn|reflexivity|].
  intros top Htop. cbn [task_level].
  apply (pop_while_head _ (ps_stack st)).
  rewrite <- Htop. clear.
  destruct (pop_while (getIndentLevel l) (ps_stack st)) as [|a s]; [reflexivity|].
  cbn [rev head]. now rewrite last_snoc.
Qed.

(** X2: in a parsed forest every task is indented deeper than the task it is
    a child of. *)
Theorem parseHierarchicalTasks_levels_nested input :
  forallb levels_nested (parseHierarchicalTasks input) = true.
Proof.
  apply forallb_forall. intros t Ht.
  pose proof (parse_lines_nested (List.filter truthy (split_lines input))
                (ParserState [] []) I ltac:(constructor)) as H.
  rewrite Forall_forall in H. now apply H, list_elem_of_In.
Qed.

(** ** What [buildNetworkData] builds, node by node *)

Lemma processTasks_graph autoGroup fs ts :
  forall parentId lvl parentGroup st st',
  processTasks autoGroup fs ts parentId lvl parentGroup st = Some st' ->
  let F := number_forest (b_nodeId st) (map shape_of ts) in
  b_nodeId st' = (b_nodeId st + N.of_nat (forest_size (map shape_of ts)))%N /\
  b_nodes st' = b_nodes st ++ flat_map (graph_nodes autoGroup fs lvl parentGroup) F /\
  b_edges st' = b_edges st ++ flat_map (graph_edges parentId lvl) F /\
  labels_defined F.
Proof.
  induction ts as [|x l cs ts IHcs IHts] using task_forest_ind;
    intros parentId lvl parentGroup st st' Hrun.
  - cbn in Hrun. injection Hrun as <-. cbn. rewrite N.add_0_r, !app_nil_r.
    repeat split. constructor.
  - cbn [processTasks] in Hrun. rewrite processTask_unfold in Hrun. cbv zeta in Hrun.
    destruct (displayLabel x _) as [lbl|] eqn:Elbl; [|discriminate].
    cbn [mbind option_bind] in Hrun.
    destruct (processTasks autoGroup fs cs _ _ _ _) as [st1|] eqn:E1; [|discriminate].
    cbn [mbind option_bind] in Hrun.
    destruct (IHcs _ _ _ _ _ E1) as (Hn1 & Hv1 & He1 & Hd1).
    destruct (IHts _ _ _ _ _ Hrun) as (Hn2 & Hv2 & He2 & Hd2).
    cbn [b_nodeId b_nodes b_edges] in Hn1, Hv1, He1, Hd1.
    cbn [map shape_of number_forest]. fold shape_of.
    rewrite number_unfold.
    change (rose_size (Rose x (map shape_of cs)))
      with (S (forest_size (map shape_of cs))).
    replace (b_nodeId st + N.of_nat (S (forest_size (map shape_of cs))))%N
      with (b_nodeId st1) by lia.
    assert (Hkids : match number_forest (b_nodeId st + 1) (map shape_of cs) with
                    | [] => false | _ :: _ => true end
                    = match cs with [] => false | _ :: _ => true end).
    { now destruct cs. }
    split; [|split; [|split]].
    + rewrite Hn2, Hn1, forest_size_cons. lia.
    + rewrite Hv2, Hv1. cbn [flat_map graph_nodes]. rewrite Hkids, Elbl.
      cbn [default]. rewrite Nat.add_1_r, <- !app_assoc. reflexivity.
    + rewrite He2, He1. cbn [flat_map graph_edges]. rewrite Hkids.
      rewrite Nat.add_1_r, <- !app_assoc. reflexivity.
    + unfold labels_defined. rewrite forest_nodes_cons.
      constructor; [|apply Forall_app; split; [exact Hd1|exact Hd2]].
      cbn [nt_text nt_kids]. rewrite Hkids, Elbl. eauto.
Qed.

Lemma buildNetworkData_graph autoGroup fs T ns es :
  buildNetworkData autoGroup fs T = Some (ns, es) ->
  let F := number_forest 0 (map shape_of T) in
  ns = rootNode (fs_family fs) :: flat_map (graph_nodes autoGroup fs 1 None) F /\
  es = flat_map (graph_edges ROOT 1) F /\
  labels_defined F.
Proof.
  unfold buildNetworkData. intros H.
  destruct (processTasks _ _ _ _ _ _ _) as [st|] eqn:E; [|discriminate].
  cbn in H. injection H as <- <-.
  destruct (processTasks_graph _ _ _ _ _ _ _ _ E) as (_ & Hv & He & Hd).
  cbn [b_nodeId b_nodes b_edges app] in Hv, He, Hd. auto.
Qed.

Lemma graph_nodes_ids autoGroup fs F : forall lvl pg,
  map n_id (flat_map (graph_nodes autoGroup fs lvl pg) F) = forest_ids F.
Proof.
  induction F as [|i x ks F IHks IHF] using ntree_forest_ind; intros lvl pg.
  - reflexivity.
  - cbn [flat_map graph_nodes]. rewrite forest_ids_cons.
    cbn [app map nodeConfig n_id]. now rewrite map_app, IHks, IHF.
Qed.

Lemma graph_edges_ends F : forall p lvl,
  map ends (flat_map (graph_edges p lvl) F) = flat_map (flat_links p) F.
Proof.
  induction F as [|i x ks F IHks IHF] using ntree_forest_ind; intros p lvl.
  - reflexivity.
  - cbn [flat_map graph_edges flat_links nt_id nt_kids].
    cbn [app map ends e_from e_to]. now rewrite map_app, IHks, IHF.
Qed.

Lemma flat_links_targets F : forall p,
  map snd (flat_map (flat_links p) F) = forest_ids F.
Proof.
  induction F as [|i x ks F IHks IHF] using ntree_forest_ind; intros p.
  - reflexivity.
  - rewrite flat_links_cons, forest_ids_cons. cbn [map snd].
    now rewrite map_app, IHks, IHF.
Qed.

(** The links of a numbered forest lead to a task, from the parent given
    or from a task with a smaller number. *)
Lemma links_forward R : forall n p,
  Forall (fun l => exists k, (n <= k)%N /\ snd l = task_id k /\
            (fst l = p \/ exists j, (n <= j < k)%N /\ fst l = task_id j))
    (flat_map (flat_links p) (number_forest n R)).
Proof.
  induction R as [|x ks R IHks IHR] using rose_forest_ind; intros n p.
  - constructor.
  - cbn [number_forest]. rewrite number_unfold, flat_links_cons.
    constructor; [exists n; cbn; repeat split; [lia|now left]|].
    apply Forall_app. split.
    + eapply Forall_impl; [apply (IHks (n + 1)%N (task_id n))|].
      cbn beta. intros [a b] (k & Hk & Hb & Ha). cbn [fst snd] in *.
      exists k. split; [lia|]. split; [exact Hb|]. right.
      destruct Ha as [->|(j & Hj & Ha)].
      * exists n. split; [lia|reflexivity].
      * exists j. split; [lia|exact Ha].
    + eapply Forall_impl; [apply IHR|].
      cbn beta. intros [a b] (k & Hk & Hb & Ha). cbn [fst snd] in *.
      exists k. split; [lia|]. split; [exact Hb|].
      destruct Ha as [->|(j & Hj & Ha)]; [now left|].
      right. exists j. split; [lia|exact Ha].
Qed.

Lemma forward_edge_of_link e :
  (exists k, (0 <= k)%N /\ snd (ends e) = task_id k /\
     (fst (ends e) = ROOT \/ exists j, (0 <= j < k)%N /\ fst (ends e) = task_id j)) ->
  forward_edge e.
Proof.
  intros (k & _ & Hb & [Ha|(j & Hj & Ha)]); cbn in *; [now left|].
  right. exists j, k. repeat split; [lia|exact Ha|exact Hb].
Qed.

(** A graph whose ends are the links of a forest numbered from 0 is a
    numbered tree. *)
Lemma numbered_tree_of_links ns es R :
  map n_id ns = ROOT :: forest_ids (number_forest 0 R) ->
  map ends es = flat_map (flat_links ROOT) (number_forest 0 R) ->
  numbered_tree ns es (forest_size R).
Proof.
  intros Hn He. unfold numbered_tree. rewrite number_forest_ids in Hn.
  split; [exact Hn|]. split.
  - rewrite <- (number_forest_ids R 0), <- (flat_links_targets _ ROOT), <- He.
    rewrite map_map. reflexivity.
  - pose proof (links_forward R 0 ROOT) as H. rewrite <- He in H.
    rewrite Forall_forall in H. apply Forall_forall. intros e Hin.
    apply forward_edge_of_link. apply (H (ends e)).
    apply list_elem_of_In, in_map, list_elem_of_In, Hin.
Qed.



Lemma graph_nodes_in autoGroup fs F : forall lvl pg n,
  In n (flat_map (graph_nodes autoGroup fs lvl pg) F) ->
  exists t, In t (forest_nodes F) /\ n_id n = nt_id t /\
    n_originalText n = Some (nt_text t) /\
    n_shape n = match nt_kids t with [] => Box | _ => Dot end.
Proof.
  induction F as [|i x ks F IHks IHF] using ntree_forest_ind; intros lvl pg n Hn.
  - destruct Hn.
  - cbn [flat_map graph_nodes] in Hn. rewrite forest_nodes_cons.
    destruct Hn as [<-|Hn]; [|apply in_app_or in Hn as [Hn|Hn]].
    + exists (NTree i x ks). split; [now left|].
      cbn [nodeConfig n_id n_originalText n_shape nt_id nt_text nt_kids].
      repeat split. now destruct ks.
    + destruct (IHks _ _ _ Hn) as (t & Ht & H). exists t. split; [|exact H].
      right. apply in_or_app. now left.
    + destruct (IHF _ _ _ Hn) as (t & Ht & H). exists t. split; [|exact H].
      right. apply in_or_app. now right.
Qed.

Lemma graph_nodes_levels autoGroup fs F : forall lvl pg,
  map node_level_view (flat_map (graph_nodes autoGroup fs lvl pg) F)
    = flat_map (leveled lvl) F.
Proof.
  induction F as [|i x ks F IHks IHF] using ntree_forest_ind; intros lvl pg.
  - reflexivity.
  - cbn [flat_map graph_nodes leveled nt_id nt_kids].
    cbn [app map node_level_view nodeConfig n_id n_level].
    now rewrite map_app, IHks, IHF.
Qed.

Lemma leveled_ids F : forall lvl, map fst (flat_map (leveled lvl) F) = forest_ids F.
Proof.
  induction F as [|i x ks F IHks IHF] using ntree_forest_ind; intros lvl.
  - reflexivity.
  - cbn [flat_map leveled nt_id nt_kids]. rewrite forest_ids_cons.
    cbn [app map fst]. now rewrite map_app, IHks, IHF.
Qed.

Lemma leveled_above F : forall lvl k L,
  In (k, L) (flat_map (leveled lvl) F) -> lvl <= L.
Proof.
  induction F as [|i x ks F IHks IHF] using ntree_forest_ind; intros lvl k L H.
  - destruct H.
  - cbn [flat_map leveled nt_id nt_kids] in H.
    destruct H as [H|H]; [injection H as _ <-; lia|].
    apply in_app_or in H as [H|H].
    + apply IHks in H. lia.
    + now apply IHF in H.
Qed.

(** Every edge of the graph of a forest leads to a node of some level [L],
    has the width of that level, and leaves the parent given and [L] is the
    level of the forest, or leaves a node of the level below [L]. *)
Lemma graph_edges_levels F : forall p lvl,
  Forall (fun e => exists L,
            In (e_to e, L) (flat_map (leveled lvl) F) /\
            e_width e = (if L =? 1 then 3 else 2) /\
            ((e_from e = p /\ L = lvl) \/
             exists L', L = S L' /\ In (e_from e, L') (flat_map (leveled lvl) F)))
    (flat_map (graph_edges p lvl) F).
Proof.
  induction F as [|i x ks F IHks IHF] using ntree_forest_ind; intros p lvl.
  - constructor.
  - cbn [flat_map graph_edges leveled nt_id nt_kids]. constructor.
    + exists lvl. cbn [e_to e_from e_width]. split; [now left|]. split; [reflexivity|].
      now left.
    + apply Forall_app. split.
      * eapply Forall_impl; [apply (IHks i (S lvl))|]. cbn beta.
        intros e (L & Hto & Hw & Hfrom). exists L.
        split; [right; apply in_or_app; now left|]. split; [exact Hw|]. right.
        destruct Hfrom as [[Hf ->]|(L' & -> & Hf)].
        -- exists lvl. split; [reflexivity|]. left. now rewrite Hf.
        -- exists L'. split; [reflexivity|]. right. apply in_or_app. now left.
      * eapply Forall_impl; [apply (IHF p lvl)|]. cbn beta.
        intros e (L & Hto & Hw & Hfrom). exists L.
        split; [right; apply in_or_app; now right|]. split; [exact Hw|].
        destruct Hfrom as [Hf|(L' & -> & Hf)]; [now left|].
        right. exists L'. split; [reflexivity|]. right. apply in_or_app. now right.
Qed.

Lemma In_level_node ns k L :
  In (k, L) (map node_level_view ns) ->
  exists n, In n ns /\ n_id n = k /\ n_level n = L.
Proof.
  intros H. apply in_map_iff in H as (n & E & Hn).
  unfold node_level_view in E. injection E as <- <-. eauto.
Qed.

Lemma numbered_forest_NoDup R n : NoDup (ROOT :: forest_ids (number_forest n R)).
Proof. rewrite number_forest_ids. apply ids_from_NoDup. Qed.

(** X4: in a built graph the shape of a task follows its edges: it is a dot
    exactly when an edge leaves it, and a box otherwise. *)
Theorem buildNetworkData_shape_follows_edges autoGroup fs T ns es :
  buildNetworkData autoGroup fs T = Some (ns, es) ->
  forall n, In n ns -> n_id n <> ROOT ->
    (n_shape n = Dot <-> exists e, In e es /\ e_from e = n_id n) /\
    (n_shape n = Box <-> forall e, In e es -> e_from e <> n_id n).
Proof.
  intros Hb n Hn Hroot.
  destruct (buildNetworkData_graph _ _ _ _ _ Hb) as (Hns & Hes & _).
  set (F := number_forest 0 (map shape_of T)) in *.
  rewrite Hns in Hn. destruct Hn as [<-|Hn]; [now contradiction Hroot|].
  destruct (graph_nodes_in _ _ _ _ _ _ Hn) as (t & Ht & Hid & _ & Hshape).
  pose proof (numbered_forest_NoDup (map shape_of T) 0) as Hnd. fold F in Hnd.
  apply NoDup_cons in Hnd as [Hr Hnd]. rewrite list_elem_of_In in Hr.
  pose proof (links_from_node F ROOT t Hnd Hr Ht) as Hkids.
  rewrite <- (graph_edges_ends F ROOT 1), <- Hes in Hkids.
  assert (Hout : (exists e, In e es /\ e_from e = n_id n) <-> nt_kids t <> []).
  { rewrite Hid. split.
    - intros (e & He & Hf) E. rewrite E in Hkids. cbn in Hkids.
      apply map_eq_nil in Hkids.
      assert (Hin : In (ends e)
                (List.filter (fun l => eqs (fst l) (nt_id t)) (map ends es))).
      { apply filter_In. split; [now apply in_map|]. cbn. now apply eqs_eq. }
      rewrite Hkids in Hin. destruct Hin.
    - intros Hne.
      destruct (List.filter (fun l => eqs (fst l) (nt_id t)) (map ends es))
        as [|l ls] eqn:Ef.
      + cbn in Hkids. symmetry in Hkids. apply map_eq_nil in Hkids. contradiction.
      + assert (Hl : In l (List.filter (fun l => eqs (fst l) (nt_id t)) (map ends es)))
          by (rewrite Ef; now left).
        apply filter_In in Hl as [Hl Hf]. apply in_map_iff in Hl as (e & <- & He).
        exists e. split; [exact He|]. now apply eqs_eq in Hf. }
  split.
  - rewrite Hout, Hshape. destruct (nt_kids t); split; congruence.
  - rewrite Hshape. split.
    + intros Hbox e He Hf. destruct (nt_kids t) eqn:Ek; [|discriminate].
      apply Hout; [eauto|reflexivity].
    + intros Hno. destruct (nt_kids t) eqn:Ek; [reflexivity|].
      assert (Hex : exists e, In e es /\ e_from e = n_id n) by (apply Hout; discriminate).
      destruct Hex as (e & He & Hf). now apply Hno in He.
Qed.

Lemma buildNetworkData_shape_follows_edges_witness :
  exists ns es n,
    buildNetworkData true sample_fonts sample_hierarchy = Some (ns, es) /\
    In n ns /\ n_id n = str "task_0" /\
    (n_shape n = Dot <-> exists e, In e es /\ e_from e = n_id n).
Proof.
  destruct (buildNetworkData true sample_fonts sample_hierarchy) as [[ns es]|] eqn:E;
    [|discriminate E].
  exists ns, es.
  assert (Hn : exists n, In n ns /\ n_id n = str "task_0").
  { vm_compute in E. injection E as <- <-. eexists. split; [right; left; reflexivity|].
    reflexivity. }
  destruct Hn as (n & Hn & Hid). exists n.
  split; [reflexivity|]. split; [exact Hn|]. split; [exact Hid|].
  apply (buildNetworkData_shape_follows_edges true sample_fonts sample_hierarchy ns es E n Hn).
  rewrite Hid. discriminate.
Defined.

(** X5: in a built graph every edge joins two nodes of the graph, the child one
    level below the parent, and is 3 wide exactly when it leaves the root:
    the level of a node is its depth in the tree, whatever the indentation
    of its line was. *)
Theorem buildNetworkData_levels_are_depths autoGroup fs T ns es :
  buildNetworkData autoGroup fs T = Some (ns, es) ->
  forall e, In e es ->
    exists p c, In p ns /\ In c ns /\
      n_id p = e_from e /\ n_id c = e_to e /\
      n_level c = S (n_level p) /\
      e_width e = (if eqs (e_from e) ROOT then 3 else 2).
Proof.
  intros Hb e He.
  destruct (buildNetworkData_graph _ _ _ _ _ Hb) as (Hns & Hes & _).
  set (F := number_forest 0 (map shape_of T)) in *.
  pose proof (graph_edges_levels F ROOT 1) as Hl. rewrite <- Hes in Hl.
  rewrite Forall_forall in Hl.
  destruct (Hl e ltac:(now apply list_elem_of_In)) as (L & Hto & Hw & Hfrom).
  assert (Hlv : map node_level_view ns = (ROOT, 0) :: flat_map (leveled 1) F).
  { rewrite Hns. cbn [map]. now rewrite graph_nodes_levels. }
  assert (Hc : exists c, In c ns /\ n_id c = e_to e /\ n_level c = L).
  { apply In_level_node. rewrite Hlv. now right. }
  destruct Hc as (c & Hc & Hcid & Hcl).
  pose proof (numbered_forest_NoDup (map shape_of T) 0) as Hnd. fold F in Hnd.
  apply NoDup_cons in Hnd as [Hr _]. rewrite list_elem_of_In in Hr.
  destruct Hfrom as [[Hf ->]|(L' & -> & Hf)].
  - exists (rootNode (fs_family fs)), c. rewrite Hns at 1.
    split; [now left|]. split; [exact Hc|]. split; [now rewrite Hf|].
    split; [exact Hcid|]. split; [exact Hcl|].
    rewrite Hw, Hf, eqs_refl. reflexivity.
  - assert (Hp : exists p, In p ns /\ n_id p = e_from e /\ n_level p = L').
    { apply In_level_node. rewrite Hlv. now right. }
    destruct Hp as (p & Hp & Hpid & Hpl).
    exists p, c. repeat split; try assumption; [congruence|].
    rewrite Hw. pose proof (leveled_above _ _ _ _ Hf) as HL'.
    replace (S L' =? 1) with false by (symmetry; apply Nat.eqb_neq; lia).
    replace (eqs (e_from e) ROOT) with false; [reflexivity|].
    symmetry. apply bool_decide_eq_false. intros E. apply Hr.
    rewrite <- E, <- (leveled_ids F 1). apply (in_map fst) in Hf. exact Hf.
Qed.

Lemma buildNetworkData_levels_are_depths_witness :
  exists ns es e,
    buildNetworkData true sample_fonts sample_hierarchy = Some (ns, es) /\
    In e es /\ e_to e = str "task_1" /\
    exists p c, In p ns /\ In c ns /\
      n_id p = e_from e /\ n_id c = e_to e /\
      n_level c = S (n_level p) /\
      e_width e = (if eqs (e_from e) ROOT then 3 else 2).
Proof.
  destruct (buildNetworkData true sample_fonts sample_hierarchy) as [[ns es]|] eqn:E;
    [|discriminate E].
  exists ns, es.
  assert (He : exists e, In e es /\ e_to e = str "task_1").
  { vm_compute in E. injection E as <- <-. eexists. split; [right; left; reflexivity|].
    reflexivity. }
  destruct He as (e & He & Hto). exists e.
  split; [reflexivity|]. split; [exact He|]. split; [exact Hto|].
  exact (buildNetworkData_levels_are_depths true sample_fonts sample_hierarchy ns es E e He).
Defined.

(** *** Colours *)

Lemma detect_in_groups groups lower :
  detect_in groups lower = str "Other" \/ In (detect_in groups lower) (map fst groups).
Proof.
  induction groups as [|[g kws] groups IH]; [now left|].
  cbn [detect_in map fst]. destruct (existsb _ kws).
  - right. now left.
  - destruct IH as [IH|IH]; [now left|]. right. now right.
Qed.

Lemma detectKeyword_has_colour text :
  exists c, group_color (detectKeyword text) = Some c /\ truthy c = true.
Proof.
  unfold detectKeyword.
  destruct (detect_in_groups KEYWORD_GROUPS (toLowerCase text)) as [->|H].
  - eexists. split; reflexivity.
  - cbn [KEYWORD_GROUPS map fst] in H.
    repeat (destruct H as [<-|H]; [eexists; split; reflexivity|]). destruct H.
Qed.

(** The colour that [processTask] gives to a task. *)
Lemma graph_nodes_colours (autoGroup : bool) fs F : forall lvl pg,
  (autoGroup = false -> pg = None \/ pg = Some (str "Other")) ->
  Forall (fun n => exists x, n_originalText n = Some x /\
            n_color n = if autoGroup then group_color (detectKeyword x)
                        else Some (str "#adb5bd"))
    (flat_map (graph_nodes autoGroup fs lvl pg) F).
Proof.
  induction F as [|i x ks F IHks IHF] using ntree_forest_ind; intros lvl pg Hpg.
  - constructor.
  - cbn [flat_map graph_nodes]. constructor; [|apply Forall_app; split].
    + exists x. cbn [nodeConfig n_originalText n_color]. split; [reflexivity|].
      destruct autoGroup.
      * destruct (detectKeyword_has_colour x) as (c & -> & Hc).
        cbn [or_else]. now rewrite Hc.
      * destruct (Hpg eq_refl) as [->| ->]; reflexivity.
    + apply IHks. intros ->. right.
      destruct (Hpg eq_refl) as [->| ->]; reflexivity.
    + now apply IHF.
Qed.

(** X6: with auto-grouping, the colour of a task is the colour of the category
    of its own text, whatever its parent is; without it, every task has the
    colour of "Other": no task inherits a colour from its parent. *)
Theorem buildNetworkData_colours autoGroup fs T ns es :
  buildNetworkData autoGroup fs T = Some (ns, es) ->
  forall n, In n ns -> n_id n <> ROOT ->
    exists x, n_originalText n = Some x /\
      n_color n = if autoGroup then group_color (detectKeyword x)
                  else group_color (str "Other").
Proof.
  intros Hb n Hn Hroot.
  destruct (buildNetworkData_graph _ _ _ _ _ Hb) as (Hns & _ & _).
  rewrite Hns in Hn. destruct Hn as [<-|Hn]; [now contradiction Hroot|].
  pose proof (graph_nodes_colours autoGroup fs
                (number_forest 0 (map shape_of T)) 1 None ltac:(now left)) as H.
  rewrite Forall_forall in H. apply H. now apply list_elem_of_In.
Qed.

Lemma buildNetworkData_colours_witness :
  exists ns es n,
    buildNetworkData false sample_fonts sample_hierarchy = Some (ns, es) /\
    In n ns /\ n_id n = str "task_1" /\
    exists x, n_originalText n = Some x /\ n_color n = group_color (str "Other").
Proof.
  destruct (buildNetworkData false sample_fonts sample_hierarchy) as [[ns es]|] eqn:E;
    [|discriminate E].
  exists ns, es.
  assert (Hn : exists n, In n ns /\ n_id n = str "task_1").
  { vm_compute in E. injection E as <- <-. eexists.
    split; [right; right; left; reflexivity|]. reflexivity. }
  destruct Hn as (n & Hn & Hid). exists n.
  split; [reflexivity|]. split; [exact Hn|]. split; [exact Hid|].
  apply (buildNetworkData_colours false sample_fonts sample_hierarchy ns es E n Hn).
  rewrite Hid. discriminate.
Defined.

(** ** Restyling *)

Lemma style_of_id fs n u : style_of fs n = Some u -> u_id u = n_id n.
Proof.
  unfold style_of. destruct (eqs (n_id n) ROOT).
  - intros H. now injection H as <-.
  - destruct (styled_text n) as [x|]; [|discriminate]. cbn [mbind option_bind].
    destruct (displayLabel _ _) as [lbl|]; [|discriminate]. cbn [mbind option_bind].
    intros H. now injection H as <-.
Qed.

Lemma update_other ds k f :
  ~ In k (map n_id ds) -> DataSet.update n_id k f ds = ds.
Proof.
  unfold DataSet.update. induction ds as [|n ds IH]; intros Hk; [reflexivity|].
  cbn [map] in *.
  replace (eqs (n_id n) k) with false.
  - f_equal. apply IH. intros H. apply Hk. now right.
  - symmetry. apply bool_decide_eq_false. intros E. apply Hk. now left.
Qed.

Lemma fold_updates us : forall ns done,
  NoDup (map n_id (done ++ ns)) ->
  map u_id us = map n_id ns ->
  fold_left (fun ds u => DataSet.update n_id (u_id u) (apply_style u) ds) us (done ++ ns)
    = done ++ zip_with apply_style us ns.
Proof.
  induction us as [|u us IH]; intros ns done Hnd Hid.
  - destruct ns; [|discriminate]. reflexivity.
  - destruct ns as [|n ns]; [discriminate|]. cbn [map] in Hid. injection Hid as Hu Hid.
    cbn [fold_left zip_with].
    assert (E : DataSet.update n_id (u_id u) (apply_style u) (done ++ n :: ns)
                = (done ++ [apply_style u n]) ++ ns).
    { rewrite map_app in Hnd. cbn [map] in Hnd.
      apply NoDup_app in Hnd as (_ & Hdisj & Htl).
      apply NoDup_cons in Htl as [Hn _].
      unfold DataSet.update. rewrite map_app. cbn [map].
      fold (DataSet.update n_id (u_id u) (apply_style u) done).
      fold (DataSet.update n_id (u_id u) (apply_style u) ns).
      rewrite Hu, eqs_refl, !update_other.
      - now rewrite <- app_assoc.
      - intros H. apply Hn. now apply list_elem_of_In.
      - intros H. apply (Hdisj (n_id n)); [now apply list_elem_of_In|]. left. }
    rewrite E, IH.
    + now rewrite <- app_assoc.
    + rewrite <- app_assoc. cbn [app]. rewrite !map_app in *. exact Hnd.
    + exact Hid.
Qed.

(** On a data set without a repeated id, [updateNodeStyles] restyles every
    node by itself. *)
Lemma updateNodeStyles_each fs ns :
  NoDup (map n_id ns) -> updateNodeStyles fs ns = mapM (restyled fs) ns.
Proof.
  intros Hnd. unfold updateNodeStyles.
  destruct (mapM (style_of fs) ns) as [us|] eqn:E; cbn [mbind option_bind].
  - assert (Hid : map u_id us = map n_id ns).
    { apply mapM_Some in E. clear Hnd. induction E as [|n u ns us Hu _ IH]; [reflexivity|].
      cbn [map]. now rewrite IH, (style_of_id _ _ _ Hu). }
    pose proof (fold_updates us ns [] Hnd Hid) as Hf. cbn [app] in Hf. rewrite Hf.
    symmetry. apply mapM_Some. apply mapM_Some in E. clear Hnd Hid Hf.
    induction E as [|n u ns us Hu _ IH]; [constructor|].
    cbn [zip_with]. constructor; [|exact IH]. unfold restyled. now rewrite Hu.
  - symmetry. apply mapM_None. apply mapM_None in E.
    eapply Exists_impl; [exact E|]. cbn beta. intros n Hs.
    unfold restyled. now rewrite Hs.
Qed.

Lemma restyled_nodeConfig fs fs' i x lbl lvl g hc :
  i <> ROOT -> displayLabel x hc = Some lbl ->
  restyled fs' (nodeConfig fs i x lbl lvl g hc)
    = Some (nodeConfig fs' i x lbl lvl g hc).
Proof.
  intros Hi Hl. unfold restyled, style_of. cbn [nodeConfig n_id n_shape].
  replace (eqs i ROOT) with false by (symmetry; now apply bool_decide_eq_false).
  assert (Ht : styled_text (nodeConfig fs i x lbl lvl g hc) = Some x).
  { unfold styled_text. cbn [nodeConfig n_originalText n_title]. now destruct (truthy x). }
  rewrite Ht. cbn [mbind option_bind].
  destruct hc; cbn [n_shape]; rewrite Hl; reflexivity.
Qed.

Lemma restyled_rootNode fs family :
  restyled fs (rootNode family) = Some (rootNode (fs_family fs)).
Proof. unfold restyled, style_of. cbn [rootNode n_id]. now rewrite eqs_refl. Qed.

Lemma restyled_graph_nodes autoGroup fs fs' F : forall lvl pg,
  labels_defined F ->
  ~ In ROOT (forest_ids F) ->
  Forall2 (fun x y => restyled fs' x = Some y)
    (flat_map (graph_nodes autoGroup fs lvl pg) F)
    (flat_map (graph_nodes autoGroup fs' lvl pg) F).
Proof.
  induction F as [|i x ks F IHks IHF] using ntree_forest_ind; intros lvl pg Hd Hr.
  - constructor.
  - unfold labels_defined in Hd. rewrite forest_nodes_cons in Hd.
    apply Forall_cons in Hd as [[lbl Hl] Hd]. apply Forall_app in Hd as [Hdk HdF].
    rewrite forest_ids_cons in Hr. cbn [nt_text nt_kids] in Hl.
    cbn [flat_map graph_nodes]. rewrite Hl. cbn [default]. constructor.
    + apply restyled_nodeConfig; [|exact Hl]. intros ->. apply Hr. now left.
    + apply Forall2_app.
      * apply IHks; [exact Hdk|]. intros H. apply Hr. right. apply in_or_app. now left.
      * apply IHF; [exact HdF|]. intros H. apply Hr. right. apply in_or_app. now right.
Qed.

Lemma processTasks_defined autoGroup fs ts :
  forall parentId lvl parentGroup st,
  labels_defined (number_forest (b_nodeId st) (map shape_of ts)) ->
  is_Some (processTasks autoGroup fs ts parentId lvl parentGroup st).
Proof.
  induction ts as [|x l cs ts IHcs IHts] using task_forest_ind;
    intros parentId lvl parentGroup st Hd.
  - cbn. eauto.
  - cbn [map shape_of number_forest] in Hd. fold shape_of in Hd.
    rewrite number_unfold in Hd. unfold labels_defined in Hd.
    rewrite forest_nodes_cons in Hd.
    apply Forall_cons in Hd as [[lbl Hl] Hd]. apply Forall_app in Hd as [Hdk HdF].
    cbn [nt_text nt_kids] in Hl.
    replace (match number_forest (b_nodeId st + 1) (map shape_of cs) with
             | [] => false | _ :: _ => true end)
      with (match cs with [] => false | _ :: _ => true end) in Hl by now destruct cs.
    cbn [processTasks]. rewrite processTask_unfold. cbv zeta. rewrite Hl.
    cbn [mbind option_bind].
    match goal with |- is_Some (mbind _ (processTasks _ _ cs ?p ?lv ?g ?s1)) =>
      destruct (IHcs p lv g s1 Hdk) as [st1 E1];
      destruct (processTasks_graph _ _ _ _ _ _ _ _ E1) as (Hn1 & _)
    end.
    rewrite E1. cbn [mbind option_bind]. cbn [b_nodeId] in Hn1.
    apply IHts.
    change (rose_size (Rose x (map shape_of cs)))
      with (S (forest_size (map shape_of cs))) in HdF.
    replace (b_nodeId st1)
      with (b_nodeId st + N.of_nat (S (forest_size (map shape_of cs))))%N by lia.
    exact HdF.
Qed.

(** X7: restyling a built graph with other font settings gives the nodes that
    building the same forest with these settings gives: the two copies of
    the label code agree. *)
Theorem updateNodeStyles_is_rebuild autoGroup fs fs' T ns es :
  buildNetworkData autoGroup fs T = Some (ns, es) ->
  exists ns',
    updateNodeStyles fs' ns = Some ns' /\
    buildNetworkData autoGroup fs' T = Some (ns', es).
Proof.
  intros Hb.
  destruct (buildNetworkData_graph _ _ _ _ _ Hb) as (Hns & Hes & Hd).
  set (F := number_forest 0 (map shape_of T)) in *.
  pose proof (numbered_forest_NoDup (map shape_of T) 0) as Hnd. fold F in Hnd.
  assert (Hr : ~ In ROOT (forest_ids F)).
  { apply NoDup_cons in Hnd as [Hr _]. now rewrite list_elem_of_In in Hr. }
  exists (rootNode (fs_family fs') :: flat_map (graph_nodes autoGroup fs' 1 None) F).
  split.
  - rewrite updateNodeStyles_each.
    + apply mapM_Some. rewrite Hns. constructor; [apply restyled_rootNode|].
      now apply restyled_graph_nodes.
    + rewrite Hns. cbn [map rootNode n_id]. now rewrite graph_nodes_ids.
  - destruct (processTasks_defined autoGroup fs' T ROOT 1 None
                {| b_nodeId := 0; b_nodes := [rootNode (fs_family fs')]; b_edges := [] |}
                Hd) as [st' E].
    assert (Hb' : buildNetworkData autoGroup fs' T = Some (b_nodes st', b_edges st')).
    { unfold buildNetworkData. now rewrite E. }
    destruct (buildNetworkData_graph _ _ _ _ _ Hb') as (Hns' & Hes' & _).
    fold F in Hns', Hes'. now rewrite Hb', Hns', Hes', Hes.
Qed.

Lemma updateNodeStyles_is_rebuild_witness :
  exists ns es ns',
    buildNetworkData true sample_fonts sample_hierarchy = Some (ns, es) /\
    updateNodeStyles italic_fonts ns = Some ns' /\
    buildNetworkData true italic_fonts sample_hierarchy = Some (ns', es).
Proof.
  destruct (buildNetworkData true sample_fonts sample_hierarchy) as [[ns es]|] eqn:E;
    [|discriminate E].
  destruct (updateNodeStyles_is_rebuild true sample_fonts italic_fonts
              sample_hierarchy ns es E) as (ns' & H1 & H2).
  exists ns, es, ns'. split; [reflexivity|]. split; [exact H1|exact H2].
Defined.

(** ** Descendants *)

Lemma reaches_inv es a c :
  reaches es a c ->
  exists e, In e es /\ e_from e = a /\ (e_to e = c \/ reaches es (e_to e) c).
Proof. intros H. destruct H as [e He|e c He Hr]; exists e; auto. Qed.

Lemma reaches_trans es a b c : reaches es a b -> reaches es b c -> reaches es a c.
Proof.
  induction 1 as [e He|e b He Hr IH]; intros Hbc.
  - now apply reaches_step.
  - apply reaches_step; [exact He|now apply IH].
Qed.

(** What the loop of [getAllDescendants] over the child edges collects. *)
Lemma descendants_loop fuel es children : forall l,
  foldr (fun e acc =>
           below ← getAllDescendants fuel es (e_to e);
           rest ← acc;
           Some (e_to e :: below ++ rest))
        (Some []) children = Some l ->
  Forall (fun e => is_Some (getAllDescendants fuel es (e_to e))) children /\
  forall x, In x l <->
    exists e, In e children /\
      (x = e_to e \/
       exists below, getAllDescendants fuel es (e_to e) = Some below /\ In x below).
Proof.
  induction children as [|e children IH]; intros l H.
  - cbn in H. injection H as <-. split; [constructor|].
    intros x. split; [intros []|intros (e & [] & _)].
  - cbn [foldr] in H.
    destruct (getAllDescendants fuel es (e_to e)) as [below|] eqn:Eb; [|discriminate].
    cbn [mbind option_bind] in H.
    destruct (foldr _ _ children) as [rest|] eqn:Er; [|discriminate].
    cbn [mbind option_bind] in H. injection H as <-.
    destruct (IH rest eq_refl) as [Hall Hin]. split.
    + constructor; [rewrite Eb; eauto|exact Hall].
    + intros x. cbn [In]. rewrite in_app_iff, Hin. split.
      * intros [<-|[Hx|(e' & He' & Hx)]].
        -- exists e. split; [now left|now left].
        -- exists e. split; [now left|]. right. eauto.
        -- exists e'. split; [now right|exact Hx].
      * intros (e' & [<-|He'] & Hx).
        -- destruct Hx as [->|(b & Hb & Hx)]; [now left|].
           right. left. rewrite Eb in Hb. now injection Hb as <-.
        -- right. right. eauto.
Qed.

Lemma descendants_sound fuel es : forall k l,
  getAllDescendants fuel es k = Some l ->
  forall x, In x l <-> reaches es k x.
Proof.
  induction fuel as [|fuel IH]; intros k l H; [discriminate|].
  cbn [getAllDescendants] in H.
  destruct (descendants_loop _ _ _ _ H) as [_ Hin]. intros x. rewrite Hin.
  unfold DataSet.get_filter. split.
  - intros (e & He & Hx). apply filter_In in He as [He Hf]. apply eqs_eq in Hf.
    subst k. destruct Hx as [->|(b & Hb & Hx)].
    + now apply reaches_edge.
    + apply reaches_step; [exact He|]. now apply (IH _ _ Hb).
  - intros Hr. apply reaches_inv in Hr as (e & He & Hf & Hx).
    exists e. split; [apply filter_In; split; [exact He|now apply eqs_eq]|].
    destruct Hx as [<-|Hx]; [now left|]. right.
    assert (Hc : In e (List.filter (fun e => eqs (e_from e) k) es)).
    { apply filter_In. split; [exact He|now apply eqs_eq]. }
    destruct (descendants_loop _ _ _ _ H) as [Hall _].
    rewrite Forall_forall in Hall.
    destruct (Hall e ltac:(now apply list_elem_of_In)) as [b Hb].
    exists b. split; [exact Hb|]. now apply (IH _ _ Hb).
Qed.

Lemma descendants_loop_None fuel es children e :
  In e children -> getAllDescendants fuel es (e_to e) = None ->
  foldr (fun e acc =>
           below ← getAllDescendants fuel es (e_to e);
           rest ← acc;
           Some (e_to e :: below ++ rest))
        (Some []) children = None.
Proof.
  induction children as [|c children IH]; intros He Hn; [destruct He|].
  cbn [foldr]. destruct He as [->|He].
  - now rewrite Hn.
  - destruct (getAllDescendants fuel es (e_to c)); [|reflexivity].
    cbn [mbind option_bind]. now rewrite IH.
Qed.

Lemma descendants_cycle fuel es : forall k,
  reaches es k k -> getAllDescendants fuel es k = None.
Proof.
  induction fuel as [|fuel IH]; intros k Hk; [reflexivity|].
  cbn [getAllDescendants].
  pose proof Hk as Hk'. apply reaches_inv in Hk' as (e & He & Hf & Hx).
  apply (descendants_loop_None _ _ _ e).
  - unfold DataSet.get_filter. apply filter_In. split; [exact He|now apply eqs_eq].
  - apply IH. destruct Hx as [Hx|Hx].
    + now rewrite Hx.
    + apply (reaches_trans _ _ k); [exact Hx|]. rewrite <- Hf. now apply reaches_edge.
Qed.

(** X9: [getAllDescendants] returns, when it returns, the nodes that are
    reached from the node along the edges, and only these; on a node that
    lies on a cycle of edges its recursion never ends, whatever depth it is
    given. *)
Theorem getAllDescendants_reachable es k :
  (forall fuel l, getAllDescendants fuel es k = Some l ->
     forall x, In x l <-> reaches es k x) /\
  (reaches es k k -> forall fuel, getAllDescendants fuel es k = None).
Proof.
  split.
  - intros fuel l H. now apply (descendants_sound fuel).
  - intros Hk fuel. now apply descendants_cycle.
Qed.

Lemma getAllDescendants_reachable_witness :
  let es := [plain_edge "a" "b" 2; plain_edge "b" "a" 2] in
  reaches es (str "a") (str "a") /\
  getAllDescendants 100 es (str "a") = None.
Proof.
  intros es.
  assert (H : reaches es (str "a") (str "a")).
  { apply (reaches_step es (plain_edge "a" "b" 2)); [now left|].
    apply (reaches_edge es (plain_edge "b" "a" 2)). right. now left. }
  split; [exact H|].
  exact (proj2 (getAllDescendants_reachable es (str "a")) H 100).
Defined.

(** ** Deleting in a numbered tree *)

Lemma deleteNode_result st sel below :
  selectedNodeId st = Some sel ->
  no_target (Some sel) = false ->
  getAllDescendants (S (length (edges st))) (edges st) sel = Some below ->
  deleteNode st
    = Some {| nodes := DataSet.remove n_id (below ++ [sel]) (nodes st);
              edges := edges st; selectedNodeId := None |}.
Proof.
  intros Hsel Hnt Hb. unfold deleteNode. rewrite Hsel, Hnt.
  change (default [] (Some sel)) with sel. rewrite Hb. cbn [mbind option_bind].
  destruct (head (DataSet.get_filter (fun e => eqs (e_to e) sel) (edges st)))
    as [pe|] eqn:Ehead; [|reflexivity].
  apply get_filter_head_in in Ehead as [Hin _].
  assert (Hne : length (DataSet.get_filter
                          (fun e => eqs (e_from e) (e_from pe)) (edges st)) <> 0).
  { unfold DataSet.get_filter.
    assert (Hin' : In pe (List.filter (fun e => eqs (e_from e) (e_from pe)) (edges st))).
    { apply filter_In. split; [exact Hin|apply eqs_refl]. }
    destruct (List.filter _ (edges st)); [destruct Hin'|discriminate]. }
  apply Nat.eqb_neq in Hne. rewrite Hne. reflexivity.
Qed.

Lemma remove_In (ks : list jsstring) (ds : list node) n :
  In n (DataSet.remove n_id ks ds) <-> In n ds /\ ~ In (n_id n) ks.
Proof.
  unfold DataSet.remove. rewrite filter_In, negb_true_iff.
  split; intros [H1 H2]; (split; [exact H1|]).
  - intros Hin. apply not_true_iff_false in H2. apply H2.
    apply existsb_exists. exists (n_id n). split; [exact Hin|apply eqs_refl].
  - apply not_true_iff_false. intros Hex. apply existsb_exists in Hex as (k & Hk & E).
    apply eqs_eq in E. subst k. contradiction.
Qed.

(** The task at the far end of a forward edge has a number below [n] when
    the edges are those of [n] tasks. *)
Lemma forward_edge_from es n e j :
  map e_to es = ids_from 0 n -> Forall forward_edge es ->
  In e es -> e_from e = task_id j ->
  exists k, (j < k)%N /\ (k < N.of_nat n)%N /\ e_to e = task_id k.
Proof.
  intros Hto Hf He Hj.
  rewrite Forall_forall in Hf. pose proof (Hf e ltac:(now apply list_elem_of_In)) as Hfe.
  destruct Hfe as [Hr|(j' & k & Hlt & Hfrom & Hk)].
  - rewrite Hj in Hr. now apply task_id_not_root in Hr.
  - rewrite Hj in Hfrom. apply task_id_inj in Hfrom as <-.
    exists k. split; [exact Hlt|]. split; [|exact Hk].
    assert (Hin : In (e_to e) (ids_from 0 n)) by (rewrite <- Hto; now apply in_map).
    unfold ids_from in Hin. apply in_map_iff in Hin as (i & Hi & Hrange).
    rewrite Hk in Hi. apply task_id_inj in Hi. apply in_seq in Hrange. lia.
Qed.

Lemma descendants_loop_Some fuel es children :
  Forall (fun e => is_Some (getAllDescendants fuel es (e_to e))) children ->
  is_Some (foldr (fun e acc =>
                    below ← getAllDescendants fuel es (e_to e);
                    rest ← acc;
                    Some (e_to e :: below ++ rest))
                 (Some []) children).
Proof.
  induction 1 as [|e children [b Hb] _ [r IH]]; [cbn; eauto|].
  cbn [foldr]. rewrite Hb, IH. cbn. eauto.
Qed.

Lemma descendants_forward es n :
  map e_to es = ids_from 0 n -> Forall forward_edge es ->
  forall fuel j, (N.of_nat n <= N.of_nat fuel + j)%N -> (j < N.of_nat n)%N ->
    is_Some (getAllDescendants fuel es (task_id j)).
Proof.
  intros Hto Hf. induction fuel as [|fuel IH]; intros j Hn Hj; [lia|].
  cbn [getAllDescendants]. apply descendants_loop_Some.
  unfold DataSet.get_filter. apply Forall_forall. intros e He.
  apply list_elem_of_In, filter_In in He as [He Hfrom]. apply eqs_eq in Hfrom.
  destruct (forward_edge_from es n e j Hto Hf He Hfrom) as (k & Hjk & Hk & ->).
  apply IH; lia.
Qed.

Lemma descendants_numbered_tree ns es n sel :
  numbered_tree ns es n -> sel <> ROOT ->
  is_Some (getAllDescendants (S (length es)) es sel).
Proof.
  intros (_ & Hto & Hf) Hsel.
  assert (Hlen : length es = n).
  { rewrite <- (length_map e_to), Hto. unfold ids_from.
    now rewrite length_map, length_seq. }
  cbn [getAllDescendants]. apply descendants_loop_Some.
  unfold DataSet.get_filter. apply Forall_forall. intros e He.
  apply list_elem_of_In, filter_In in He as [He Hfrom]. apply eqs_eq in Hfrom.
  rewrite Forall_forall in Hf. pose proof (Hf e ltac:(now apply list_elem_of_In)) as Hfe.
  destruct Hfe as [Hr|(j & k & Hlt & Hj & Hk)]; [congruence|].
  destruct (forward_edge_from es n e j Hto ltac:(now apply Forall_forall) He Hj)
    as (k' & Hjk & Hk' & ->).
  apply (descendants_forward es n Hto ltac:(now apply Forall_forall)); lia.
Qed.

Lemma reaches_not_root ns es n a :
  numbered_tree ns es n -> ~ reaches es a ROOT.
Proof.
  intros (_ & Hto & _) Hr.
  assert (Hin : forall a c, reaches es a c -> In c (map e_to es)).
  { clear. intros a c H. induction H as [e He|e c He _ IH]; [now apply in_map|exact IH]. }
  apply Hin in Hr. rewrite Hto in Hr. unfold ids_from in Hr.
  apply in_map_iff in Hr as (i & Hi & _). now apply task_id_not_root in Hi.
Qed.

(** X10: in a numbered tree, such as the builder and the importers make,
    deleting the selected task always returns: it removes the task and the
    tasks reached from it along the edges, and nothing else; the root
    stays, every edge stays, and the selection is cleared. *)
Theorem deleteNode_numbered_tree st n sel :
  numbered_tree (nodes st) (edges st) n ->
  selectedNodeId st = Some sel ->
  no_target (Some sel) = false ->
  exists st',
    deleteNode st = Some st' /\
    edges st' = edges st /\
    selectedNodeId st' = None /\
    (forall nd, In nd (nodes st') <->
       In nd (nodes st) /\ n_id nd <> sel /\ ~ reaches (edges st) sel (n_id nd)) /\
    (forall nd, In nd (nodes st) -> n_id nd = ROOT -> In nd (nodes st')).
Proof.
  intros Htree Hsel Hnt.
  assert (Hroot : sel <> ROOT).
  { cbn [no_target] in Hnt. apply orb_false_elim in Hnt as [_ Hnt].
    now apply bool_decide_eq_false in Hnt. }
  destruct (descendants_numbered_tree _ _ _ sel Htree Hroot) as [below Hb].
  eexists. split; [now apply (deleteNode_result st sel below)|].
  cbn [nodes edges selectedNodeId]. split; [reflexivity|]. split; [reflexivity|].
  assert (Hmem : forall nd, In nd (DataSet.remove n_id (below ++ [sel]) (nodes st)) <->
            In nd (nodes st) /\ n_id nd <> sel /\ ~ reaches (edges st) sel (n_id nd)).
  { intros nd. rewrite remove_In, in_app_iff.
    rewrite (descendants_sound _ _ _ _ Hb). cbn [In]. split.
    - intros [H1 H2]. split; [exact H1|]. split.
      + intros E. apply H2. right. now left.
      + intros Hr. apply H2. now left.
    - intros (H1 & H2 & H3). split; [exact H1|].
      intros [Hr|[E|[]]]; [now apply H3|now apply H2]. }
  split; [exact Hmem|].
  intros nd Hnd Hid. apply Hmem. split; [exact Hnd|]. split; [congruence|].
  rewrite Hid. now apply (reaches_not_root _ _ _ sel Htree).
Qed.

Lemma deleteNode_numbered_tree_witness :
  exists st',
    deleteNode family_doc = Some st' /\
    edges st' = edges family_doc /\
    selectedNodeId st' = None.
Proof.
  destruct (deleteNode_numbered_tree family_doc 4 (str "task_0"))
    as (st' & H1 & H2 & H3 & _).
  - split; [vm_compute; reflexivity|]. split; [vm_compute; reflexivity|].
    cbn [family_doc edges].
    constructor; [left; reflexivity|].
    constructor; [right; exists 0%N, 1%N; repeat split|].
    constructor; [right; exists 1%N, 2%N; repeat split|].
    constructor; [right; exists 0%N, 3%N; repeat split|].
    constructor.
  - reflexivity.
  - reflexivity.
  - exists st'. auto.
Defined.

(** ** Adding nodes *)

Lemma get_Some_In (ds : list node) k x :
  DataSet.get n_id ds k = Some x -> In x ds /\ n_id x = k.
Proof.
  unfold DataSet.get. intros H. apply find_some in H as [H1 H2].
  split; [exact H1|now apply eqs_eq].
Qed.

Lemma get_None_fresh (ds : list node) k :
  DataSet.get n_id ds k = None -> ~ In k (map n_id ds).
Proof.
  unfold DataSet.get. intros H Hin. apply in_map_iff in Hin as (x & <- & Hx).
  pose proof (find_none _ _ H x Hx) as E. cbn in E. now rewrite eqs_refl in E.
Qed.

Lemma update_ids (f : node -> node) k ds :
  (forall x, n_id (f x) = n_id x) ->
  map n_id (DataSet.update n_id k f ds) = map n_id ds.
Proof.
  intros Hf. unfold DataSet.update. rewrite map_map. apply map_ext.
  intros x. now destruct (eqs (n_id x) k).
Qed.

(** What a successful [addChildNode] does, when it does anything. *)
Lemma addChildNode_cases now st st' :
  addChildNode now st = Some st' ->
  st' = st \/
  exists sel selectedNode,
    selectedNodeId st = Some sel /\ no_target (Some sel) = false /\
    DataSet.get n_id (nodes st) sel = Some selectedNode /\
    ~ In (task_id now) (map n_id (nodes st)) /\
    (exists upd,
       (forall x, n_id (upd x) = n_id x) /\
       (forall x, n_id x <> sel -> upd x = x) /\
       nodes st' = map upd (nodes st)
                   ++ [new_task (task_id now) (n_level selectedNode + 1) selectedNode]) /\
    edges st' = edges st ++
      [ {| e_from := sel; e_to := task_id now; e_width := 2; e_color := None |} ] /\
    selectedNodeId st' = Some (task_id now).
Proof.
  unfold addChildNode.
  destruct (selectedNodeId st) as [sel|] eqn:Esel.
  2:{ cbn. intros H. injection H as <-. now left. }
  destruct (no_target (Some sel)) eqn:Ent.
  { intros H. injection H as <-. now left. }
  change (default [] (Some sel)) with sel.
  destruct (DataSet.get n_id (nodes st) sel) as [selectedNode|] eqn:Eget.
  2:{ intros H. injection H as <-. now left. }
  unfold DataSet.add at 1. cbn [new_task n_id].
  destruct (DataSet.get n_id (nodes st) (task_id now)) eqn:Efresh; [discriminate|].
  cbn [mbind option_bind]. intros H. injection H as <-. right.
  exists sel, selectedNode.
  split; [reflexivity|]. split; [exact Ent|]. split; [exact Eget|].
  split; [now apply get_None_fresh|]. split; [|split; reflexivity].
  - destruct (get_Some_In _ _ _ Eget) as [_ Hid].
    assert (Hnew : n_id (new_task (task_id now) (n_level selectedNode + 1) selectedNode)
                   <> sel).
    { cbn [new_task n_id]. intros E. apply (get_None_fresh _ _ Efresh).
      rewrite E, <- Hid. apply in_map. now apply (get_Some_In _ _ _ Eget). }
    destruct (n_shape selectedNode).
    + exists (fun x => x). repeat split; try reflexivity.
      cbn [nodes]. now rewrite map_id.
    + exists (fun x => if eqs (n_id x) sel then to_container selectedNode x else x).
      split; [intros x; now destruct (eqs (n_id x) sel)|]. split.
      * intros x Hx. replace (eqs (n_id x) sel) with false; [reflexivity|].
        symmetry. now apply bool_decide_eq_false.
      * cbn [nodes]. unfold DataSet.update. rewrite map_app. cbn [map]. f_equal.
        replace (eqs _ sel) with false; [reflexivity|].
        symmetry. now apply bool_decide_eq_false.
Qed.

(** What a successful [addSiblingNode] does, when it does anything. *)
Lemma addSiblingNode_cases now st st' :
  addSiblingNode now st = Some st' ->
  st' = st \/
  exists sel selectedNode parentEdge,
    selectedNodeId st = Some sel /\ no_target (Some sel) = false /\
    DataSet.get n_id (nodes st) sel = Some selectedNode /\
    In parentEdge (edges st) /\ e_to parentEdge = sel /\
    ~ In (task_id now) (map n_id (nodes st)) /\
    nodes st' = nodes st ++ [new_task (task_id now) (n_level selectedNode) selectedNode] /\
    edges st' = edges st ++
      [ {| e_from := e_from parentEdge; e_to := task_id now;
           e_width := if n_level selectedNode =? 1 then 3 else 2;
           e_color := None |} ] /\
    selectedNodeId st' = Some (task_id now).
Proof.
  unfold addSiblingNode.
  destruct (selectedNodeId st) as [sel|] eqn:Esel.
  2:{ cbn. intros H. injection H as <-. now left. }
  destruct (no_target (Some sel)) eqn:Ent.
  { intros H. injection H as <-. now left. }
  change (default [] (Some sel)) with sel.
  destruct (DataSet.get_filter _ (edges st)) as [|pe rest] eqn:Ef.
  { intros H. injection H as <-. now left. }
  assert (Hpe : In pe (edges st) /\ eqs (e_to pe) sel = true).
  { apply (get_filter_head_in (fun e => eqs (e_to e) sel)). now rewrite Ef. }
  destruct (DataSet.get n_id (nodes st) sel) as [selectedNode|] eqn:Eget; [|discriminate].
  cbn [mbind option_bind]. unfold DataSet.add at 1. cbn [new_task n_id].
  destruct (DataSet.get n_id (nodes st) (task_id now)) eqn:Efresh; [discriminate|].
  cbn [mbind option_bind]. intros H. injection H as <-. right.
  exists sel, selectedNode, pe. destruct Hpe as [Hin Hto]. apply eqs_eq in Hto.
  split; [reflexivity|]. split; [exact Ent|]. split; [exact Eget|].
  split; [exact Hin|]. split; [exact Hto|].
  split; [now apply get_None_fresh|]. repeat split.
Qed.

Lemma one_parent_grows st st' e :
  one_parent st ->
  map n_id (nodes st') = map n_id (nodes st) ++ [e_to e] ->
  edges st' = edges st ++ [e] ->
  ~ In (e_to e) (map n_id (nodes st)) -> e_to e <> ROOT ->
  In (e_from e) (map n_id (nodes st)) ->
  one_parent st'.
Proof.
  intros (Hnd & Hperm & Hfrom) Hids Hes Hfresh Hroot Hin.
  unfold one_parent. rewrite Hids, Hes. split; [|split].
  - apply NoDup_app. split; [exact Hnd|]. split.
    + intros k Hk [E|[]]%list_elem_of_In. subst k. now apply list_elem_of_In in Hk.
    + apply NoDup_singleton.
  - rewrite map_app, List.filter_app. cbn [map List.filter].
    replace (eqs (e_to e) ROOT) with false
      by (symmetry; now apply bool_decide_eq_false).
    cbn [negb]. now apply Permutation_app.
  - apply Forall_app. split.
    + eapply Forall_impl; [exact Hfrom|]. cbn beta. intros x Hx.
      apply in_or_app. now left.
    + constructor; [|constructor]. apply in_or_app. now left.
Qed.

(** X11: adding a child or a sibling keeps the document a tree: no id is used
    twice, every node but the root has exactly one edge into it, and every
    edge leaves a node of the document. *)
Theorem add_keeps_one_parent now st st' :
  one_parent st ->
  addChildNode now st = Some st' \/ addSiblingNode now st = Some st' ->
  one_parent st'.
Proof.
  intros Hok [H|H].
  - apply addChildNode_cases in H
      as [->|(sel & sn & Hsel & Hnt & Hget & Hfresh & (upd & Hu1 & _ & Hns) & Hes & _)];
      [exact Hok|].
    eapply (one_parent_grows st st'); [exact Hok| |exact Hes| | |]; cbn [e_to e_from].
    + rewrite Hns, map_app, map_map. cbn [map new_task n_id]. f_equal.
      apply map_ext. exact Hu1.
    + exact Hfresh.
    + apply task_id_not_root.
    + destruct (get_Some_In _ _ _ Hget) as [Hin <-]. now apply in_map.
  - apply addSiblingNode_cases in H
      as [->|(sel & sn & pe & Hsel & Hnt & Hget & Hpe & Hto & Hfresh & Hns & Hes & _)];
      [exact Hok|].
    eapply (one_parent_grows st st'); [exact Hok| |exact Hes| | |]; cbn [e_to e_from].
    + rewrite Hns, map_app. reflexivity.
    + exact Hfresh.
    + apply task_id_not_root.
    + destruct Hok as (_ & _ & Hfrom). rewrite Forall_forall in Hfrom.
      apply Hfrom. now apply list_elem_of_In.
Qed.

Lemma add_keeps_one_parent_witness :
  exists st',
    addChildNode 1700000000000%N only_child_doc = Some st' /\ one_parent st'.
Proof.
  destruct (addChildNode 1700000000000%N only_child_doc) as [st'|] eqn:E;
    [|discriminate E].
  exists st'. split; [reflexivity|].
  apply (add_keeps_one_parent 1700000000000%N only_child_doc st').
  - split; [|split].
    + vm_compute. repeat constructor; intros H; inversion H; subst;
        repeat match goal with H : _ ∈ _ |- _ => inversion H; clear H; subst end.
    + vm_compute. reflexivity.
    + cbn [only_child_doc edges nodes].
      constructor; [vm_compute; now left|].
      constructor; [vm_compute; right; now left|]. constructor.
  - left. exact E.
Defined.

(** ** Navigation *)

Lemma find_unique_target es c :
  NoDup (map e_to es) -> In c es ->
  List.find (fun e => eqs (e_to e) (e_to c)) es = Some c.
Proof.
  induction es as [|e es IH]; intros Hnd Hc; [destruct Hc|].
  cbn [map] in Hnd. apply NoDup_cons in Hnd as [Hfresh Hnd].
  cbn [List.find]. destruct Hc as [->|Hc].
  - now rewrite eqs_refl.
  - destruct (eqs (e_to e) (e_to c)) eqn:E; [|now apply IH].
    apply eqs_eq in E. exfalso. apply Hfresh. rewrite E.
    apply list_elem_of_In. now apply in_map.
Qed.

(** X12: where every node has at most one edge into it, the down arrow on a
    node with children selects its first child, and the up arrow then
    selects the node again. *)
Theorem navigate_down_then_up st sel child rest :
  selectedNodeId st = Some sel -> truthy sel = true ->
  NoDup (map e_to (edges st)) ->
  List.filter (fun e => eqs (e_from e) sel) (edges st) = child :: rest ->
  truthy (e_to child) = true ->
  selectedNodeId (navigateWithArrows ArrowDown st) = Some (e_to child) /\
  navigateWithArrows ArrowUp (navigateWithArrows ArrowDown st) = st.
Proof.
  intros Hsel Hs Hnd Hf Hc.
  assert (Hdown : navigateWithArrows ArrowDown st
                  = {| nodes := nodes st; edges := edges st;
                       selectedNodeId := Some (e_to child) |}).
  { unfold navigateWithArrows. rewrite Hsel, Hs. cbn [negb arrow_target].
    now rewrite Hf, Hc. }
  rewrite Hdown. split; [reflexivity|].
  assert (Hin : In child (edges st) /\ eqs (e_from child) sel = true).
  { apply (filter_In (fun e => eqs (e_from e) sel)). rewrite Hf. now left. }
  destruct Hin as [Hin Hfrom]. apply eqs_eq in Hfrom.
  unfold navigateWithArrows. cbn [selectedNodeId edges nodes]. rewrite Hc.
  cbn [negb arrow_target]. rewrite (find_unique_target _ _ Hnd Hin).
  cbn [fmap option_fmap option_map]. rewrite Hfrom, Hs.
  destruct st as [ns es s]. cbn in Hsel. now rewrite Hsel.
Qed.

Lemma navigate_down_then_up_witness :
  selectedNodeId (navigateWithArrows ArrowDown family_doc) = Some (str "task_1") /\
  navigateWithArrows ArrowUp (navigateWithArrows ArrowDown family_doc) = family_doc.
Proof.
  apply (navigate_down_then_up family_doc (str "task_0")
           (plain_edge "task_0" "task_1" 2) [plain_edge "task_0" "task_3" 2]).
  - reflexivity.
  - reflexivity.
  - apply (bool_decide_unpack _). vm_compute. exact I.
  - reflexivity.
  - reflexivity.
Defined.

(** ** Plain text import: the document *)

Lemma ids_from_snoc n k : ids_from n (S k) = ids_from n k ++ [task_id (n + N.of_nat k)].
Proof.
  replace (S k) with (k + 1) by lia. rewrite ids_from_app.
  unfold ids_from at 2. cbn [seq map]. now rewrite N.add_0_r.
Qed.

Lemma pop_entries_sub lvl stack :
  exists dropped, stack = dropped ++ pop_entries lvl stack.
Proof.
  induction stack as [|top rest [dropped IH]]; [now exists []|].
  cbn [pop_entries]. destruct (lvl <=? snd top).
  - exists (top :: dropped). cbn. now f_equal.
  - now exists [].
Qed.

Lemma import_text_line_ok kept st l :
  import_ok kept st -> import_line l = true ->
  import_ok (kept ++ [l]) (import_text_line st l).
Proof.
  intros (Hid & (Hn & Hto & Hf) & Hlab & Hlev & Hun & Hst) Hl.
  unfold import_line in Hl. apply andb_prop in Hl as [Hl _].
  unfold import_text_line. rewrite Hl. cbn [negb].
  fold (import_indent l).
  set (stack := pop_entries (import_indent l) (i_stack st)).
  assert (Hstack : Forall (fun entry => exists j, (j < N.of_nat (length kept))%N /\
                             fst entry = task_id j) stack).
  { destruct (pop_entries_sub (import_indent l) (i_stack st)) as [dropped E].
    fold stack in E. rewrite E in Hst. now apply Forall_app in Hst as [_ Hst]. }
  unfold import_ok. cbn [i_nodeId i_nodes i_edges i_stack].
  rewrite length_app. cbn [length]. rewrite Nat.add_1_r.
  split; [lia|]. split; [|split; [|split; [|split]]].
  - unfold numbered_tree. rewrite !map_app, Hn, Hto, ids_from_snoc. cbn [map n_id e_to imported_node].
    rewrite Hid, N.add_0_l. split; [reflexivity|]. split; [reflexivity|].
    apply Forall_app. split; [exact Hf|]. constructor; [|constructor].
    destruct stack as [|[p lv] stack']; [now left|].
    apply Forall_cons in Hstack as [(j & Hj & Hp) _]. cbn [fst] in Hp.
    right. exists j, (N.of_nat (length kept)). cbn [e_from e_to]. auto.
  - rewrite !map_app, Hlab. cbn [map imported_node n_label]. reflexivity.
  - rewrite !map_app, Hlev. cbn [map imported_node n_level].
    now rewrite Nat.add_1_r.
  - apply Forall_app. split; [exact Hun|]. constructor; [|constructor].
    split; reflexivity.
  - constructor.
    + exists (N.of_nat (length kept)). cbn [fst]. split; [lia|now rewrite Hid].
    + eapply Forall_impl; [exact Hstack|]. cbn beta.
      intros entry (j & Hj & E). exists j. split; [lia|exact E].
Qed.

Lemma import_lines_ok ls : forall kept st,
  import_ok kept st -> Forall (fun l => import_line l = true) ls ->
  import_ok (kept ++ ls) (fold_left import_text_line ls st).
Proof.
  induction ls as [|l ls IH]; intros kept st Hok Hls.
  - now rewrite app_nil_r.
  - apply Forall_cons in Hls as [Hl Hls]. cbn [fold_left].
    replace (kept ++ l :: ls) with ((kept ++ [l]) ++ ls) by now rewrite <- app_assoc.
    apply IH; [|exact Hls]. now apply import_text_line_ok.
Qed.

Lemma import_start_ok :
  import_ok [] {| i_nodeId := 0; i_nodes := [imported_root (str "Mind Map")];
                  i_edges := []; i_stack := [] |}.
Proof.
  unfold import_ok, numbered_tree.
  cbn [i_nodeId i_nodes i_edges i_stack length map imported_root n_id n_label n_level].
  split; [reflexivity|]. split; [repeat split; constructor|].
  split; [reflexivity|]. split; [reflexivity|]. split; [|constructor].
  constructor; [|constructor]. split; reflexivity.
Qed.

Lemma filter_Forall {X} (f : X -> bool) l :
  Forall (fun x => f x = true) (List.filter f l).
Proof.
  apply Forall_forall. intros x Hx. now apply list_elem_of_In, filter_In in Hx as [_ Hx].
Qed.

(** X13: [importFromText] answers [null] exactly when no line is left after
    the blank lines and the lines that start with a hash sign are taken
    out.  Otherwise the document is a numbered tree with one node for each
    line kept: its label is the trimmed line and its level is the
    indentation level of the line plus one, the root has the label "Mind
    Map", and the metadata bag is empty. *)
Theorem importFromText_document text :
  let kept := List.filter import_line (split_lines text) in
  match importFromText text with
  | None => kept = []
  | Some d =>
      kept <> [] /\
      numbered_tree (d_nodes d) (d_edges d) (length kept) /\
      map n_label (d_nodes d) = str "Mind Map" :: map trim kept /\
      map n_level (d_nodes d) = 0 :: map (fun l => S (import_indent l)) kept /\
      d_metadata d = []
  end.
Proof.
  intros kept. unfold importFromText. fold kept.
  pose proof (import_lines_ok kept [] _ import_start_ok (filter_Forall _ _)) as Hok.
  cbn [app] in Hok. destruct kept as [|l kept']; [reflexivity|].
  cbn [d_nodes d_edges d_metadata].
  destruct Hok as (_ & Htree & Hlab & Hlev & _).
  split; [discriminate|]. auto.
Qed.

(** ** Restyling a document without texts *)

Lemma updateNodeStyles_untitled fs ns n :
  In n ns -> n_id n <> ROOT -> untitled n -> updateNodeStyles fs ns = None.
Proof.
  intros Hn Hid [Ht Ho]. unfold updateNodeStyles.
  assert (E : mapM (style_of fs) ns = None).
  { apply mapM_None, Exists_exists. exists n. split; [now apply list_elem_of_In|].
    unfold style_of.
    replace (eqs (n_id n) ROOT) with false by (symmetry; now apply bool_decide_eq_false).
    unfold styled_text. now rewrite Ho, Ht. }
  now rewrite E.
Qed.

(** X8: a change of the font settings throws on every document that was
    imported from plain text, and on every document to which the keyboard
    has just added a child: their tasks have neither [originalText] nor
    [title], and [updateNodeStyles] reads the text of a task from these. *)
Theorem updateNodeStyles_throws_without_text fs :
  (forall text d, importFromText text = Some d ->
     updateNodeStyles fs (d_nodes d) = None) /\
  (forall now st st', addChildNode now st = Some st' -> st' <> st ->
     updateNodeStyles fs (nodes st') = None).
Proof.
  split.
  - intros text d Hd. unfold importFromText in Hd.
    set (kept := List.filter import_line (split_lines text)) in *.
    pose proof (import_lines_ok kept [] _ import_start_ok (filter_Forall _ _)) as Hok.
    cbn [app] in Hok. destruct kept as [|l kept']; [discriminate|].
    injection Hd as <-. cbn [d_nodes].
    destruct Hok as (_ & (Hids & _ & _) & _ & _ & Hun & _).
    cbn [length] in Hids. rewrite ids_from_S in Hids.
    destruct (i_nodes _) as [|r [|n ns]]; try discriminate.
    cbn [map] in Hids. injection Hids as _ Hn _.
    apply (updateNodeStyles_untitled fs _ n).
    + right. now left.
    + rewrite Hn. apply task_id_not_root.
    + apply Forall_cons in Hun as [_ Hun]. now apply Forall_cons in Hun as [Hun _].
  - intros now st st' Hadd Hne.
    apply addChildNode_cases in Hadd
      as [->|(sel & sn & _ & _ & _ & _ & (upd & _ & _ & Hns) & _ & _)];
      [now contradiction Hne|].
    apply (updateNodeStyles_untitled fs _ (new_task (task_id now) (n_level sn + 1) sn)).
    + rewrite Hns. apply in_or_app. right. now left.
    + cbn [new_task n_id]. apply task_id_not_root.
    + split; reflexivity.
Qed.

Lemma updateNodeStyles_throws_without_text_witness :
  exists d,
    importFromText (str "Plan
  Design") = Some d /\
    updateNodeStyles sample_fonts (d_nodes d) = None.
Proof.
  destruct (importFromText (str "Plan
  Design")) as [d|] eqn:E; [|discriminate E].
  exists d. split; [reflexivity|].
  exact (proj1 (updateNodeStyles_throws_without_text sample_fonts) _ d E).
Defined.

(** ** FreeMind import: the document *)

Lemma xml_forest_ind (P : list xml -> Prop) :
  P [] ->
  (forall t a ks F, P ks -> P F -> P (Elem t a ks :: F)) ->
  forall F, P F.
Proof.
  intros H0 H1.
  assert (Hx : forall x F, P F -> P (x :: F)).
  { fix IH 1. intros [t a ks] F HF. apply H1; [|exact HF].
    induction ks as [|k ks IHks]; [exact H0|]. apply IH. exact IHks. }
  induction F as [|x F IH]; [exact H0|]. now apply Hx.
Qed.

Lemma xml_rose_unfold t a ks :
  xml_rose (Elem t a ks)
    = Rose (or_else (getAttribute (str "TEXT") (Elem t a ks)) (str "Node"))
        (xml_forest ks).
Proof. reflexivity. Qed.

Lemma imported_nodes_unfold lvl i x ks :
  imported_nodes lvl (NTree i x ks)
    = imported_node i x lvl :: flat_map (imported_nodes (S lvl)) ks.
Proof. reflexivity. Qed.

Lemma imported_edges_unfold p lvl i x ks :
  imported_edges p lvl (NTree i x ks)
    = {| e_from := p; e_to := i; e_width := if lvl =? 1 then 3 else 2;
         e_color := None |}
      :: flat_map (imported_edges i (S lvl)) ks.
Proof. reflexivity. Qed.

(** The loop of [parseNode] over the children of an element. *)
Lemma parseNode_kids kids : forall i lvl st,
  fold_left (fun acc child =>
               if eqs (xml_tag child) (str "node")
               then parseNode child i (S lvl) acc else acc) kids st
  = let F := number_forest (b_nodeId st) (xml_forest kids) in
    {| b_nodeId := (b_nodeId st + N.of_nat (forest_size (xml_forest kids)))%N;
       b_nodes := b_nodes st ++ flat_map (imported_nodes (S lvl)) F;
       b_edges := b_edges st ++ flat_map (imported_edges i (S lvl)) F |}.
Proof.
  induction kids as [|t a ks F IHks IHF] using xml_forest_ind; intros i lvl st.
  - cbn. rewrite N.add_0_r, !app_nil_r. now destruct st.
  - cbn [fold_left xml_tag]. unfold xml_forest at 1 2 3. cbn [flat_map xml_tag].
    fold (xml_forest F).
    destruct (eqs t (str "node")) eqn:Et.
    + rewrite IHF. cbv zeta.
      assert (Hp : parseNode (Elem t a ks) i (S lvl) st
                = let K := number_forest (b_nodeId st + 1) (xml_forest ks) in
                  {| b_nodeId := (b_nodeId st + 1
                                  + N.of_nat (forest_size (xml_forest ks)))%N;
                     b_nodes := (b_nodes st ++
                        [imported_node (task_id (b_nodeId st))
                           (or_else (getAttribute (str "TEXT") (Elem t a ks)) (str "Node"))
                           (S lvl)])
                        ++ flat_map (imported_nodes (S (S lvl))) K;
                     b_edges := (b_edges st ++
                        [ {| e_from := i; e_to := task_id (b_nodeId st);
                             e_width := if S lvl =? 1 then 3 else 2;
                             e_color := None |} ])
                        ++ flat_map (imported_edges (task_id (b_nodeId st)) (S (S lvl))) K |}).
      { cbn [parseNode]. cbn [Nat.eqb]. rewrite Nat.add_1_r.
        rewrite (IHks (task_id (b_nodeId st)) (S lvl)). reflexivity. }
      rewrite Hp. cbv zeta. cbn [b_nodeId b_nodes b_edges app].
      rewrite xml_rose_unfold. cbn [number_forest]. rewrite number_unfold.
      rewrite forest_size_cons.
      change (rose_size (Rose ?x (xml_forest ks))) with (S (forest_size (xml_forest ks))).
      cbn [flat_map]. rewrite imported_nodes_unfold, imported_edges_unfold.
      replace (b_nodeId st + 1 + N.of_nat (forest_size (xml_forest ks)))%N
        with (b_nodeId st + N.of_nat (S (forest_size (xml_forest ks))))%N by lia.
      f_equal.
      * lia.
      * rewrite <- !app_assoc. reflexivity.
      * rewrite <- !app_assoc. reflexivity.
    + cbn [app]. apply IHF.
Qed.

Lemma imported_nodes_views F : forall lvl,
  map node_label_view (flat_map (imported_nodes lvl) F) = map tree_view (forest_nodes F) /\
  map node_level_view (flat_map (imported_nodes lvl) F) = flat_map (leveled lvl) F /\
  Forall untitled (flat_map (imported_nodes lvl) F).
Proof.
  induction F as [|i x ks F IHks IHF] using ntree_forest_ind; intros lvl.
  - repeat split; constructor.
  - destruct (IHks (S lvl)) as (K1 & K2 & K3). destruct (IHF lvl) as (F1 & F2 & F3).
    cbn [flat_map]. rewrite imported_nodes_unfold, forest_nodes_cons.
    cbn [app map leveled nt_id nt_kids]. rewrite !map_app, K1, K2, F1, F2.
    repeat split; try reflexivity.
    constructor; [split; reflexivity|]. now apply Forall_app.
Qed.

Lemma imported_edges_ends F : forall p lvl,
  map ends (flat_map (imported_edges p lvl) F) = flat_map (flat_links p) F.
Proof.
  induction F as [|i x ks F IHks IHF] using ntree_forest_ind; intros p lvl.
  - reflexivity.
  - cbn [flat_map]. rewrite imported_edges_unfold.
    cbn [flat_links nt_id nt_kids app map ends e_from e_to].
    now rewrite map_app, IHks, IHF.
Qed.

(** The nesting of a document whose first node is the root and whose
    other nodes and edges are those of a forest numbered from 0. *)
Lemma doc_forest_rooted root added es R :
  n_id root = ROOT ->
  map node_label_view added = map tree_view (forest_nodes (number_forest 0 R)) ->
  map ends es = flat_map (flat_links ROOT) (number_forest 0 R) ->
  doc_forest (root :: added) es = Some R.
Proof.
  intros Hid Hview Hedges. set (F := number_forest 0 R) in *.
  set (ns := root :: added).
  assert (Hv : map (fun n => (n_id n, n_label n)) ns
               = (ROOT, n_label root) :: map tree_view (forest_nodes F)).
  { unfold ns. cbn [map]. now rewrite Hid, <- Hview. }
  assert (Hnd : NoDup (ROOT :: forest_ids F)).
  { unfold F. rewrite number_forest_ids. apply ids_from_NoDup. }
  assert (Hroot := linked_root (fun n => n) n_label (fun _ => true)
                     ns es F (n_label root) Hv Hedges Hnd (fun _ _ => eq_refl)).
  assert (Hnode := linked_node (fun n => n) n_label (fun _ => true)
                     ns es F (n_label root) Hv Hedges Hnd (fun _ _ => eq_refl)).
  unfold doc_forest. destruct Hroot as (a & -> & _). cbn [mbind option_bind snd].
  rewrite <- (strip_number_forest R 0). fold F.
  apply (unfold_forest_strip _ F).
  - exact Hnode.
  - intros t Ht E. apply NoDup_cons in Hnd as [H _].
    apply H, list_elem_of_In. rewrite <- E. now apply forest_nodes_ids.
  - assert (Hlen : length es = length (forest_nodes F)).
    { rewrite <- (length_map ends es), Hedges. apply flat_links_length. }
    apply Forall_forall. intros t Ht. apply list_elem_of_In in Ht. split.
    + now apply forest_nodes_self.
    + pose proof (nt_depth_le_size t).
      pose proof (length_flat_map_ge subtrees F t Ht). unfold forest_nodes in Hlen. lia.
Qed.

(** X14: what the FreeMind import makes of a parsed document with a root
    [node] element [r]: the root carries the text of [r], and under it the
    document has the texts and the nesting of the [node] elements below
    [r], as a numbered tree whose levels are the depths; no node has a
    [title] or an [originalText]. *)
Theorem importFromFreeMind_document parseFromString xmlString r :
  has_element (str "parsererror") (parseFromString xmlString) = false ->
  select_map_node false (parseFromString xmlString) = Some r ->
  exists root added es,
    importFromFreeMind parseFromString xmlString
      = Returned (Some {| d_nodes := root :: added; d_edges := es; d_metadata := [] |}) /\
    root = imported_root (rose_label (xml_rose r)) /\
    numbered_tree (root :: added) es (forest_size (rose_kids (xml_rose r))) /\
    doc_forest (root :: added) es = Some (rose_kids (xml_rose r)) /\
    map node_level_view added
      = flat_map (leveled 1) (number_forest 0 (rose_kids (xml_rose r))) /\
    Forall untitled added.
Proof.
  intros Herr Hsel. unfold importFromFreeMind, importFromFreeMind_body.
  rewrite Herr, Hsel. destruct r as [t a ks].
  cbn [parseNode Nat.eqb b_nodeId b_nodes b_edges app]. rewrite Nat.add_1_r.
  rewrite (parseNode_kids ks ROOT 0). cbv zeta.
  cbn [b_nodeId b_nodes b_edges app d_nodes d_edges].
  rewrite xml_rose_unfold. cbn [rose_label rose_kids].
  set (F := number_forest 0 (xml_forest ks)).
  destruct (imported_nodes_views F 1) as (Hv & Hl & Hu).
  pose proof (imported_edges_ends F ROOT 1) as He.
  eexists _, _, _. split; [reflexivity|]. split; [reflexivity|].
  split; [|split; [|split; [exact Hl|exact Hu]]].
  - apply numbered_tree_of_links; [|exact He].
    cbn [map imported_root n_id]. f_equal.
    pose proof (f_equal (map fst) Hv) as H. rewrite !map_map in H. exact H.
  - apply doc_forest_rooted; [reflexivity|exact Hv|exact He].
Qed.

Lemma importFromFreeMind_document_witness :
  exists root added es,
    importFromFreeMind (fun _ => sample_map) [] 
      = Returned (Some {| d_nodes := root :: added; d_edges := es; d_metadata := [] |}) /\
    doc_forest (root :: added) es
      = Some [ Rose (str "Pack") []; Rose (str "Node") [Rose (str "Tickets") []] ].
Proof.
  destruct (importFromFreeMind_document (fun _ => sample_map) []
              (Elem (str "node") [(str "TEXT", str "Trip")]
                 [ Elem (str "node") [(str "TEXT", str "Pack")] [];
                   Elem (str "node") [] [Elem (str "node") [(str "TEXT", str "Tickets")] []] ])
              eq_refl eq_refl) as (root & added & es & H1 & _ & _ & H2 & _).
  exists root, added, es. split; [exact H1|exact H2].
Defined.

(** ** Escaping *)

Lemma replace_all_app c r a b :
  replace_all c r (a ++ b) = replace_all c r a ++ replace_all c r b.
Proof. unfold replace_all. apply flat_map_app. Qed.

Lemma escapeXML_app a b : escapeXML (a ++ b) = escapeXML a ++ escapeXML b.
Proof. unfold escapeXML. now rewrite !replace_all_app. Qed.

Lemma escapeXML_one c : escapeXML [c] = escape_char c.
Proof.
  unfold escape_char.
  destruct (Ascii.eqb c AMP) eqn:E1; [apply Ascii.eqb_eq in E1 as ->; reflexivity|].
  destruct (Ascii.eqb c LANGLE) eqn:E2; [apply Ascii.eqb_eq in E2 as ->; reflexivity|].
  destruct (Ascii.eqb c RANGLE) eqn:E3; [apply Ascii.eqb_eq in E3 as ->; reflexivity|].
  destruct (Ascii.eqb c DQUOTE) eqn:E4; [apply Ascii.eqb_eq in E4 as ->; reflexivity|].
  destruct (Ascii.eqb c APOS) eqn:E5; [apply Ascii.eqb_eq in E5 as ->; reflexivity|].
  unfold escapeXML, replace_all. cbn [flat_map app].
  rewrite E1. cbn [flat_map app]. rewrite E2. cbn [flat_map app].
  rewrite E3. cbn [flat_map app]. rewrite E4. cbn [flat_map app].
  now rewrite E5.
Qed.

(** The five replacements in a row are one pass over the characters: the
    ampersands of the entities are not escaped again. *)
Lemma escapeXML_pass s : escapeXML s = flat_map escape_char s.
Proof.
  induction s as [|c s IH]; [reflexivity|].
  change (c :: s) with ([c] ++ s).
  rewrite escapeXML_app, escapeXML_one, IH. reflexivity.
Qed.

Lemma escape_char_clean c x :
  In x (escape_char c) -> x <> LANGLE /\ x <> RANGLE /\ x <> DQUOTE /\ x <> APOS.
Proof.
  unfold escape_char.
  destruct (Ascii.eqb c AMP) eqn:E1;
    [cbn; intros H; repeat (destruct H as [<-|H]; [repeat split; discriminate|]); destruct H|].
  destruct (Ascii.eqb c LANGLE) eqn:E2;
    [cbn; intros H; repeat (destruct H as [<-|H]; [repeat split; discriminate|]); destruct H|].
  destruct (Ascii.eqb c RANGLE) eqn:E3;
    [cbn; intros H; repeat (destruct H as [<-|H]; [repeat split; discriminate|]); destruct H|].
  destruct (Ascii.eqb c DQUOTE) eqn:E4;
    [cbn; intros H; repeat (destruct H as [<-|H]; [repeat split; discriminate|]); destruct H|].
  destruct (Ascii.eqb c APOS) eqn:E5;
    [cbn; intros H; repeat (destruct H as [<-|H]; [repeat split; discriminate|]); destruct H|].
  intros [<-|[]]. apply Ascii.eqb_neq in E2, E3, E4, E5. auto.
Qed.

Lemma unescape_step fuel c tail :
  unescape (S fuel) (escape_char c ++ tail) = c :: unescape fuel tail.
Proof.
  unfold escape_char.
  destruct (Ascii.eqb c AMP) eqn:E1; [apply Ascii.eqb_eq in E1 as ->; reflexivity|].
  destruct (Ascii.eqb c LANGLE) eqn:E2; [apply Ascii.eqb_eq in E2 as ->; reflexivity|].
  destruct (Ascii.eqb c RANGLE) eqn:E3; [apply Ascii.eqb_eq in E3 as ->; reflexivity|].
  destruct (Ascii.eqb c DQUOTE) eqn:E4; [apply Ascii.eqb_eq in E4 as ->; reflexivity|].
  destruct (Ascii.eqb c APOS) eqn:E5; [apply Ascii.eqb_eq in E5 as ->; reflexivity|].
  cbn [app unescape]. rewrite Ascii.eqb_sym in E1.
  cbn [startsWith str list_ascii_of_string]. fold AMP. rewrite E1. reflexivity.
Qed.

Lemma unescape_escaped s : forall fuel,
  length s <= fuel -> unescape fuel (flat_map escape_char s) = s.
Proof.
  induction s as [|c s IH]; intros fuel Hlen.
  - now destruct fuel.
  - destruct fuel as [|fuel]; [cbn in Hlen; lia|].
    cbn [flat_map]. rewrite unescape_step, IH; [reflexivity|].
    cbn [length] in Hlen. lia.
Qed.

Lemma escape_char_nonempty c : 1 <= length (escape_char c).
Proof.
  unfold escape_char.
  repeat (match goal with |- context [if ?b then _ else _] => destruct b end);
    cbn; lia.
Qed.

Lemma escaped_length s : length s <= length (flat_map escape_char s).
Proof.
  induction s as [|c s IH]; [reflexivity|].
  cbn [flat_map length]. rewrite length_app.
  pose proof (escape_char_nonempty c). lia.
Qed.

(** X15: [escapeXML] leaves no angle bracket and no quote in a text, and what
    it writes can be read back: decoding the five entities gives the text
    again, so two texts are never escaped to the same text. *)
Theorem escapeXML_decodable s :
  Forall (fun x => x <> LANGLE /\ x <> RANGLE /\ x <> DQUOTE /\ x <> APOS) (escapeXML s) /\
  unescapeXML (escapeXML s) = s /\
  (forall s', escapeXML s' = escapeXML s -> s' = s).
Proof.
  assert (Hdec : forall t, unescapeXML (escapeXML t) = t).
  { intros t. unfold unescapeXML. rewrite escapeXML_pass.
    apply unescape_escaped, escaped_length. }
  split; [|split; [apply Hdec|]].
  - rewrite escapeXML_pass. apply Forall_forall. intros x Hx.
    apply list_elem_of_In, in_flat_map in Hx as (c & _ & Hx).
    now apply (escape_char_clean c).
  - intros s' E. rewrite <- (Hdec s'), E. apply Hdec.
Qed.

(** ** FreeMind export: the text *)

Section ExportFreeMind.
Variable m : gmap jsstring (node * list jsstring).

Lemma buildNode_unfold fuel : forall k lvl r,
  unfold_node fuel m k = Some r ->
  buildNode fuel m k lvl = Some (freemind_node lvl r).
Proof.
  induction fuel as [|fuel IH]; intros k lvl r; [discriminate|].
  cbn [unfold_node buildNode].
  destruct (eqs k ROOT) eqn:Ek; [discriminate|].
  destruct (m !! k) as [[n ch]|] eqn:Em; [|discriminate].
  cbn [mbind option_bind fst snd].
  destruct (mapM (unfold_node fuel m) ch) as [kids|] eqn:Ekids; [|discriminate].
  cbn [mbind option_bind]. intros H. injection H as <-.
  assert (Heach : forall l,
    foldr (fun c acc => out ← buildNode fuel m c l; rest ← acc; Some (out ++ rest))
          (Some []) ch = Some (flat_map (freemind_node l) kids)).
  { intros l. apply mapM_Some in Ekids. clear Em.
    induction Ekids as [|c kid ch kids Hc _ IHk]; [reflexivity|].
    cbn [foldr]. rewrite (IH _ l _ Hc), IHk. reflexivity. }
  apply mapM_Some in Ekids. destruct Ekids as [|c kid ch kids Hc Hrest].
  - cbn [freemind_node]. now rewrite <- ?app_assoc.
  - assert (Hall : mapM (unfold_node fuel m) (c :: ch) = Some (kid :: kids)).
    { apply mapM_Some. now constructor. }
    rewrite Heach. cbn [mbind option_bind freemind_node].
    now rewrite <- ?app_assoc.
Qed.

End ExportFreeMind.

(** X16: the exported XML nests the nodes as the edges of the document do, the
    children of a node in the order of its edges: it is the text of the
    tree of the document, with every label escaped, "Node" written for an
    empty label and "Mind Map" for an empty label of the root. *)
Theorem exportToFreeMind_nesting ns es R rootLabel :
  doc_forest ns es = Some R ->
  doc_root_label ns es = Some rootLabel ->
  exportToFreeMind ns es = Some (freemind_text rootLabel R).
Proof.
  unfold doc_forest, doc_root_label, exportToFreeMind.
  set (m := link_children (fun _ => true) (index_nodes (fun n => n) ns) es).
  destruct (m !! ROOT) as [[n ch]|] eqn:Em; [|discriminate].
  cbn [mbind option_bind fmap option_fmap option_map fst snd].
  intros HR Hl. injection Hl as <-.
  assert (Heach :
    foldr (fun c acc => out ← buildNode (S (length es)) m c 2; rest ← acc;
                        Some (out ++ rest))
          (Some []) ch = Some (flat_map (freemind_node 2) R)).
  { apply mapM_Some in HR. clear Em.
    induction HR as [|c kid ch kids Hc _ IHk]; [reflexivity|].
    cbn [foldr]. rewrite (buildNode_unfold m _ _ 2 _ Hc), IHk. reflexivity. }
  rewrite Heach. cbn [mbind option_bind]. unfold freemind_text.
  now rewrite <- ?app_assoc.
Qed.

Lemma exportToFreeMind_nesting_witness :
  exportToFreeMind (nodes family_doc) (edges family_doc)
    = Some (freemind_text (str "Mind Map")
              [Rose (str "A") [Rose (str "B") [Rose (str "G") []]; Rose (str "C") []]]).
Proof.
  apply exportToFreeMind_nesting.
  - vm_compute. reflexivity.
  - vm_compute. reflexivity.
Defined.

(** ** Node editor *)

Lemma get_update_other (f : node -> node) ds k k' :
  (forall x, n_id (f x) = n_id x) -> k' <> k ->
  DataSet.get n_id (DataSet.update n_id k f ds) k' = DataSet.get n_id ds k'.
Proof.
  intros Hf Hk. unfold DataSet.get, DataSet.update.
  induction ds as [|x ds IH]; [reflexivity|]. cbn [map List.find].
  destruct (eqs (n_id x) k) eqn:E.
  - rewrite Hf. apply eqs_eq in E.
    replace (eqs (n_id x) k') with false; [exact IH|].
    symmetry. apply bool_decide_eq_false. congruence.
  - destruct (eqs (n_id x) k'); [reflexivity|exact IH].
Qed.

(** X18: an edit that is saved with a text that is not blank gives the node the
    trimmed text as its [title] and [originalText], which is the text that
    the outline of the graph shows for it, and the label that a task with
    this text and these edges is displayed with; the other nodes and the
    edges stay as they are, and the editor is closed.  Nothing throws. *)
Theorem finishEditing_sets_text st nodeId node value :
  is_editing st = false -> truthy nodeId = true ->
  DataSet.get n_id (ed_nodes st) nodeId = Some node ->
  trim value <> [] ->
  exists lbl st',
    finishEditing true (typeText value (startEditing nodeId st)) = Some st' /\
    displayLabel (trim value)
      (negb (length (List.filter (fun e => eqs (e_from e) nodeId) (ed_edges st)) =? 0))
      = Some lbl /\
    DataSet.get n_id (ed_nodes st') nodeId = Some (edited lbl (trim value) node) /\
    node_text (edited lbl (trim value) node) = trim value /\
    (forall k, k <> nodeId ->
       DataSet.get n_id (ed_nodes st') k = DataSet.get n_id (ed_nodes st) k) /\
    ed_edges st' = ed_edges st /\
    editingNodeId st' = None /\ editorElement st' = None.
Proof.
  intros Hidle Hid Hget Hne.
  assert (Htight : tight (trim value)) by now apply trim_nonempty_tight.
  destruct (displayLabel_defined (trim value)
              (negb (length (List.filter (fun e => eqs (e_from e) nodeId) (ed_edges st))
                     =? 0)) Htight) as [lbl Hlbl].
  exists lbl. eexists. split; [|split; [exact Hlbl|]].
  - unfold startEditing. rewrite Hidle, Hget.
    unfold typeText, finishEditing, is_editing.
    cbn [editorElement editingNodeId ed_nodes ed_edges]. rewrite Hid.
    cbn [negb andb]. change (default [] (Some nodeId)) with nodeId.
    rewrite (tight_truthy _ Htight), Hget. cbn [mbind option_bind].
    unfold DataSet.get_filter. rewrite Hlbl. cbn [mbind option_bind]. reflexivity.
  - cbn [ed_nodes ed_edges editingNodeId editorElement].
    split; [|split; [|split; [|repeat split]]].
    + now apply get_update_same.
    + unfold node_text. cbn [edited n_originalText or_else].
      now rewrite (tight_truthy _ Htight).
    + intros k Hk. now apply get_update_other.
Qed.

Lemma finishEditing_sets_text_witness :
  exists lbl st',
    finishEditing true
      (typeText (str "  Book the flights  ")
         (startEditing (str "task_0")
            {| ed_nodes := nodes only_child_doc; ed_edges := edges only_child_doc;
               editingNodeId := None; editorElement := None |})) = Some st' /\
    DataSet.get n_id (ed_nodes st') (str "task_0")
      = Some (edited lbl (str "Book the flights") (plain_node "task_0" "A" 1 Dot)) /\
    lbl = str "Book the flights".
Proof.
  destruct (finishEditing_sets_text
              {| ed_nodes := nodes only_child_doc; ed_edges := edges only_child_doc;
                 editingNodeId := None; editorElement := None |}
              (str "task_0") (plain_node "task_0" "A" 1 Dot) (str "  Book the flights  ")
              eq_refl eq_refl eq_refl ltac:(vm_compute; discriminate))
    as (lbl & st' & H1 & H2 & H3 & _).
  exists lbl, st'. split; [exact H1|]. split; [exact H3|].
  vm_compute in H2. now injection H2 as <-.
Defined.

(** ** FreeMind: export, then import *)

Lemma xml_rose_node_element t : xml_rose (node_element t) = named t.
Proof.
  induction t as [x ks IH] using rose_ind'.
  cbn [node_element xml_rose named List.find fst snd].
  rewrite eqs_refl. cbn [fmap option_fmap option_map snd].
  f_equal.
  - unfold or_else, label_or. destruct x; reflexivity.
  - induction IH as [|k ks Hk _ IHks]; [reflexivity|].
    cbn [map flat_map]. replace (xml_tag (node_element k)) with (str "node") by now destruct k.
    rewrite eqs_refl, Hk. cbn [app]. now rewrite IHks.
Qed.

Lemma xml_forest_node_elements R : xml_forest (map node_element R) = map named R.
Proof.
  induction R as [|t R IH]; [reflexivity|].
  unfold xml_forest in *. cbn [map flat_map].
  replace (xml_tag (node_element t)) with (str "node") by now destruct t.
  rewrite eqs_refl, xml_rose_node_element. cbn [app]. now rewrite IH.
Qed.

Lemma node_element_no_error t :
  has_element (str "parsererror") (node_element t) = false.
Proof.
  induction t as [x ks IH] using rose_ind'. cbn [node_element has_element].
  replace (eqs (str "node") (str "parsererror")) with false by reflexivity.
  cbn [orb]. induction IH as [|k ks Hk _ IHks]; [reflexivity|].
  cbn [map existsb]. now rewrite Hk, IHks.
Qed.

Lemma node_elements_no_error R :
  existsb (has_element (str "parsererror")) (map node_element R) = false.
Proof.
  induction R as [|t R IH]; [reflexivity|].
  cbn [map existsb]. now rewrite node_element_no_error, IH.
Qed.

Lemma read_declaration_written tail :
  XmlText.read_declaration
    (str "<?xml version=" ++ [DQUOTE] ++ str "1.0" ++ [DQUOTE]
     ++ str " encoding=" ++ [DQUOTE] ++ str "UTF-8" ++ [DQUOTE] ++ str "?>" ++ tail)
  = Some tail.
Proof. reflexivity. Qed.

Lemma read_element_map fuel rest :
  XmlText.read_element (S fuel)
    (str "<map version=" ++ [DQUOTE] ++ str "1.0.1" ++ [DQUOTE] ++ str ">" ++ rest)
  = '(kids, r) ← XmlText.read_content fuel (XmlText.read_element fuel) (str "map") rest;
    Some (Elem (str "map") [(str "version", str "1.0.1")] kids, r).
Proof. reflexivity. Qed.

(** ** FreeMind: the exported text is well-formed where its labels are *)

Lemma is_char_escape_char c :
  forallb XmlText.is_char (escape_char c) = XmlText.is_char c.
Proof. destruct c as [[] [] [] [] [] [] [] []]; reflexivity. Qed.

Lemma is_char_escapeXML s :
  forallb XmlText.is_char (escapeXML s) = forallb XmlText.is_char s.
Proof.
  rewrite escapeXML_pass. induction s as [|c s IH]; [reflexivity|].
  cbn [flat_map forallb]. now rewrite forallb_app, is_char_escape_char, IH.
Qed.

Lemma is_char_spaces n : forallb XmlText.is_char (repeat SP n) = true.
Proof. induction n; [reflexivity|exact IHn]. Qed.

Lemma is_char_label_or x dflt :
  forallb XmlText.is_char dflt = true ->
  forallb XmlText.is_char (label_or x dflt) = forallb XmlText.is_char x.
Proof. intros H. destruct x; [exact H|reflexivity]. Qed.

Lemma is_char_freemind_node t : forall lvl,
  forallb XmlText.is_char (freemind_node lvl t)
  = forallb (forallb XmlText.is_char) (labels t).
Proof.
  induction t as [x ks IH] using rose_ind'. intros lvl.
  assert (Hks : forall l, forallb XmlText.is_char (flat_map (freemind_node l) ks)
                          = forallb (forallb XmlText.is_char) (flat_map labels ks)).
  { intros l. induction IH as [|k ks Hk _ IHks]; [reflexivity|].
    cbn [flat_map]. now rewrite !forallb_app, Hk, IHks. }
  cbn [freemind_node labels forallb]. rewrite repeat_str_spaces.
  destruct ks as [|k ks].
  - rewrite !forallb_app, is_char_spaces, is_char_escapeXML, is_char_label_or by reflexivity.
    cbn. now rewrite andb_true_r.
  - rewrite !forallb_app, is_char_spaces, is_char_escapeXML, is_char_label_or, Hks
      by reflexivity.
    cbn [str list_ascii_of_string forallb andb].
    change (XmlText.is_char ?c) with true at 1. cbn.
    now rewrite !andb_true_r.
Qed.

Lemma is_char_forest R : forall lvl,
  forallb XmlText.is_char (flat_map (freemind_node lvl) R)
  = forallb (forallb XmlText.is_char) (flat_map labels R).
Proof.
  intros lvl. induction R as [|t R IH]; [reflexivity|].
  cbn [flat_map]. now rewrite !forallb_app, is_char_freemind_node, IH.
Qed.

Lemma is_char_freemind_text rootLabel R :
  forallb XmlText.is_char (freemind_text rootLabel R)
  = forallb (forallb XmlText.is_char) (rootLabel :: flat_map labels R).
Proof.
  unfold freemind_text. rewrite !forallb_app, is_char_escapeXML, is_char_forest,
    is_char_label_or by reflexivity.
  cbn [forallb]. destruct (forallb XmlText.is_char rootLabel); [|reflexivity].
  destruct (forallb (forallb XmlText.is_char) (flat_map labels R)); reflexivity.
Qed.

(** ** FreeMind: line ends *)

Lemma ends_with_cr_cons b c s :
  ends_with_cr b (c :: s) = ends_with_cr (Ascii.eqb c CR) s.
Proof. unfold ends_with_cr. destruct s as [|d s]; [reflexivity|]. rewrite last_cons_cons.
  destruct (last (d :: s)) eqn:E; [reflexivity|]. now apply last_None in E.
Qed.

Lemma line_ends_from_escape_char b c rest :
  XmlText.line_ends_from b (escape_char c ++ rest)
  = flat_map escape_char (XmlText.line_ends_from b [c])
    ++ XmlText.line_ends_from (Ascii.eqb c CR) rest.
Proof. destruct b; destruct c as [[] [] [] [] [] [] [] []]; reflexivity. Qed.

Lemma line_ends_from_cons b c s :
  XmlText.line_ends_from b (c :: s)
  = XmlText.line_ends_from b [c] ++ XmlText.line_ends_from (Ascii.eqb c CR) s.
Proof.
  cbn [XmlText.line_ends_from]. destruct (Ascii.eqb c CR) eqn:E1; [reflexivity|].
  destruct (Ascii.eqb c LF) eqn:E2; [|reflexivity]. now destruct b.
Qed.

Lemma line_ends_from_escaped s : forall b rest,
  XmlText.line_ends_from b (flat_map escape_char s ++ rest)
  = flat_map escape_char (XmlText.line_ends_from b s)
    ++ XmlText.line_ends_from (ends_with_cr b s) rest.
Proof.
  induction s as [|c s IH]; intros b rest; [reflexivity|].
  cbn [flat_map]. rewrite <- app_assoc, line_ends_from_escape_char, IH.
  rewrite (line_ends_from_cons b c s), flat_map_app, <- app_assoc.
  now rewrite ends_with_cr_cons.
Qed.

(** A text without a CR, read after a character that was no CR. *)
Lemma line_ends_from_plain a rest :
  forallb (fun c => negb (Ascii.eqb c CR)) a = true ->
  XmlText.line_ends_from false (a ++ rest) = a ++ XmlText.line_ends_from false rest.
Proof.
  induction a as [|c a IH]; [reflexivity|]. cbn [forallb app XmlText.line_ends_from].
  intros H. apply andb_true_iff in H as [Hc Ha]. apply negb_true_iff in Hc.
  rewrite Hc, (IH Ha). now destruct (Ascii.eqb_spec c LF) as [->|].
Qed.

Lemma line_ends_nonempty s : XmlText.line_ends s = [] -> s = [].
Proof.
  unfold XmlText.line_ends. destruct s as [|c s]; [reflexivity|].
  cbn [XmlText.line_ends_from]. destruct (Ascii.eqb c CR); [discriminate|].
  destruct (Ascii.eqb c LF); discriminate.
Qed.

Lemma line_ends_label_or x dflt :
  XmlText.line_ends dflt = dflt ->
  XmlText.line_ends (label_or x dflt) = label_or (XmlText.line_ends x) dflt.
Proof.
  intros Hd. unfold label_or. destruct x as [|c x]; [exact Hd|].
  cbn [truthy]. destruct (XmlText.line_ends (c :: x)) eqn:E; [|reflexivity].
  now apply line_ends_nonempty in E.
Qed.

(** The line ends of an exported label, up to the quote that closes it. *)
Lemma line_ends_from_label x dflt rest :
  XmlText.line_ends dflt = dflt ->
  XmlText.line_ends_from false (escapeXML (label_or x dflt) ++ [DQUOTE] ++ rest)
  = escapeXML (label_or (XmlText.line_ends x) dflt)
    ++ [DQUOTE] ++ XmlText.line_ends_from false rest.
Proof.
  intros Hd. rewrite !escapeXML_pass, line_ends_from_escaped.
  fold (XmlText.line_ends (label_or x dflt)). rewrite (line_ends_label_or x dflt Hd).
  reflexivity.
Qed.

Lemma no_cr_indent lvl :
  forallb (fun c => negb (Ascii.eqb c CR)) (repeat_str (str "  ") lvl) = true.
Proof. rewrite repeat_str_spaces. induction (2 * lvl); [reflexivity|assumption]. Qed.

Lemma line_ends_freemind_node t : forall lvl rest,
  XmlText.line_ends_from false (freemind_node lvl t ++ rest)
  = freemind_node lvl (relabel XmlText.line_ends t) ++ XmlText.line_ends_from false rest.
Proof.
  induction t as [x ks IH] using rose_ind'. intros lvl rest.
  assert (Hks : forall l tail,
             XmlText.line_ends_from false (flat_map (freemind_node l) ks ++ tail)
             = flat_map (freemind_node l) (map (relabel XmlText.line_ends) ks)
               ++ XmlText.line_ends_from false tail).
  { intros l tail. induction IH as [|k ks Hk _ IHks]; [reflexivity|].
    cbn [flat_map map]. now rewrite <- !app_assoc, Hk, IHks. }
  cbn [freemind_node relabel]. destruct ks as [|k ks]; cbn [map].
  - rewrite <- !app_assoc.
    rewrite (line_ends_from_plain (repeat_str (str "  ") lvl)) by apply no_cr_indent.
    rewrite (line_ends_from_plain (str "<node TEXT=")) by reflexivity.
    rewrite (line_ends_from_plain [DQUOTE]) by reflexivity.
    rewrite line_ends_from_label by reflexivity.
    rewrite (line_ends_from_plain (str "/>")) by reflexivity.
    rewrite (line_ends_from_plain [LF]) by reflexivity. reflexivity.
  - rewrite <- !app_assoc.
    rewrite (line_ends_from_plain (repeat_str (str "  ") lvl)) by apply no_cr_indent.
    rewrite (line_ends_from_plain (str "<node TEXT=")) by reflexivity.
    rewrite (line_ends_from_plain [DQUOTE]) by reflexivity.
    rewrite line_ends_from_label by reflexivity.
    rewrite (line_ends_from_plain (str ">")) by reflexivity.
    rewrite (line_ends_from_plain [LF]) by reflexivity.
    rewrite (Hks (S lvl)). cbn [map].
    rewrite (line_ends_from_plain (repeat_str (str "  ") lvl)) by apply no_cr_indent.
    rewrite (line_ends_from_plain (str "</node>")) by reflexivity.
    rewrite (line_ends_from_plain [LF]) by reflexivity. reflexivity.
Qed.

Lemma line_ends_freemind_text rootLabel R :
  XmlText.line_ends (freemind_text rootLabel R)
  = freemind_text (XmlText.line_ends rootLabel) (map (relabel XmlText.line_ends) R).
Proof.
  assert (HR : forall tail,
             XmlText.line_ends_from false (flat_map (freemind_node 2) R ++ tail)
             = flat_map (freemind_node 2) (map (relabel XmlText.line_ends) R)
               ++ XmlText.line_ends_from false tail).
  { intros tail. induction R as [|t R IH]; [reflexivity|].
    cbn [flat_map map]. now rewrite <- !app_assoc, line_ends_freemind_node, IH. }
  unfold XmlText.line_ends at 1, freemind_text.
  repeat first [ rewrite (line_ends_from_plain (str _)) by reflexivity
               | rewrite (line_ends_from_plain [DQUOTE]) by reflexivity
               | rewrite (line_ends_from_plain [LF]) by reflexivity ].
  rewrite line_ends_from_label by reflexivity.
  rewrite (line_ends_from_plain (str ">")) by reflexivity.
  rewrite (line_ends_from_plain [LF]) by reflexivity.
  rewrite HR.
  rewrite (line_ends_from_plain (str "  </node>")) by reflexivity.
  rewrite (line_ends_from_plain [LF]) by reflexivity.
  replace (str "</map>") with (str "</map>" ++ []) at 1 by apply app_nil_r.
  rewrite (line_ends_from_plain (str "</map>")) by reflexivity.
  cbn [XmlText.line_ends_from]. now rewrite app_nil_r.
Qed.

(** ** FreeMind: the exported text is read back *)

Lemma read_att_value_escape_char fuel c s :
  XmlText.read_att_value (S fuel) DQUOTE (escape_char c ++ s)
  = '(v, r) ← XmlText.read_att_value fuel DQUOTE s;
    Some ((if XmlText.is_space c then SP else c) :: v, r).
Proof. destruct c as [[] [] [] [] [] [] [] []]; reflexivity. Qed.

Lemma read_att_value_label lbl : forall fuel tail,
  length lbl < fuel ->
  XmlText.read_att_value fuel DQUOTE (escapeXML lbl ++ DQUOTE :: tail)
  = Some (space_text lbl, tail).
Proof.
  rewrite escapeXML_pass.
  induction lbl as [|c lbl IH]; intros fuel tail Hfuel;
    (destruct fuel as [|fuel]; [cbn in Hfuel; lia|]).
  - cbn [flat_map app XmlText.read_att_value]. now rewrite Ascii.eqb_refl.
  - cbn [flat_map]. rewrite <- app_assoc, read_att_value_escape_char.
    rewrite IH by (cbn in Hfuel; lia). reflexivity.
Qed.

Lemma read_attrs_step fuel c s :
  XmlText.read_attrs (S fuel) (c :: s)
  = if XmlText.is_tag_end c then Some ([], c :: s)
    else if XmlText.is_space c then
      match XmlText.skip_space s with
      | [] => None
      | d :: s1 =>
          if XmlText.is_tag_end d then Some ([], d :: s1)
          else
            '(name, r) ← XmlText.read_name (d :: s1);
            match XmlText.skip_space r with
            | e :: r1 =>
                if Ascii.eqb e "="%char then
                  match XmlText.skip_space r1 with
                  | q :: r2 =>
                      if Ascii.eqb q DQUOTE || Ascii.eqb q APOS then
                        '(v, r3) ← XmlText.read_att_value (length r2) q r2;
                        '(more, r4) ← XmlText.read_attrs fuel r3;
                        if existsb (fun a => eqs (fst a) name) more then None
                        else Some ((name, v) :: more, r4)
                      else None
                  | [] => None
                  end
                else None
            | [] => None
            end
      end
    else None.
Proof. reflexivity. Qed.

Lemma read_attrs_TEXT fuel lbl d tail :
  XmlText.is_tag_end d = true ->
  XmlText.read_attrs (S (S fuel))
    (SP :: str "TEXT=" ++ DQUOTE :: escapeXML lbl ++ DQUOTE :: d :: tail)
  = Some ([(str "TEXT", space_text lbl)], d :: tail).
Proof.
  intros Hd. rewrite read_attrs_step. cbn [str list_ascii_of_string app].
  cbv -[escapeXML XmlText.read_att_value XmlText.read_attrs length app space_text].
  rewrite read_att_value_label.
  - rewrite read_attrs_step, Hd. reflexivity.
  - rewrite length_app. pose proof (escaped_length lbl). rewrite <- escapeXML_pass in H.
    cbn [length]. lia.
Qed.

Lemma read_element_step fuel s :
  XmlText.read_element (S fuel) (LANGLE :: s)
  = '(name, r) ← XmlText.read_name s;
    '(attrs, r1) ← XmlText.read_attrs (S (length r)) r;
    if startsWith (str "/>") r1 then Some (Elem name attrs [], drop 2 r1)
    else if startsWith (str ">") r1 then
      '(kids, r2) ← XmlText.read_content fuel (XmlText.read_element fuel) name
                      (drop 1 r1);
      Some (Elem name attrs kids, r2)
    else None.
Proof. reflexivity. Qed.

Lemma read_element_leaf fuel lbl rest :
  XmlText.read_element (S fuel)
    (str "<node TEXT=" ++ [DQUOTE] ++ escapeXML lbl ++ [DQUOTE] ++ str "/>" ++ rest)
  = Some (Elem (str "node") [(str "TEXT", space_text lbl)] [], rest).
Proof.
  change (str "<node TEXT=" ++ [DQUOTE] ++ escapeXML lbl ++ [DQUOTE] ++ str "/>" ++ rest)
    with (LANGLE :: str "node"
          ++ SP :: str "TEXT=" ++ DQUOTE :: escapeXML lbl ++ DQUOTE :: "/"%char
          :: ">"%char :: rest).
  rewrite read_element_step.
  change (XmlText.read_name (str "node" ++ ?x)) with (Some (str "node", x)).
  cbn [mbind option_bind length].
  rewrite read_attrs_TEXT by reflexivity. reflexivity.
Qed.

Lemma read_element_open fuel lbl rest :
  XmlText.read_element (S fuel)
    (str "<node TEXT=" ++ [DQUOTE] ++ escapeXML lbl ++ [DQUOTE] ++ str ">" ++ rest)
  = '(kids, r) ← XmlText.read_content fuel (XmlText.read_element fuel) (str "node") rest;
    Some (Elem (str "node") [(str "TEXT", space_text lbl)] kids, r).
Proof.
  change (str "<node TEXT=" ++ [DQUOTE] ++ escapeXML lbl ++ [DQUOTE] ++ str ">" ++ rest)
    with (LANGLE :: str "node"
          ++ SP :: str "TEXT=" ++ DQUOTE :: escapeXML lbl ++ DQUOTE :: ">"%char :: rest).
  rewrite read_element_step.
  change (XmlText.read_name (str "node" ++ ?x)) with (Some (str "node", x)).
  cbn [mbind option_bind length].
  rewrite read_attrs_TEXT by reflexivity. reflexivity.
Qed.

Lemma skip_space_blank w s :
  xml_blank w -> XmlText.skip_space (w ++ s) = XmlText.skip_space s.
Proof.
  induction 1 as [|c w Hc _ IH]; [reflexivity|]. cbn [app XmlText.skip_space].
  now rewrite Hc.
Qed.

Lemma xml_blank_indent lvl : xml_blank (repeat_str (str "  ") lvl).
Proof.
  rewrite repeat_str_spaces. induction (2 * lvl); constructor; [reflexivity|assumption].
Qed.

Lemma space_text_label_or x dflt :
  space_text dflt = dflt ->
  space_text (label_or x dflt) = label_or (space_text x) dflt.
Proof. intros Hd. now destruct x. Qed.

Lemma freemind_node_opens lvl t rest :
  exists tl,
    XmlText.skip_space (freemind_node lvl t ++ rest) = str "<node TEXT=" ++ tl.
Proof.
  destruct t as [x [|k ks]]; cbn [freemind_node]; rewrite <- !app_assoc;
    rewrite skip_space_blank by apply xml_blank_indent; eexists; reflexivity.
Qed.

Section WrittenContent.
Variable read_element : jsstring -> option (xml * jsstring).

Lemma read_content_end n (name : jsstring) w tail :
  xml_blank w ->
  XmlText.read_name (name ++ RANGLE :: tail) = Some (name, RANGLE :: tail) ->
  XmlText.read_content (S n) read_element name (w ++ str "</" ++ name ++ RANGLE :: tail)
  = Some ([], tail).
Proof.
  intros Hw Hname. cbn [XmlText.read_content].
  rewrite skip_space_blank by exact Hw.
  change (XmlText.skip_space (str "</" ++ ?x)) with (str "</" ++ x).
  change (startsWith (str "</") (str "</" ++ ?x)) with true. cbv iota.
  change (drop 2 (str "</" ++ ?x)) with x.
  rewrite Hname. cbn [mbind option_bind]. rewrite eqs_refl. reflexivity.
Qed.

Lemma read_content_written (name : jsstring) lvl ks :
  Forall (fun k => forall rest,
            read_element (XmlText.skip_space (freemind_node lvl k ++ rest))
            = Some (read_as k, LF :: rest)) ks ->
  forall n w w' tail,
    length ks < n -> xml_blank w -> xml_blank w' ->
    XmlText.read_name (name ++ RANGLE :: tail) = Some (name, RANGLE :: tail) ->
    XmlText.read_content n read_element name
      (w ++ flat_map (freemind_node lvl) ks ++ w' ++ str "</" ++ name ++ RANGLE :: tail)
    = Some (map read_as ks, tail).
Proof.
  induction 1 as [|k ks Hk _ IH]; intros n w w' tail Hn Hw Hw' Hname;
    (destruct n as [|n]; [cbn in Hn; lia|]).
  - cbn [flat_map app map]. rewrite app_assoc.
    apply read_content_end; [|exact Hname]. apply Forall_app. now split.
  - cbn [XmlText.read_content flat_map map]. rewrite <- !app_assoc.
    rewrite skip_space_blank by exact Hw.
    destruct (freemind_node_opens lvl k
                (flat_map (freemind_node lvl) ks ++ w' ++ str "</" ++ name
                 ++ RANGLE :: tail)) as [tl Etl].
    assert (Hopen : startsWith (str "</")
                      (XmlText.skip_space
                         (freemind_node lvl k ++ flat_map (freemind_node lvl) ks
                          ++ w' ++ str "</" ++ name ++ RANGLE :: tail)) = false)
      by now rewrite Etl.
    rewrite Hopen, Hk. cbn [mbind option_bind].
    change (LF :: ?x) with ([LF] ++ x).
    rewrite (IH n [LF] w' tail); [reflexivity|cbn in Hn; lia| |exact Hw'|exact Hname].
    constructor; [reflexivity|constructor].
Qed.
End WrittenContent.

Lemma rose_size_pos t : 1 <= rose_size t.
Proof. destruct t. cbn [rose_size]. lia. Qed.

Lemma read_element_written t : forall fuel lvl rest,
  rose_size t < fuel ->
  XmlText.read_element fuel (XmlText.skip_space (freemind_node lvl t ++ rest))
  = Some (read_as t, LF :: rest).
Proof.
  induction t as [x ks IH] using rose_ind'. intros fuel lvl rest Hfuel.
  destruct fuel as [|fuel]; [lia|]. cbn [rose_size] in Hfuel.
  unfold read_as. cbn [freemind_node relabel node_element].
  rewrite <- (space_text_label_or x (str "Node")) by reflexivity.
  destruct ks as [|k ks].
  - rewrite <- !app_assoc. rewrite skip_space_blank by apply xml_blank_indent.
    change (XmlText.skip_space (str "<node TEXT=" ++ ?y)) with (str "<node TEXT=" ++ y).
    rewrite read_element_leaf. reflexivity.
  - rewrite <- !app_assoc. rewrite skip_space_blank by apply xml_blank_indent.
    change (XmlText.skip_space (str "<node TEXT=" ++ ?y)) with (str "<node TEXT=" ++ y).
    rewrite read_element_open.
    destruct (list_sum_weight rose_size (k :: ks) rose_size_pos) as [Hlen Hw].
    change (str "</node>" ++ ?y) with (str "</" ++ str "node" ++ RANGLE :: y).
    rewrite (read_content_written (XmlText.read_element fuel) (str "node") (S lvl)
               (k :: ks));
      [cbn [mbind option_bind]; now rewrite map_map| |lia| | |reflexivity].
    + apply Forall_forall. intros t Hin rest'.
      rewrite Forall_forall in IH, Hw. apply (IH t Hin).
      pose proof (Hw t Hin). lia.
    + constructor; [reflexivity|constructor].
    + apply xml_blank_indent.
Qed.

Lemma relabel_relabel f g t : relabel f (relabel g t) = relabel (fun x => f (g x)) t.
Proof.
  induction t as [x ks IH] using rose_ind'. cbn [relabel]. f_equal.
  rewrite map_map. apply map_ext_in. intros k Hk.
  rewrite Forall_forall in IH. apply IH, list_elem_of_In, Hk.
Qed.

Lemma rose_size_relabel f t : rose_size (relabel f t) = rose_size t.
Proof.
  induction t as [x ks IH] using rose_ind'. cbn [relabel rose_size]. f_equal.
  rewrite map_map. f_equal. apply map_ext_in. intros k Hk.
  rewrite Forall_forall in IH. apply IH, list_elem_of_In, Hk.
Qed.

Lemma rose_size_written t : forall lvl, rose_size t <= length (freemind_node lvl t).
Proof.
  induction t as [x ks IH] using rose_ind'. intros lvl.
  assert (Hks : forall l, list_sum (map rose_size ks)
                          <= length (flat_map (freemind_node l) ks)).
  { intros l. induction IH as [|k ks Hk _ IHks]; [reflexivity|].
    cbn [map list_sum flat_map]. rewrite length_app.
    change (list_sum (rose_size k :: map rose_size ks))
      with (rose_size k + list_sum (map rose_size ks)).
    pose proof (Hk l). lia. }
  cbn [freemind_node rose_size]. destruct ks as [|k ks].
  - rewrite !length_app. cbn. lia.
  - rewrite !length_app. pose proof (Hks (S lvl)).
    cbn [str list_ascii_of_string length]. lia.
Qed.

Lemma forest_size_written R lvl :
  forest_size R <= length (flat_map (freemind_node lvl) R).
Proof.
  unfold forest_size. induction R as [|t R IH]; [reflexivity|].
  cbn [map flat_map]. rewrite length_app.
  change (list_sum (rose_size t :: map rose_size R))
    with (rose_size t + list_sum (map rose_size R)).
  pose proof (rose_size_written t lvl). lia.
Qed.

(** The content of the [map] element of an exported text. *)
Lemma read_content_map fuel lbl R tail :
  forest_size R + 2 < fuel ->
  XmlText.read_content fuel (XmlText.read_element fuel) (str "map")
    ([LF] ++ str "  <node TEXT=" ++ [DQUOTE] ++ escapeXML lbl ++ [DQUOTE]
     ++ str ">" ++ [LF] ++ flat_map (freemind_node 2) R
     ++ str "  </node>" ++ [LF] ++ str "</map>" ++ tail)
  = Some ([Elem (str "node") [(str "TEXT", space_text lbl)] (map read_as R)], tail).
Proof.
  intros Hfuel. destruct fuel as [|fuel]; [lia|]. cbn [XmlText.read_content].
  change (XmlText.skip_space ([LF] ++ str "  <node TEXT=" ++ ?y))
    with (str "<node TEXT=" ++ y).
  change (startsWith (str "</") (str "<node TEXT=" ++ ?y)) with false. cbv iota.
  destruct fuel as [|fuel]; [lia|].
  rewrite read_element_open.
  destruct (list_sum_weight rose_size R rose_size_pos) as [Hlen Hw].
  fold (forest_size R) in Hlen, Hw.
  change (str "  </node>" ++ ?y)
    with (str "  " ++ str "</" ++ str "node" ++ RANGLE :: y).
  rewrite (read_content_written (XmlText.read_element (S fuel)) (str "node") 2 R);
    [| |lia| | |reflexivity].
  - cbn [mbind option_bind].
    change ([LF] ++ str "</map>" ++ tail)
      with ([LF] ++ str "</" ++ str "map" ++ RANGLE :: tail).
    rewrite read_content_end; [reflexivity| |reflexivity].
    constructor; [reflexivity|constructor].
  - apply Forall_forall. intros t Hin rest. apply read_element_written.
    rewrite Forall_forall in Hw. pose proof (Hw t Hin). lia.
  - constructor; [reflexivity|constructor].
  - repeat (constructor; [reflexivity|]). constructor.
Qed.

(** What the parser makes of an exported text: the elements that were
    written, with the labels as attribute values are read, when every
    character of the labels is a character of XML; and no document
    otherwise. *)
Lemma parse_freemind_text rootLabel R :
  XmlText.parse (freemind_text rootLabel R)
  = if forallb (forallb XmlText.is_char) (rootLabel :: flat_map labels R)
    then Some (freemind_elements (attribute_text rootLabel)
                 (map (relabel attribute_text) R))
    else None.
Proof.
  unfold XmlText.parse. rewrite is_char_freemind_text.
  destruct (forallb (forallb XmlText.is_char) (rootLabel :: flat_map labels R));
    [|reflexivity].
  rewrite line_ends_freemind_text.
  set (l := XmlText.line_ends rootLabel). set (R' := map (relabel XmlText.line_ends) R).
  assert (Hlen : forest_size R' + 2 < length (freemind_text l R')).
  { unfold freemind_text. rewrite !length_app.
    pose proof (forest_size_written R' 2). cbn [str list_ascii_of_string length]. lia. }
  revert Hlen. generalize (length (freemind_text l R')). intros fuel Hfuel.
  unfold freemind_text. rewrite read_declaration_written. cbn [mbind option_bind].
  change (XmlText.skip_space ([LF] ++ str "<map version=" ++ ?y))
    with (str "<map version=" ++ y).
  rewrite read_element_map.
  replace (str "</map>") with (str "</map>" ++ []) by apply app_nil_r.
  rewrite read_content_map by exact Hfuel. cbn [mbind option_bind XmlText.skip_space].
  unfold freemind_elements. f_equal. f_equal. f_equal. f_equal.
  - f_equal. f_equal. unfold l. now rewrite space_text_label_or.
  - unfold R', read_as. rewrite !map_map. apply map_ext. intros t.
    now rewrite relabel_relabel.
Qed.

(** X17: exporting a document to FreeMind XML and importing the text again
    gives a document with the same nesting and with the labels as the XML
    parser reads attribute values: a line break or a tab of a label comes
    back as a space, so a wrapped label comes back on one line; an empty
    label comes back as "Node" and an empty label of the root as "Mind
    Map".  That is so when every character of the labels is a character
    of XML; a document with another control character in a label is
    exported to a text that is not well-formed, and the import of this
    text answers [null]. *)
Theorem export_import_freemind ns es R rootLabel :
  doc_forest ns es = Some R ->
  doc_root_label ns es = Some rootLabel ->
  exists text,
    exportToFreeMind ns es = Some text /\
    if forallb (forallb XmlText.is_char) (rootLabel :: flat_map labels R) then
      exists root added es',
        importFromFreeMind XmlText.parseFromString text
          = Returned (Some {| d_nodes := root :: added; d_edges := es';
                              d_metadata := [] |}) /\
        n_label root = label_or (attribute_text rootLabel) (str "Mind Map") /\
        doc_forest (root :: added) es'
          = Some (map named (map (relabel attribute_text) R))
    else
      importFromFreeMind XmlText.parseFromString text = Returned None.
Proof.
  intros Hdoc Hroot.
  assert (Hexp : exportToFreeMind ns es = Some (freemind_text rootLabel R)).
  { unfold doc_forest, doc_root_label in Hdoc, Hroot. unfold exportToFreeMind.
    set (m := link_children (fun _ => true) (index_nodes (fun n => n) ns) es) in *.
    destruct (m !! ROOT) as [[n ch]|] eqn:Em; [|discriminate].
    cbn [mbind option_bind fmap option_fmap option_map fst snd] in *.
    injection Hroot as <-.
    assert (Heach :
      foldr (fun c acc => out ← buildNode (S (length es)) m c 2; rest ← acc;
                          Some (out ++ rest))
            (Some []) ch = Some (flat_map (freemind_node 2) R)).
    { apply mapM_Some in Hdoc. clear Em.
      induction Hdoc as [|c kid ch kids Hc _ IHk]; [reflexivity|].
      cbn [foldr]. rewrite (buildNode_unfold m _ _ 2 _ Hc), IHk. reflexivity. }
    rewrite Heach. cbn [mbind option_bind]. unfold freemind_text.
    now rewrite <- ?app_assoc. }
  exists (freemind_text rootLabel R). split; [exact Hexp|].
  unfold importFromFreeMind, importFromFreeMind_body, XmlText.parseFromString.
  rewrite parse_freemind_text.
  destruct (forallb (forallb XmlText.is_char) (rootLabel :: flat_map labels R));
    [|reflexivity].
  cbn [from_option id].
  set (l := attribute_text rootLabel). set (R' := map (relabel attribute_text) R).
  assert (Herr : has_element (str "parsererror") (freemind_elements l R') = false).
  { unfold freemind_elements. cbn [has_element existsb].
    rewrite node_elements_no_error. reflexivity. }
  assert (Hsel : select_map_node false (freemind_elements l R')
                 = Some (Elem (str "node")
                           [(str "TEXT", label_or l (str "Mind Map"))]
                           (map node_element R'))).
  { unfold freemind_elements. cbn [select_map_node andb]. now rewrite !eqs_refl. }
  rewrite Herr, Hsel.
  cbn [parseNode Nat.eqb b_nodeId b_nodes b_edges app]. rewrite Nat.add_1_r.
  rewrite (parseNode_kids (map node_element R') ROOT 0). cbv zeta.
  cbn [b_nodeId b_nodes b_edges app d_nodes d_edges].
  rewrite xml_forest_node_elements.
  set (F := number_forest 0 (map named R')).
  destruct (imported_nodes_views F 1) as (Hv & _ & _).
  pose proof (imported_edges_ends F ROOT 1) as He.
  eexists _, _, _. split; [reflexivity|]. split.
  - cbn [imported_root n_label]. unfold getAttribute.
    cbn [xml_attrs List.find fst]. rewrite eqs_refl.
    cbn [fmap option_fmap option_map snd].
    unfold or_else, label_or. now destruct l.
  - apply doc_forest_rooted; [reflexivity|exact Hv|exact He].
Qed.

Lemma export_import_freemind_witness :
  exists text,
    exportToFreeMind (nodes wrapped_doc) (edges wrapped_doc) = Some text /\
    exists root added es',
      importFromFreeMind XmlText.parseFromString text
        = Returned (Some {| d_nodes := root :: added; d_edges := es';
                            d_metadata := [] |}) /\
      n_label root = str "Mind Map" /\
      doc_forest (root :: added) es'
        = Some [ Rose (str "R&D <draft>")
                   [Rose (str "Implement the user authentication") []];
                 Rose (str "Node") [] ].
Proof.
  exact (export_import_freemind (nodes wrapped_doc) (edges wrapped_doc)
           [ Rose (str "R&D <draft>")
               [Rose (str "Implement the user" ++ [LF] ++ str "authentication") []];
             Rose [] [] ]
           (str "Mind Map") eq_refl eq_refl).
Defined.

(** ** History manager *)

Lemma slice_to_take {A} (l : list A) (i : Z) :
  (-1 <= i < Z.of_nat (length l))%Z ->
  slice_to (i + 1) l = take (Z.to_nat (i + 1)) l /\
  length (slice_to (i + 1) l) = Z.to_nat (i + 1).
Proof.
  intros Hi. unfold slice_to.
  destruct (i + 1 <? 0)%Z eqn:E; [apply Z.ltb_lt in E; lia|].
  rewrite Z.min_l by lia. split; [reflexivity|].
  rewrite length_take. lia.
Qed.

Lemma saveState_ok now d h : history_ok h -> history_ok (saveState now d h).
Proof.
  intros Hok. unfold saveState.
  destruct (h_enabled h); [|exact Hok]. cbn [negb].
  destruct d as [[ns es]|]; [|exact Hok].
  destruct Hok as (Hi & Hpos & Hmax).
  destruct (slice_to_take (h_states h) (h_currentIndex h) Hi) as [_ Hlen].
  set (kept := slice_to (h_currentIndex h + 1) (h_states h)) in *.
  destruct (h_maxStates h <? _)%Z eqn:E.
  - apply Z.ltb_lt in E. rewrite length_app in E. cbn [length] in E.
    unfold history_ok. cbn [h_states h_currentIndex h_maxStates].
    assert (Hl : length (tail (kept ++ [Snapshot ns es now])) = length kept).
    { destruct kept; cbn; [reflexivity|]. rewrite length_app. cbn. lia. }
    rewrite Hl. lia.
  - apply Z.ltb_ge in E. rewrite length_app in E. cbn [length] in E.
    unfold history_ok. cbn [h_states h_currentIndex h_maxStates].
    rewrite length_app. cbn [length]. lia.
Qed.

Lemma history_step_ok h c : history_ok h -> history_ok (history_step h c).
Proof.
  intros Hok. destruct c as [now d| | | |b]; cbn [history_step].
  - now apply saveState_ok.
  - unfold undo, canUndo. destruct (0 <? h_currentIndex h)%Z eqn:E; [|exact Hok].
    apply Z.ltb_lt in E. destruct Hok as (Hi & Hpos & Hmax).
    unfold history_ok. cbn. lia.
  - unfold redo, canRedo. destruct (h_currentIndex h <? _)%Z eqn:E; [|exact Hok].
    apply Z.ltb_lt in E. destruct Hok as (Hi & Hpos & Hmax).
    unfold history_ok. cbn. lia.
  - unfold history_ok. cbn. lia.
  - exact Hok.
Qed.

Lemma history_run_ok calls : forall h,
  history_ok h -> history_ok (fold_left history_step calls h).
Proof.
  induction calls as [|c calls IH]; intros h Hok; [exact Hok|].
  cbn [fold_left]. apply IH. now apply history_step_ok.
Qed.

Lemma HistoryManager_ok maxStates : history_ok (HistoryManager maxStates).
Proof. unfold history_ok. cbn. lia. Qed.

Lemma state_at_inside i l :
  (0 <= i < Z.of_nat (length l))%Z -> exists s, state_at i l = State s /\ In s l.
Proof.
  intros Hi. unfold state_at, item_at.
  destruct (i <? 0)%Z eqn:E; [apply Z.ltb_lt in E; lia|].
  destruct (l !! Z.to_nat i) as [s|] eqn:El.
  - exists s. split; [reflexivity|]. apply list_elem_of_In. eapply list_elem_of_lookup_2, El.
  - apply lookup_ge_None in El. lia.
Qed.

(** X19: after any sequence of calls on a new manager, the index is -1 on an
    empty history and points at a saved state otherwise, the history holds
    at most [maxStates] states, and undo and redo answer [null] exactly when
    [canUndo] and [canRedo] say no, and a saved state otherwise, never
    [undefined]. *)
Theorem history_calls_keep_index_inside maxStates calls :
  let h := fold_left history_step calls (HistoryManager maxStates) in
  history_ok h /\
  (snd (undo h) = Null <-> canUndo h = false) /\
  (snd (redo h) = Null <-> canRedo h = false) /\
  (canUndo h = true -> exists s, snd (undo h) = State s /\ In s (h_states h)) /\
  (canRedo h = true -> exists s, snd (redo h) = State s /\ In s (h_states h)).
Proof.
  intros h.
  assert (Hok : history_ok h) by apply history_run_ok, HistoryManager_ok.
  split; [exact Hok|]. destruct Hok as (Hi & Hpos & Hmax).
  assert (Hu : canUndo h = true ->
               exists s, snd (undo h) = State s /\ In s (h_states h)).
  { intros Hc. unfold undo. rewrite Hc. cbn [negb snd].
    apply Z.ltb_lt in Hc. apply state_at_inside. lia. }
  assert (Hr : canRedo h = true ->
               exists s, snd (redo h) = State s /\ In s (h_states h)).
  { intros Hc. unfold redo. rewrite Hc. cbn [negb snd].
    apply Z.ltb_lt in Hc. apply state_at_inside. lia. }
  repeat split; try assumption.
  - intros Hn. destruct (canUndo h) eqn:E; [|reflexivity].
    destruct (Hu eq_refl) as (s & Hs & _). congruence.
  - intros Hc. unfold undo. now rewrite Hc.
  - intros Hn. destruct (canRedo h) eqn:E; [|reflexivity].
    destruct (Hr eq_refl) as (s & Hs & _). congruence.
  - intros Hc. unfold redo. now rewrite Hc.
Qed.

Lemma move_to_back h i j :
  j = h_currentIndex h -> move_to j (move_to i h) = h.
Proof. intros ->. now destruct h. Qed.

(** X20: an undo that is possible is taken back by the redo that follows it,
    which returns the state that was current; and the same the other way
    round. *)
Theorem undo_redo_inverse maxStates calls :
  let h := fold_left history_step calls (HistoryManager maxStates) in
  (canUndo h = true ->
   redo (fst (undo h)) = (h, state_at (h_currentIndex h) (h_states h))) /\
  (canRedo h = true ->
   undo (fst (redo h)) = (h, state_at (h_currentIndex h) (h_states h))).
Proof.
  intros h.
  assert (Hok : history_ok h) by apply history_run_ok, HistoryManager_ok.
  destruct Hok as (Hi & Hpos & Hmax). split; intros Hc.
  - unfold undo. rewrite Hc. cbn [negb fst]. apply Z.ltb_lt in Hc.
    unfold redo, canRedo. cbn [move_to h_currentIndex h_states].
    assert (E : (h_currentIndex h - 1 <? Z.of_nat (length (h_states h)) - 1)%Z = true)
      by (apply Z.ltb_lt; lia).
    rewrite E. cbn [negb].
    replace (h_currentIndex h - 1 + 1)%Z with (h_currentIndex h) by lia.
    now rewrite move_to_back.
  - unfold redo. rewrite Hc. cbn [negb fst]. apply Z.ltb_lt in Hc.
    unfold undo, canUndo. cbn [move_to h_currentIndex h_states].
    assert (E : (0 <? h_currentIndex h + 1)%Z = true) by (apply Z.ltb_lt; lia).
    rewrite E. cbn [negb].
    replace (h_currentIndex h + 1 - 1)%Z with (h_currentIndex h) by lia.
    now rewrite move_to_back.
Qed.

Lemma undo_redo_inverse_witness :
  let h := fold_left history_step (three_saves ++ [CallUndo]) (HistoryManager 50) in
  redo (fst (undo h)) = (h, state_at (h_currentIndex h) (h_states h)) /\
  undo (fst (redo h)) = (h, state_at (h_currentIndex h) (h_states h)).
Proof.
  intros h.
  split; [apply (proj1 (undo_redo_inverse 50 (three_saves ++ [CallUndo])))
         |apply (proj2 (undo_redo_inverse 50 (three_saves ++ [CallUndo])))];
    reflexivity.
Defined.

Lemma lookup_snoc_last {A} (l : list A) x : (l ++ [x]) !! length l = Some x.
Proof. rewrite lookup_app_r by lia. now rewrite Nat.sub_diag. Qed.

Lemma tail_snoc_last {A} (l : list A) x :
  l <> [] -> tail (l ++ [x]) !! (length l - 1) = Some x.
Proof.
  destruct l as [|y l]; [congruence|]. intros _. cbn [app tail length].
  replace (S (length l) - 1) with (length l) by lia. apply lookup_snoc_last.
Qed.

(** X21: saving a state on an enabled manager with room for a state makes the
    saved state the current one and leaves nothing to redo: the states
    that an undo had left ahead of the index are dropped. *)
Theorem saveState_drops_redo_states maxStates calls now ns es :
  let h := fold_left history_step calls (HistoryManager maxStates) in
  let h' := saveState now (Some (ns, es)) h in
  h_enabled h = true -> (0 < maxStates)%Z ->
  canRedo h' = false /\
  state_at (h_currentIndex h') (h_states h')
    = State {| s_nodes := ns; s_edges := es; s_timestamp := now |} /\
  exists k, k <= 1 /\
    h_states h' = drop k (take (Z.to_nat (h_currentIndex h + 1)) (h_states h))
                  ++ [{| s_nodes := ns; s_edges := es; s_timestamp := now |}].
Proof.
  intros h h' Hen Hmax0.
  assert (Hok : history_ok h) by apply history_run_ok, HistoryManager_ok.
  destruct Hok as (Hi & Hpos & Hmax).
  destruct (slice_to_take (h_states h) (h_currentIndex h) Hi) as [Hs Hlen].
  unfold h', saveState, canRedo. rewrite Hen. cbn [negb].
  rewrite Hs in *. set (kept := take (Z.to_nat (h_currentIndex h + 1)) (h_states h)) in *.
  set (s := {| s_nodes := ns; s_edges := es; s_timestamp := now |}).
  destruct (h_maxStates h <? _)%Z eqn:E.
  - apply Z.ltb_lt in E. rewrite length_app in E. cbn [length] in E.
    cbn [h_states h_currentIndex].
    assert (Hne : kept <> []).
    { intros E0. rewrite E0 in Hlen, E. cbn in E.
      assert (h_maxStates h <= 0)%Z by lia.
      assert (Hmm : forall cs h0, h_maxStates (fold_left history_step cs h0) = h_maxStates h0).
      { clear. induction cs as [|c cs IH]; intros h0; [reflexivity|].
        cbn [fold_left]. rewrite IH. destruct c as [n d| | | |b]; cbn [history_step].
        - unfold saveState. destruct (h_enabled h0); [|reflexivity]. cbn [negb].
          destruct d as [[a b]|]; [|reflexivity]. now destruct (_ <? _)%Z.
        - unfold undo. now destruct (negb _).
        - unfold redo. now destruct (negb _).
        - reflexivity.
        - reflexivity. }
      unfold h in H. rewrite Hmm in H. cbn in H. lia. }
    assert (Hl : length (tail (kept ++ [s])) = length kept).
    { destruct kept; [congruence|]. cbn. rewrite length_app. cbn. lia. }
    rewrite Hl. split; [apply Z.ltb_ge; lia|]. split.
    + unfold state_at, item_at.
      destruct (h_currentIndex h <? 0)%Z eqn:E0; [apply Z.ltb_lt in E0|].
      * destruct kept; [congruence|]. cbn in Hlen. lia.
      * replace (Z.to_nat (h_currentIndex h)) with (length kept - 1) by lia.
        now rewrite tail_snoc_last.
    + exists 1. split; [lia|]. destruct kept; [congruence|]. reflexivity.
  - cbn [h_states h_currentIndex]. rewrite length_app. cbn [length].
    split; [apply Z.ltb_ge; lia|]. split.
    + unfold state_at, item_at.
      destruct (h_currentIndex h + 1 <? 0)%Z eqn:E0; [apply Z.ltb_lt in E0; lia|].
      rewrite <- Hlen. now rewrite lookup_snoc_last.
    + exists 0. split; [lia|]. reflexivity.
Qed.

Lemma saveState_drops_redo_states_witness :
  let h := fold_left history_step (three_saves ++ [CallUndo; CallUndo]) (HistoryManager 50) in
  let h' := saveState 9 (Some ([], [])) h in
  canRedo h = true /\ canRedo h' = false /\ getStateCount h = 3 /\ getStateCount h' = 2.
Proof.
  intros h h'.
  destruct (saveState_drops_redo_states 50 (three_saves ++ [CallUndo; CallUndo]) 9 [] []
              eq_refl eq_refl) as (Hr & _ & _).
  split; [reflexivity|]. split; [exact Hr|]. split; reflexivity.
Defined.

Lemma lastn_all {A} k (l : list A) : length l <= k -> lastn k l = l.
Proof. intros H. unfold lastn. now replace (length l - k) with 0 by lia. Qed.

Lemma lastn_cons {A} k x (l : list A) : k <= length l -> lastn k (x :: l) = lastn k l.
Proof.
  intros H. unfold lastn. cbn [length].
  now replace (S (length l) - k) with (S (length l - k)) by lia.
Qed.

Lemma lastn_app_full {A} k (l r : list A) :
  k <= length l -> lastn k (lastn k l ++ r) = lastn k (l ++ r).
Proof.
  intros H. unfold lastn. rewrite !length_app, length_drop.
  replace (length l - (length l - k) + length r - k) with (length r) by lia.
  replace (length l + length r - k) with ((length l - k) + length r) by lia.
  rewrite <- drop_drop. now rewrite (drop_app_le l r (length l - k)) by lia.
Qed.

Lemma save_all_latest ds : forall h,
  h_enabled h = true -> (0 < h_maxStates h)%Z ->
  h_currentIndex h = (Z.of_nat (length (h_states h)) - 1)%Z ->
  (Z.of_nat (length (h_states h)) <= h_maxStates h)%Z ->
  let h' := save_all ds h in
  h_states h' = lastn (Z.to_nat (h_maxStates h)) (h_states h ++ map saved ds) /\
  h_currentIndex h' = (Z.of_nat (length (h_states h')) - 1)%Z /\
  h_maxStates h' = h_maxStates h.
Proof.
  induction ds as [|[now [ns es]] ds IH]; intros h Hen Hmax Hidx Hlen.
  - cbn. rewrite app_nil_r, lastn_all by lia. auto.
  - cbn [save_all fold_left fst snd map].
    set (h1 := saveState now (Some (ns, es)) h).
    assert (Hs : slice_to (h_currentIndex h + 1) (h_states h) = h_states h).
    { unfold slice_to. rewrite Hidx.
      destruct (_ <? 0)%Z eqn:E; [apply Z.ltb_lt in E; lia|].
      rewrite Z.min_l by lia. apply take_ge. lia. }
    assert (H1 : h_enabled h1 = true /\ h_maxStates h1 = h_maxStates h /\
                 h_currentIndex h1 = (Z.of_nat (length (h_states h1)) - 1)%Z /\
                 (Z.of_nat (length (h_states h1)) <= h_maxStates h)%Z /\
                 h_states h1 = lastn (Z.to_nat (h_maxStates h))
                                 (h_states h ++ [saved (now, (ns, es))])).
    { unfold h1, saveState. rewrite Hen, Hs. cbn [negb].
      rewrite length_app. cbn [length].
      destruct (h_maxStates h <? _)%Z eqn:E.
      - apply Z.ltb_lt in E. cbn [h_enabled h_maxStates h_currentIndex h_states].
        destruct (h_states h) as [|s0 l] eqn:El; [cbn in E; lia|].
        cbn [app tail length] in *. rewrite length_app. cbn [length].
        repeat split; try lia.
        change (s0 :: l ++ [saved (now, (ns, es))])
          with (s0 :: (l ++ [saved (now, (ns, es))])).
        rewrite lastn_cons by (rewrite length_app; cbn; lia).
        rewrite lastn_all by (rewrite length_app; cbn; lia). reflexivity.
      - apply Z.ltb_ge in E. cbn [h_enabled h_maxStates h_currentIndex h_states].
        rewrite length_app. cbn [length].
        repeat split; try lia.
        rewrite lastn_all by (rewrite length_app; cbn; lia). reflexivity. }
    destruct H1 as (Hen1 & Hmax1 & Hidx1 & Hlen1 & Hst1).
    fold (save_all ds h1).
    destruct (IH h1 Hen1 ltac:(lia) Hidx1 ltac:(lia)) as (E1 & E2 & E3).
    split; [|split; [exact E2|congruence]].
    rewrite E1, Hmax1, Hst1.
    destruct (Nat.le_gt_cases (Z.to_nat (h_maxStates h))
                (length (h_states h ++ [saved (now, (ns, es))]))) as [Hge|Hlt].
    + rewrite lastn_app_full by exact Hge. now rewrite <- app_assoc.
    + rewrite (lastn_all _ (h_states h ++ _)) by lia. now rewrite <- app_assoc.
Qed.

(** X22: a new manager that is given one state after the other keeps the last
    [maxStates] of them, the oldest being dropped, with the index on the
    state saved last. *)
Theorem saveState_keeps_latest_states maxStates ds :
  (0 < maxStates)%Z ->
  let h := save_all ds (HistoryManager maxStates) in
  h_states h = lastn (Z.to_nat maxStates) (map saved ds) /\
  h_currentIndex h = (Z.of_nat (getStateCount h) - 1)%Z /\
  getStateCount h = Nat.min (length ds) (Z.to_nat maxStates).
Proof.
  intros Hmax h.
  destruct (save_all_latest ds (HistoryManager maxStates) eq_refl Hmax eq_refl)
    as (E1 & E2 & _); [cbn; lia|].
  cbn [HistoryManager h_states h_maxStates app] in E1. fold h in E1, E2.
  split; [exact E1|]. split; [exact E2|].
  unfold getStateCount. rewrite E1. unfold lastn.
  rewrite length_drop, length_map. lia.
Qed.

Lemma saveState_keeps_latest_states_witness :
  let ds := [ (1%N, ([], [])); (2%N, ([], [])); (3%N, ([], [])) ] in
  let h := save_all ds (HistoryManager 2) in
  h_states h = lastn 2 (map saved ds) /\
  h_currentIndex h = 1%Z /\ getStateCount h = 2.
Proof.
  intros ds h.
  destruct (saveState_keeps_latest_states 2 ds eq_refl) as (E1 & E2 & E3).
  split; [exact E1|]. split; [exact E2|exact E3].
Defined.
